(** * mirror_wiki.py: the link rewriter, embedded and verified

    The Python program clones a GitLab wiki, rewrites relative links of
    the form [(../Page)] and [(./Page)] to the flat form [(Page)] that a
    GitHub wiki expects, and pushes the result.  This file embeds

    - the two compiled patterns [LINK_INLINE_RE] and [REF_LINK_RE], over a
      backtracking matcher with the priorities of Python's [re] module
      (greedy and lazy repetition, ordered alternation, capture groups,
      multi-line anchors);
    - [re.Pattern.subn] with the two replacement callbacks;
    - the directory scan [convert_gitlab_wiki_links_in_dir], over a file
      store, with its reads, writes and counters;
    - [run] and [copy_github_wiki], over a host that carries what the
      child processes do and the commands that were run;
    - the command-line entry point.

    A Python [str] is a sequence of Unicode code points: it is modelled as
    [list N].  What the interpreter and the operating system provide is
    taken as follows: [os.walk] by the sequence it yields, [str.lower] as a
    parameter, [os.path.join] and the text mode of [open] as on a POSIX
    system, the faults of [open] and of [print] in the scan by a list the
    world carries, a child process by its exit status, its output and what
    it makes of the files. *)

From Stdlib Require Import NArith List Bool Ascii String Lia Arith.
From Stdlib Require Import Strings.Byte Decimal DecimalString.
From stdpp Require Import base gmap.
Import ListNotations.

Open Scope N_scope.
Open Scope list_scope.

(** ** Strings *)

Abbreviation str := (list N).

(** An ASCII literal of the source as a sequence of code points. *)
Definition lit (s : string) : str :=
  List.map N_of_ascii (list_ascii_of_string s).

Definition ch (a : ascii) : N := N_of_ascii a.

Arguments lit : simpl never.
Arguments ch : simpl never.

(** Replace the literals of the goal and of the hypotheses by their code
    points. *)
Ltac unlit :=
  repeat match goal with
  | |- context [lit ?s] =>
      let v := eval vm_compute in (lit s) in change (lit s) with v
  | |- context [ch ?a] =>
      let v := eval vm_compute in (ch a) in change (ch a) with v
  | H : context [lit ?s] |- _ =>
      let v := eval vm_compute in (lit s) in change (lit s) with v in H
  | H : context [ch ?a] |- _ =>
      let v := eval vm_compute in (ch a) in change (ch a) with v in H
  end.

(** [Py_UNICODE_ISSPACE]: the code points that [\s] matches in a [str]
    pattern and that [str.strip()] removes. *)
Definition is_space (c : N) : bool :=
  ((9 <=? c) && (c <=? 13)) || ((28 <=? c) && (c <=? 32))
  || (c =? 133) || (c =? 160) || (c =? 5760)
  || ((8192 <=? c) && (c <=? 8202))
  || (c =? 8232) || (c =? 8233) || (c =? 8239) || (c =? 8287)
  || (c =? 12288).

Fixpoint lstrip (s : str) : str :=
  match s with
  | c :: s' => if is_space c then lstrip s' else s
  | [] => []
  end.

Definition rstrip (s : str) : str := rev (lstrip (rev s)).

(** [str.strip()] *)
Definition strip (s : str) : str := rstrip (lstrip s).

(** [s.startswith(l)] *)
Fixpoint starts_with (l s : str) : bool :=
  match l, s with
  | [], _ => true
  | c :: l', d :: s' => (d =? c) && starts_with l' s'
  | _ :: _, [] => false
  end.

(** ** Regular expressions *)

Module Re.

(** A member of a bracketed set: a literal character or the category [\s]. *)
Inductive item :=
| One (c : N)
| Space.

Definition item_mem (i : item) (c : N) : bool :=
  match i with
  | One d => c =? d
  | Space => is_space c
  end.

(** What one position of the pattern accepts. *)
Inductive cclass :=
| Char (c : N)            (* an escaped or plain literal *)
| Cat (i : item)          (* \s *)
| Dot                     (* . without DOTALL: anything but a line feed *)
| OneOf (l : list item)   (* [...] *)
| NotIn (l : list item).  (* [^...] *)

Definition accepts (k : cclass) (c : N) : bool :=
  match k with
  | Char d => c =? d
  | Cat i => item_mem i c
  | Dot => negb (c =? 10)
  | OneOf l => existsb (fun i => item_mem i c) l
  | NotIn l => negb (existsb (fun i => item_mem i c) l)
  end.

Inductive regex :=
| Eps
| Chr (k : cclass)
| Seq (a b : regex)
| Alt (a b : regex)
| Star (greedy : bool) (a : regex)
| Group (i : nat) (a : regex)
| Bol                     (* ^ under MULTILINE *)
| Eol.                    (* $ under MULTILINE *)

Definition Plus (greedy : bool) (a : regex) : regex := Seq a (Star greedy a).
Definition Opt (a : regex) : regex := Alt a Eps.

Fixpoint Str (s : str) : regex :=
  match s with
  | [] => Eps
  | c :: s' => Seq (Chr (Char c)) (Str s')
  end.

(** The matcher's position: the character before it (for [^]), the text
    still to read, and the groups closed so far, newest first. *)
Record mstate := MState {
  prev : option N;
  rest : str;
  caps : list (nat * str)
}.

Definition at_bol (st : mstate) : bool :=
  match prev st with
  | None => true
  | Some c => c =? 10
  end.

Definition at_eol (st : mstate) : bool :=
  match rest st with
  | [] => true
  | c :: _ => c =? 10
  end.

Definition step (c : N) (s : str) (st : mstate) : mstate :=
  MState (Some c) s (caps st).

(** The text between two positions of one scan. *)
Definition between (from to : mstate) : str :=
  firstn (length (rest from) - length (rest to)) (rest from).

Definition close_group (i : nat) (from to : mstate) : mstate :=
  MState (prev to) (rest to) ((i, between from to) :: caps to).

Fixpoint group_in (i : nat) (l : list (nat * str)) : option str :=
  match l with
  | [] => None
  | (j, s) :: l' => if Nat.eqb i j then Some s else group_in i l'
  end.

(** [m.group(i)]: [None] when the group took no part in the match. *)
Definition group (i : nat) (m : mstate) : option str := group_in i (caps m).

Definition orelse {A} (x : option A) (y : option A) : option A :=
  match x with
  | Some _ => x
  | None => y
  end.

Definition shorter (a b : mstate) : bool :=
  (length (rest a) <? length (rest b))%nat.

(** The loop of a repetition: iterate [body] while it consumes something,
    preferring one more iteration (greedy) or the continuation (lazy).
    [n] bounds the iterations by the length of the text still to read. *)
Fixpoint star_loop (body : mstate -> (mstate -> option mstate) -> option mstate)
  (greedy : bool) (k : mstate -> option mstate) (n : nat) (st : mstate)
  {struct n} : option mstate :=
  match n with
  | O => k st
  | S n' =>
      let again :=
        body st (fun st' =>
          if shorter st' st then star_loop body greedy k n' st' else None) in
      if greedy then orelse again (k st) else orelse (k st) again
  end.

(** Backtracking matcher in continuation-passing style: [k] is the rest of
    the pattern, and the first alternative whose continuation succeeds
    wins, as in [sre].  A repetition stops iterating when its body would
    consume nothing; every repeated body of the two patterns below
    consumes at least one character. *)
Fixpoint rmatch (r : regex) (st : mstate) (k : mstate -> option mstate)
  {struct r} : option mstate :=
  match r with
  | Eps => k st
  | Chr cl =>
      match rest st with
      | c :: s => if accepts cl c then k (step c s st) else None
      | [] => None
      end
  | Seq a b => rmatch a st (fun st' => rmatch b st' k)
  | Alt a b => orelse (rmatch a st k) (rmatch b st k)
  | Star greedy a => star_loop (rmatch a) greedy k (length (rest st)) st
  | Group i a => rmatch a st (fun st' => k (close_group i st st'))
  | Bol => if at_bol st then k st else None
  | Eol => if at_eol st then k st else None
  end.

(** One attempt of the pattern at a position. *)
Definition match_at (re : regex) (p : option N) (s : str) : option mstate :=
  rmatch re (MState p s []) Some.

(** [Pattern.subn(repl, s)]: leftmost non-overlapping matches, scanning
    from the left; [skip] counts the characters of the current match that
    are still to be stepped over.  An empty match is replaced and the scan
    moves one character on (Python 3.7 and later); the two patterns below
    match no empty text.  Returns the new text and the number of
    replacements. *)
Fixpoint subn_from (re : regex) (repl : mstate -> str)
  (p : option N) (s : str) (skip : nat) {struct s} : str * nat :=
  match skip with
  | S k =>
      match s with
      | [] => ([], O)
      | c :: s' => subn_from re repl (Some c) s' k
      end
  | O =>
      match match_at re p s with
      | Some m =>
          let len := (length s - length (rest m))%nat in
          match s with
          | [] => (repl m, 1%nat)
          | c :: s' =>
              let '(out, n) := subn_from re repl (Some c) s' (len - 1)%nat in
              match len with
              | O => (repl m ++ c :: out, S n)
              | S _ => (repl m ++ out, S n)
              end
          end
      | None =>
          match s with
          | [] => ([], O)
          | c :: s' =>
              let '(out, n) := subn_from re repl (Some c) s' O in
              (c :: out, n)
          end
      end
  end.

Definition subn (re : regex) (repl : mstate -> str) (s : str) : str * nat :=
  subn_from re repl None s O.

End Re.

Import Re.

(** ** The two patterns (re.VERBOSE: blanks and comments of the source
    pattern are not part of it) *)

(** The double quote. *)
Abbreviation DQUOTE := 34%N.

Definition ws_star : regex := Star true (Chr (Cat Space)).

(** [(?:\.\./|\.\/)+] *)
Definition rel_prefix : regex :=
  Plus true (Alt (Str (lit "../")) (Str (lit "./"))).

Definition LINK_INLINE_RE : regex :=
  Seq (Chr (Char (ch "[")))
 (Seq (Group 1 (Plus true (Chr (NotIn [One (ch "]")]))))
 (Seq (Chr (Char (ch "]")))
 (Seq (Chr (Char (ch "(")))
 (Seq ws_star
 (Seq rel_prefix
 (Seq ws_star
 (Seq (Group 2 (Seq (Chr (NotIn [One (ch ")"); One (ch "#"); Space]))
                    (Star false (Chr (NotIn [One (ch ")"); One (ch "#")])))))
 (Seq (Opt (Group 3 (Seq (Chr (Char (ch "#")))
                         (Plus true (Chr (NotIn [One (ch ")"); Space]))))))
 (Seq ws_star
      (Chr (Char (ch ")")))))))))))).

Definition REF_LINK_RE : regex :=
  Seq Bol
 (Seq ws_star
 (Seq (Chr (Char (ch "[")))
 (Seq (Group 1 (Plus true (Chr (NotIn [One (ch "]")]))))
 (Seq (Chr (Char (ch "]")))
 (Seq (Chr (Char (ch ":")))
 (Seq ws_star
 (Seq rel_prefix
 (Seq ws_star
 (Seq (Group 2 (Seq (Chr (NotIn [Space; One (ch "#")]))
                    (Star true (Chr (NotIn [Space; One (ch "#")])))))
 (Seq (Opt (Group 3 (Seq (Chr (Char (ch "#")))
                         (Plus true (Chr (NotIn [Space]))))))
 (Seq (Opt (Seq (Plus true (Chr (Cat Space)))
           (Seq (Chr (OneOf [One DQUOTE; One (ch "'")]))
           (Seq (Plus true (Chr Dot))
                (Chr (OneOf [One DQUOTE; One (ch "'")]))))))
 (Seq ws_star
      Eol)))))))))))).

(** ** The replacement callbacks *)

(** The callbacks read the groups 1 and 2 without a default.  Both take
    part in every match of the two patterns (lemma [groups_of_match]), so
    the [None] branch of [fmt] is never taken: there an f-string would
    render the label as the text [None], and [strip] would raise on the
    path. *)
Definition fmt (o : option str) : str :=
  match o with
  | Some s => s
  | None => lit "None"
  end.

(** [m.group(i)], or the empty text when the group took no part. *)
Definition or_empty (o : option str) : str :=
  match o with
  | Some s => s
  | None => []
  end.

Definition _replace_inline_match (m : mstate) : str :=
  let label := group 1 m in
  let path := option_map strip (group 2 m) in
  let anchor := or_empty (group 3 m) in
  lit "[" ++ fmt label ++ lit "](" ++ fmt path ++ anchor ++ lit ")".

Definition _replace_ref_match (m : mstate) : str :=
  let label := group 1 m in
  let path := option_map strip (group 2 m) in
  let anchor := or_empty (group 3 m) in
  lit "[" ++ fmt label ++ lit "]: " ++ fmt path ++ anchor.

Definition inline_rule (s : str) : str * nat :=
  subn LINK_INLINE_RE _replace_inline_match s.

Definition ref_rule (s : str) : str * nat :=
  subn REF_LINK_RE _replace_ref_match s.

(** Lines 78-81 of the source: the inline rule, then the reference rule on
    its output; the count is the sum. *)
Definition rewrite_content (content : str) : str * nat :=
  let '(c1, n1) := inline_rule content in
  let '(c2, n2) := ref_rule c1 in
  (c2, (n1 + n2)%nat).

(** * Files, encodings and the directory scan *)

(** ** Text encodings *)

Definition byte_of (n : N) : byte :=
  match Byte.of_N (n mod 256) with
  | Some b => b
  | None => "000"%byte
  end.

(** A continuation byte [10xxxxxx]. *)
Definition is_cont (b : N) : bool := (128 <=? b) && (b <=? 191).

Definition in_range (lo hi b : N) : bool := (lo <=? b) && (b <=? hi).

(** Strict UTF-8, as the [utf-8] codec reads it: no overlong form, no
    surrogate, nothing above U+10FFFF.  [None] is [UnicodeDecodeError]. *)
Fixpoint utf8_decode (bs : list N) : option str :=
  match bs with
  | [] => Some []
  | b0 :: r0 =>
      if b0 <? 128 then option_map (cons b0) (utf8_decode r0)
      else if in_range 194 223 b0 then
        match r0 with
        | b1 :: r1 =>
            if is_cont b1
            then option_map (cons ((b0 - 192) * 64 + (b1 - 128)))
                            (utf8_decode r1)
            else None
        | _ => None
        end
      else if in_range 224 239 b0 then
        match r0 with
        | b1 :: b2 :: r2 =>
            if in_range (if b0 =? 224 then 160 else 128)
                        (if b0 =? 237 then 159 else 191) b1
               && is_cont b2
            then option_map
                   (cons ((b0 - 224) * 4096 + (b1 - 128) * 64 + (b2 - 128)))
                   (utf8_decode r2)
            else None
        | _ => None
        end
      else if in_range 240 244 b0 then
        match r0 with
        | b1 :: b2 :: b3 :: r3 =>
            if in_range (if b0 =? 240 then 144 else 128)
                        (if b0 =? 244 then 143 else 191) b1
               && is_cont b2 && is_cont b3
            then option_map
                   (cons ((b0 - 240) * 262144 + (b1 - 128) * 4096
                          + (b2 - 128) * 64 + (b3 - 128)))
                   (utf8_decode r3)
            else None
        | _ => None
        end
      else None
  end.

(** [latin1] reads every byte as the code point of the same value. *)
Definition latin1_decode (bs : list N) : str := bs.

(** The encoder of [utf-8]: [None] is [UnicodeEncodeError] (a surrogate). *)
Fixpoint utf8_encode (s : str) : option (list N) :=
  match s with
  | [] => Some []
  | c :: s' =>
      let enc :=
        if c <? 128 then Some [c]
        else if c <? 2048 then Some [192 + c / 64; 128 + c mod 64]
        else if in_range 55296 57343 c then None
        else if c <? 65536 then
          Some [224 + c / 4096; 128 + (c / 64) mod 64; 128 + c mod 64]
        else if c <? 1114112 then
          Some [240 + c / 262144; 128 + (c / 4096) mod 64;
                128 + (c / 64) mod 64; 128 + c mod 64]
        else None in
      match enc, utf8_encode s' with
      | Some e, Some r => Some (e ++ r)
      | _, _ => None
      end
  end.

(** Text mode with [newline=None]: on input, [\r\n] and a lone [\r]
    become [\n]. *)
Fixpoint universal_newlines (s : str) : str :=
  match s with
  | [] => []
  | c :: s' =>
      if c =? 13 then
        10 :: match s' with
              | d :: s'' =>
                  if d =? 10 then universal_newlines s''
                  else universal_newlines s'
              | [] => []
              end
      else c :: universal_newlines s'
  end.

Inductive encoding := Utf8 | Latin1.

Definition decode (enc : encoding) (bs : list byte) : option str :=
  match enc with
  | Utf8 => utf8_decode (List.map Byte.to_N bs)
  | Latin1 => Some (latin1_decode (List.map Byte.to_N bs))
  end.

(** ** The world: a file store, the faults of the operating system, and
    what the program did *)

Inductive exn :=
| UnicodeDecodeError
| UnicodeEncodeError
| FileNotFoundError
| PermissionError
| OtherOSError
| KeyboardInterrupt.

(** [except Exception] catches every class above but [KeyboardInterrupt],
    which derives from [BaseException] only. *)
Definition is_Exception (e : exn) : bool :=
  match e with
  | KeyboardInterrupt => false
  | _ => true
  end.

Inductive open_mode := ModeR | ModeW.

Inductive event :=
| EOpen (path : str) (mode : open_mode) (enc : encoding)
| EWrite (path : str) (data : list byte)
| EPrint (text : str).

(** [faults]: what the next calls of [open] and of [print] raise before
    they reach the file or the standard output ([None]: nothing), one
    entry for each call in the order of the calls; an empty list is a
    system without faults.  [log]: newest event first. *)
Record world := World {
  files : gmap str (list byte);
  faults : list (option exn);
  log : list event
}.

(** A computation that reads and changes the world and returns a value
    or raises. *)
Definition M (A : Type) : Type := world -> (exn + A) * world.

Definition ret {A} (a : A) : M A := fun w => (inr a, w).

Definition raise {A} (e : exn) : M A := fun w => (inl e, w).

Definition bind {A B} (m : M A) (f : A -> M B) : M B :=
  fun w =>
    match m w with
    | (inr a, w') => f a w'
    | (inl e, w') => (inl e, w')
    end.

Notation "'let!' x := m 'in' k" := (bind m (fun x => k))
  (at level 10, x pattern, m at level 100, k at level 200).
Notation "m ;; k" := (bind m (fun _ => k))
  (at level 100, k at level 200, right associativity).

(** [try: m except Exception: h] *)
Definition try_except {A} (m h : M A) : M A :=
  fun w =>
    match m w with
    | (inl e, w') => if is_Exception e then h w' else (inl e, w')
    | r => r
    end.

Definition emit (e : event) : M unit :=
  fun w => (inr tt, World (files w) (faults w) (e :: log w)).

(** The fault of the next call of [open] or of [print], if any. *)
Definition next_fault : M unit :=
  fun w =>
    match faults w with
    | Some e :: fs => (inl e, World (files w) fs (log w))
    | None :: fs => (inr tt, World (files w) fs (log w))
    | [] => (inr tt, w)
    end.

(** [print(text)]: the text reaches the standard output, or the call
    raises and nothing of the text is written - [UnicodeEncodeError] when
    the encoding of the standard output has no code for one of its
    characters, an [OSError] when the output is closed. *)
Definition print (text : str) : M unit :=
  next_fault ;; emit (EPrint text).

Definition lookup_file (path : str) : M (list byte) :=
  fun w =>
    match files w !! path with
    | Some b => (inr b, w)
    | None => (inl FileNotFoundError, w)
    end.

Definition store_file (path : str) (b : list byte) : M unit :=
  fun w => (inr tt, World (<[path := b]> (files w)) (faults w) (log w)).

(** [with open(path, "r", encoding=enc) as fh: content = fh.read()] *)
Definition read_text (path : str) (enc : encoding) : M str :=
  emit (EOpen path ModeR enc) ;;
  next_fault ;;
  let! b := lookup_file path in
  match decode enc b with
  | Some s => ret (universal_newlines s)
  | None => raise UnicodeDecodeError
  end.

(** [with open(path, "w", encoding="utf-8") as fh: fh.write(text)]:
    opening truncates the file, writing encodes the text. *)
Definition write_text (path : str) (text : str) : M unit :=
  emit (EOpen path ModeW Utf8) ;;
  next_fault ;;
  store_file path [] ;;
  match utf8_encode text with
  | Some bs =>
      store_file path (List.map byte_of bs) ;;
      emit (EWrite path (List.map byte_of bs))
  | None => raise UnicodeEncodeError
  end.

(** [os.path.join(root, filename)] on a POSIX system. *)
Definition path_join (a b : str) : str :=
  if starts_with [47] b then b
  else match rev a with
       | [] => b
       | c :: _ => if c =? 47 then a ++ b else a ++ 47 :: b
       end.

Definition ends_with (s suffix : str) : bool :=
  starts_with (rev suffix) (rev s).

(** The decimal text of a number in an f-string. *)
Definition str_of_nat (n : nat) : str :=
  lit (NilZero.string_of_uint (Nat.to_uint n)).

Section Scan.

(** [str.lower] of the interpreter. *)
Variable lower : str -> str.

(** [filename.lower().endswith((".md", ".markdown"))] *)
Definition is_markdown (filename : str) : bool :=
  ends_with (lower filename) (lit ".md")
  || ends_with (lower filename) (lit ".markdown").

Variable verbose : bool.

(** Lines 71-76: the content of the file, with the fallback. *)
Definition read_content (filepath : str) : M str :=
  try_except (read_text filepath Utf8) (read_text filepath Latin1).

(** Lines 70-90: one markdown file; [acc] is
    [(files_changed, total_replacements)]. *)
Definition process_file (filepath : str) (acc : nat * nat) : M (nat * nat) :=
  let! content := read_content filepath in
  let '(new_content, n) := rewrite_content content in
  if (0 <? n)%nat then
    write_text filepath new_content ;;
    print new_content ;;
    (if verbose
     then print (str_of_nat n ++ lit " link(s) fixed in: " ++ filepath)
     else ret tt) ;;
    ret (S (fst acc), (snd acc + n)%nat)
  else ret acc.

(** Lines 66-90: the files of one directory. *)
Fixpoint scan_files (root : str) (names : list str) (acc : nat * nat)
  : M (nat * nat) :=
  match names with
  | [] => ret acc
  | filename :: names' =>
      if negb (is_markdown filename) then scan_files root names' acc
      else
        let! acc' := process_file (path_join root filename) acc in
        scan_files root names' acc'
  end.

(** Lines 65-90: [walk] is what [os.walk(wiki_dir)] yields, the pairs of a
    directory and the names of its files. *)
Fixpoint scan_walk (walk : list (str * list str)) (acc : nat * nat)
  : M (nat * nat) :=
  match walk with
  | [] => ret acc
  | (root, names) :: walk' =>
      let! acc' := scan_files root names acc in
      scan_walk walk' acc'
  end.

Definition convert_gitlab_wiki_links_in_dir (walk : list (str * list str))
  : M (nat * nat) :=
  let! r := scan_walk walk (O, O) in
  print ([10] ++ lit " Link conversion completed " ++ [8212] ++ lit " "
         ++ str_of_nat (fst r) ++ lit " file(s) updated, "
         ++ str_of_nat (snd r) ++ lit " total replacements.") ;;
  ret r.

(** The markdown files of the walk, in the order of the scan. *)
Definition md_paths (walk : list (str * list str)) : list str :=
  flat_map (fun rn => List.map (path_join (fst rn))
                        (List.filter is_markdown (snd rn))) walk.

End Scan.

(** ** The command line *)

Inductive main_result :=
| SysExit (status : nat) (printed : list str)
| CopyWiki (src_repo dst_repo : str) (token : option str).

Definition usage : list str :=
  [lit "Usage: python copy_wiki.py <source_repo> <destination_repo> [github_token]";
   lit "Example: python copy_wiki.py user1/source-repo user2/dest-repo ghp_XXXXXXX"].

(** Lines 156-166; [argv] is [sys.argv], the script name first. *)
Definition main (argv : list str) : main_result :=
  if (length argv <? 3)%nat then SysExit 1 usage
  else
    let src_repo := nth 1 argv [] in
    let dst_repo := nth 2 argv [] in
    let token := if (3 <? length argv)%nat then Some (nth 3 argv []) else None in
    CopyWiki src_repo dst_repo token.

(** * The vocabulary of the statements *)

(** ** Positions and runs *)

(** The character before the position reached after reading [a]. *)
Definition prev_after (p : option N) (a : str) : option N :=
  fold_left (fun _ c => Some c) a p.

(** [b] does not continue a run of the class [cl]. *)
Definition stops (cl : cclass) (b : str) : Prop :=
  match b with
  | [] => True
  | c :: _ => accepts cl c = false
  end.

(** No attempt of [re] succeeds at any position of [s]. *)
Definition never (re : regex) (s : str) : Prop :=
  forall p a b, s = a ++ b -> match_at re p b = None.

(** [P] holds of every suffix of [s]. *)
Definition all_suffixes (P : str -> Prop) (s : str) : Prop :=
  forall x y, s = x ++ y -> P y.

(** [P] holds of every suffix of [a ++ R] that begins in [a]. *)
Definition inner_suffixes (P : str -> Prop) (a R : str) : Prop :=
  forall a1 c a2, a = a1 ++ c :: a2 -> P (c :: a2 ++ R).

(** The text does not begin with an opening bracket. *)
Definition no_bracket_head (y : str) : Prop :=
  match y with
  | [] => True
  | c :: _ => (c =? 91) = false
  end.

(** The groups that take part in every match of a pattern. *)
Fixpoint participating (r : regex) : list nat :=
  match r with
  | Seq a b => participating a ++ participating b
  | Group i a => i :: participating a
  | _ => []
  end.

(** The groups set at [st] are set at [st'], and so are those of [l]. *)
Definition keeps_groups (l : list nat) (st st' : mstate) : Prop :=
  forall i, In i l \/ group i st <> None -> group i st' <> None.

(** ** Text without a character, trimmed text *)

Definition no_char (c : N) (s : str) : bool :=
  forallb (fun d => negb (d =? c)) s.

Definition no_space (s : str) : bool :=
  forallb (fun d => negb (is_space d)) s.

Definition head_nonspace (s : str) : bool :=
  match s with
  | c :: _ => negb (is_space c)
  | [] => false
  end.

Definition ends_nonspace (s : str) : bool := head_nonspace (rev s).

Definition blank (w : str) : Prop := forallb is_space w = true.

(** ** The shape of a link *)

(** The two segments the patterns strip: [../] and [./]. *)
Inductive segment := Up | Here.

Definition seg_text (s : segment) : str :=
  match s with
  | Up => lit "../"
  | Here => lit "./"
  end.

Definition rel_path (l : list segment) : str := flat_map seg_text l.

(** [s] does not begin with a segment. *)
Definition no_rel_head (s : str) : bool :=
  negb (starts_with (lit "../") s) && negb (starts_with (lit "./") s).

Definition anchor_text (o : option str) : str :=
  match o with
  | Some sec => ch "#" :: sec
  | None => []
  end.

(** A label of an inline link or of a reference definition. *)
Definition label_ok (L : str) : Prop :=
  L <> [] /\ no_char (ch "]") L = true.

(** A page path the inline rule keeps as it is. *)
Definition inline_path_ok (X : str) : Prop :=
  X <> [] /\ strip X = X /\
  no_char (ch ")") X = true /\ no_char (ch "#") X = true /\
  no_rel_head X = true.

(** An anchor fragment of an inline link: the text after [#]. *)
Definition inline_anchor_ok (o : option str) : Prop :=
  match o with
  | Some sec => sec <> [] /\ no_char (ch ")") sec = true /\ no_space sec = true
  | None => True
  end.

Definition inline_link (L target : str) : str :=
  lit "[" ++ L ++ lit "](" ++ target ++ lit ")".

(** A quoted title: the blanks before it, the two quotes, the text. *)
Record title := Title {
  t_gap : str;
  t_open : N;
  t_text : str;
  t_close : N
}.

Definition title_text (t : option title) : str :=
  match t with
  | Some t => t_gap t ++ t_open t :: t_text t ++ [t_close t]
  | None => []
  end.

Definition is_quote (c : N) : bool := (c =? DQUOTE) || (c =? ch "'").

Definition title_ok (t : option title) : Prop :=
  match t with
  | Some t =>
      t_gap t <> [] /\ blank (t_gap t) /\
      is_quote (t_open t) = true /\ is_quote (t_close t) = true /\
      t_text t <> [] /\ no_char 10 (t_text t) = true
  | None => True
  end.

(** A page path of a reference definition. *)
Definition ref_path_ok (X : str) : Prop :=
  X <> [] /\ no_space X = true /\ no_char (ch "#") X = true /\
  no_rel_head X = true.

Definition ref_anchor_ok (o : option str) : Prop :=
  match o with
  | Some sec => sec <> [] /\ no_space sec = true
  | None => True
  end.

(** [W1 [L]: W2 target] *)
Definition ref_line (W1 L W2 target : str) : str :=
  W1 ++ lit "[" ++ L ++ lit "]:" ++ W2 ++ target.

Definition inline_caps (L X : str) (o : option str) : list (nat * str) :=
  match o with
  | Some _ => [(3%nat, anchor_text o); (2%nat, X); (1%nat, L)]
  | None => [(2%nat, X); (1%nat, L)]
  end.

(** A document made of text without brackets and of inline links, with
    a relative prefix or without one. *)
Inductive piece :=
| Text (t : str)
| Rel (L : str) (segs : list segment) (X : str) (o : option str)
| Flat (L T : str).

Definition piece_text (x : piece) : str :=
  match x with
  | Text t => t
  | Rel L segs X o => inline_link L (rel_path segs ++ X ++ anchor_text o)
  | Flat L T => inline_link L T
  end.

Definition piece_ok (x : piece) : Prop :=
  match x with
  | Text t => no_char 91 t = true
  | Rel L segs X o =>
      label_ok L /\ segs <> [] /\ inline_path_ok X /\ inline_anchor_ok o /\
      no_char 91 (X ++ anchor_text o) = true
  | Flat L T =>
      no_char 93 L = true /\ no_char 91 T = true /\
      no_rel_head (lstrip T) = true
  end.

Definition render (ps : list piece) : str := flat_map piece_text ps.

(** What the rewrite makes of a piece. *)
Definition flatten (x : piece) : piece :=
  match x with
  | Rel L segs X o => Flat L (X ++ anchor_text o)
  | _ => x
  end.

Definition is_rel (x : piece) : bool :=
  match x with
  | Rel _ _ _ _ => true
  | _ => false
  end.

(** ** Parts of the two patterns *)

Definition rel_body : regex := Alt (Str (lit "../")) (Str (lit "./")).

Definition inline_tail : regex :=
  Seq (Opt (Group 3 (Seq (Chr (Char 35))
                         (Plus true (Chr (NotIn [One 41; Space]))))))
 (Seq ws_star
      (Chr (Char 41))).

Definition title_re : regex :=
  Seq (Plus true (Chr (Cat Space)))
 (Seq (Chr (OneOf [One 34; One 39]))
 (Seq (Plus true (Chr Dot))
      (Chr (OneOf [One 34; One 39])))).

Definition ref_end : regex := Seq (Opt title_re) (Seq ws_star Eol).

Definition ref_tail : regex :=
  Seq (Opt (Group 3 (Seq (Chr (Char 35))
                         (Plus true (Chr (NotIn [Space]))))))
      ref_end.

(** The two patterns, split after the label. *)
Definition label_re : regex := Group 1 (Plus true (Chr (NotIn [One 93]))).

Definition inline_after_label : regex :=
  Seq (Chr (Char 40))
 (Seq ws_star
 (Seq rel_prefix
 (Seq ws_star
 (Seq (Group 2 (Seq (Chr (NotIn [One 41; One 35; Space]))
                    (Star false (Chr (NotIn [One 41; One 35])))))
      inline_tail)))).

Definition ref_after_label : regex :=
  Seq (Chr (Char 58))
 (Seq ws_star
 (Seq rel_prefix
 (Seq ws_star
 (Seq (Group 2 (Seq (Chr (NotIn [Space; One 35]))
                    (Star true (Chr (NotIn [Space; One 35])))))
      ref_tail)))).

Definition ref_bracket : regex :=
  Seq (Chr (Char 91)) (Seq label_re (Seq (Chr (Char 93)) ref_after_label)).

(** ** The scan *)

(** The file an event is about. *)
Definition event_path (e : event) : option str :=
  match e with
  | EOpen p _ _ => Some p
  | EWrite p _ => Some p
  | EPrint _ => None
  end.

(** [m] leaves alone the files outside [P]: their content, and the events
    about them; and it only adds to the log. *)
Definition frame {A} (P : str -> Prop) (m : M A) : Prop :=
  forall w,
    (forall q, ~ P q -> files (snd (m w)) !! q = files w !! q)
    /\ (forall e, In e (log (snd (m w))) ->
          In e (log w) \/
          match event_path e with Some q => P q | None => True end)
    /\ (forall e, In e (log w) -> In e (log (snd (m w)))).

Section ScanDefs.

Variable lower : str -> str.
Variable verbose : bool.

(** The scan of a flat list of markdown paths. *)
Fixpoint scan_paths (ps : list str) (acc : nat * nat) : M (nat * nat) :=
  match ps with
  | [] => ret acc
  | p :: ps' =>
      let! acc' := process_file verbose p acc in
      scan_paths ps' acc'
  end.


End ScanDefs.

(** What the scan reads from a file of a system without faults: the
    [utf-8] text, or the [latin1] text when the bytes are not [utf-8]. *)
Definition read_pure (b : list byte) : str :=
  match decode Utf8 b with
  | Some s => universal_newlines s
  | None => universal_newlines (latin1_decode (List.map Byte.to_N b))
  end.

(** The combined replacement count of the two rules on the file [p]. *)
Definition count (fs : gmap str (list byte)) (p : str) : nat :=
  match fs !! p with
  | Some b => snd (rewrite_content (read_pure b))
  | None => O
  end.

(** The bytes the scan writes to the file [p] when it rewrites it: the
    [utf-8] form of the rewritten content. *)
Definition new_bytes (fs : gmap str (list byte)) (p : str)
  : option (list byte) :=
  match fs !! p with
  | Some b =>
      option_map (List.map byte_of)
        (utf8_encode (fst (rewrite_content (read_pure b))))
  | None => None
  end.

(** The log has a write of the file [p]. *)
Definition written (l : list event) (p : str) : Prop :=
  exists d, In (EWrite p d) l.

(** ** Examples *)

(** ASCII lower-casing, the part of [str.lower] the examples need. *)
Definition ascii_lower (s : str) : str :=
  List.map (fun c => if (65 <=? c) && (c <=? 90) then c + 32 else c) s.

Definition bytes_of (s : string) : list byte := List.map byte_of (lit s).

(** Three documents and a text file: two inline links, one reference
    definition with a title, no link, and a link in a file that is not
    markdown. *)
Definition demo_files : gmap str (list byte) :=
  <[lit "wiki/a.md" := bytes_of "see [A](../A) and [B](./sub/B#x)"]>
  (<[lit "wiki/b.MD" := bytes_of "[r]: ./Home 'T'"]>
  (<[lit "wiki/c.md" := bytes_of "no links"]>
  (<[lit "wiki/d.txt" := bytes_of "[A](../A)"]> ∅))).

Definition demo_walk : list (str * list str) :=
  [(lit "wiki", [lit "a.md"; lit "b.MD"; lit "c.md"; lit "d.txt"])].

(** * What a pattern describes *)

(** [derives r st st']: the pattern [r] reads the text between the
    positions [st] and [st'], closing its groups on the way; a relation
    without priorities, against which the matcher is compared. *)
Inductive derives : regex -> mstate -> mstate -> Prop :=
| D_Eps st : derives Eps st st
| D_Chr cl st c s :
    rest st = c :: s -> accepts cl c = true ->
    derives (Chr cl) st (step c s st)
| D_Seq a b st1 st2 st3 :
    derives a st1 st2 -> derives b st2 st3 -> derives (Seq a b) st1 st3
| D_AltL a b st st' : derives a st st' -> derives (Alt a b) st st'
| D_AltR a b st st' : derives b st st' -> derives (Alt a b) st st'
| D_Star0 g a st : derives (Star g a) st st
| D_StarS g a st1 st2 st3 :
    derives a st1 st2 -> shorter st2 st1 = true ->
    derives (Star g a) st2 st3 -> derives (Star g a) st1 st3
| D_Group i a st st' :
    derives a st st' -> derives (Group i a) st (close_group i st st')
| D_Bol st : at_bol st = true -> derives Bol st st
| D_Eol st : at_eol st = true -> derives Eol st st.

(** [reads st a g st']: between the positions [st] and [st'] lies the
    text [a], and the groups [g] were closed on the way (newest first). *)
Definition reads (st : mstate) (a : str) (g : list (nat * str))
  (st' : mstate) : Prop :=
  rest st = a ++ rest st' /\ caps st' = g ++ caps st.

(** ** The general shape of a match *)

(** The text of an inline link as the pattern takes it: blanks may sit
    after the parenthesis, after the prefix and before the closing
    parenthesis. *)
Definition inline_span (L W1 : str) (segs : list segment) (W2 X : str)
  (o : option str) (W3 : str) : str :=
  lit "[" ++ L ++ lit "](" ++ W1 ++ rel_path segs ++ W2 ++ X
  ++ anchor_text o ++ W3 ++ lit ")".

(** A page path as the inline pattern takes it: it begins with a
    character that is no blank, and has no [)] and no [#]. *)
Definition inline_path_shape (X : str) : Prop :=
  head_nonspace X = true /\
  no_char (ch ")") X = true /\ no_char (ch "#") X = true.

(** The text of a reference definition as the pattern takes it. *)
Definition ref_span (W0 L W1 : str) (segs : list segment) (W2 X : str)
  (o : option str) (t : option title) (W3 : str) : str :=
  W0 ++ lit "[" ++ L ++ lit "]:" ++ W1 ++ rel_path segs ++ W2 ++ X
  ++ anchor_text o ++ title_text t ++ W3.

(** A page path as the reference pattern takes it. *)
Definition ref_path_shape (X : str) : Prop :=
  X <> [] /\ no_space X = true /\ no_char (ch "#") X = true.

(** ** Texts and repeated passes *)

(** [l in s]: the text [l] occurs in [s]. *)
Fixpoint contains (l s : str) : bool :=
  starts_with l s ||
  match s with
  | [] => false
  | _ :: s' => contains l s'
  end.

(** The text after [n] passes of the two rules. *)
Fixpoint passes (n : nat) (s : str) : str :=
  match n with
  | O => s
  | S n' => passes n' (fst (rewrite_content s))
  end.

(** ** Code points *)

(** A Unicode scalar value: a code point below U+110000 that is no
    surrogate; the code points [utf-8] can encode. *)
Definition is_scalar (c : N) : bool :=
  (c <? 55296) || ((57343 <? c) && (c <? 1114112)).

(** ** What a computation adds to the log *)

(** Every event [m] adds to the log satisfies [good]. *)
Definition log_adds {A} (good : event -> Prop) (m : M A) : Prop :=
  forall w e, In e (log (snd (m w))) -> In e (log w) \/ good e.

(** A write of [utf-8] bytes whose text has no carriage return. *)
Definition utf8_lf_write (e : event) : Prop :=
  match e with
  | EWrite _ d => exists t, decode Utf8 d = Some t /\ no_char 13 t = true
  | _ => True
  end.

(** * The mirror: [git], the temporary directory and the rewrite *)

(** ** Child processes *)

(** What a child process does: it exits with a status, having written
    [stdout] and changed the files by [effect]; or it cannot be started
    ([OSError], for instance when there is no [git]). *)
Inductive child :=
| Exits (returncode : Z) (stdout : str)
        (effect : gmap str (list byte) -> gmap str (list byte))
| Fails (e : exn).

(** [subprocess.CalledProcessError], or an exception of the world. *)
Inductive hexn :=
| CalledProcessError (returncode : Z) (cmd : list str)
| Raised (e : exn).

(** The host: the world, what the next child processes do (an empty list:
    each exits with status 0, no output and no effect), and the commands
    run so far with their working directory, newest first. *)
Record host := Host {
  sys : world;
  children : list child;
  calls : list (list str * option str)
}.

Definition HM (A : Type) : Type := host -> (hexn + A) * host.

Definition hret {A} (a : A) : HM A := fun h => (inr a, h).

Definition hbind {A B} (m : HM A) (f : A -> HM B) : HM B :=
  fun h =>
    match m h with
    | (inr a, h') => f a h'
    | (inl e, h') => (inl e, h')
    end.

Notation "'do!' x := m 'in' k" := (hbind m (fun x => k))
  (at level 10, x pattern, m at level 100, k at level 200).
Notation "m ;;; k" := (hbind m (fun _ => k))
  (at level 100, k at level 200, right associativity).

(** A computation of the world, run on the host. *)
Definition lift {A} (m : M A) : HM A :=
  fun h =>
    match m (sys h) with
    | (inr a, w) => (inr a, Host w (children h) (calls h))
    | (inl e, w) => (inl (Raised e), Host w (children h) (calls h))
    end.

(** [try: m except subprocess.CalledProcessError: handler] *)
Definition try_called {A} (m handler : HM A) : HM A :=
  fun h =>
    match m h with
    | (inl (CalledProcessError _ _), h') => handler h'
    | r => r
    end.

(** A message of [run] or of [copy_github_wiki] on the standard output,
    which is taken to accept it; the faults the world carries are those
    of the scan. *)
Definition hprint (text : str) : HM unit := lift (emit (EPrint text)).

(** [sep.join(l)] *)
Fixpoint str_join (sep : str) (l : list str) : str :=
  match l with
  | [] => []
  | [x] => x
  | x :: l' => x ++ sep ++ str_join sep l'
  end.

(** The truth value of a [str]. *)
Definition truthy (s : str) : bool :=
  match s with
  | [] => false
  | _ :: _ => true
  end.

(** [subprocess.run(cmd, cwd=cwd, check=check)]: the status and the
    standard output of the child.  With [check], a status other than 0
    raises [CalledProcessError]. *)
Definition subprocess_run (cmd : list str) (cwd : option str) (check : bool)
  : HM (Z * str) :=
  fun h =>
    let after w := Host w (tl (children h)) ((cmd, cwd) :: calls h) in
    match children h with
    | Exits returncode out effect :: _ =>
        let w := World (effect (files (sys h))) (faults (sys h))
                   (log (sys h)) in
        if check && negb (returncode =? 0)%Z
        then (inl (CalledProcessError returncode cmd), after w)
        else (inr (returncode, out), after w)
    | Fails e :: _ => (inl (Raised e), after (sys h))
    | [] => (inr (0%Z, []), after (sys h))
    end.

(** Lines 9-11. *)
Definition run (cmd : list str) (cwd : option str) (check : bool) : HM unit :=
  hprint ([9654; 65039] ++ lit " " ++ str_join (lit " ") cmd) ;;;
  subprocess_run cmd cwd check ;;;
  hret tt.

(** [os.path.exists(path)]; the store holds regular files. *)
Definition path_exists (path : str) : HM bool :=
  fun h =>
    (inr (match files (sys h) !! path with Some _ => true | None => false end),
     h).

(** ** The temporary directory *)

(** [path] lies in the directory [dir]. *)
Definition under (dir path : str) : bool := starts_with (dir ++ [47]) path.

Definition remove_tree (dir : str) (fs : gmap str (list byte))
  : gmap str (list byte) :=
  filter (fun kv => under dir (fst kv) = false) fs.

(** [with tempfile.TemporaryDirectory() as tmpdir: body]: when the body
    is left, by its end, by [return] or by an exception, the directory
    goes with all it holds. *)
Definition with_tempdir {A} (tmpdir : str) (body : HM A) : HM A :=
  fun h =>
    let '(r, h') := body h in
    (r, Host (World (remove_tree tmpdir (files (sys h')))
                (faults (sys h')) (log (sys h')))
          (children h') (calls h')).

(** ** [copy_github_wiki] *)

Section Mirror.

Variable lower : str -> str.

(** What [os.walk(tmpdir)] yields in a file store. *)
Variable walk_of : gmap str (list byte) -> list (str * list str).

(** The directory that [tempfile.TemporaryDirectory()] makes. *)
Variable tmpdir : str.

Definition git (args : list str) : HM unit :=
  run (lit "git" :: args) (Some tmpdir) true.

(** Line 116. *)
Definition rewrite_links : HM (nat * nat) :=
  fun h =>
    lift (convert_gitlab_wiki_links_in_dir lower true
            (walk_of (files (sys h)))) h.

(** Lines 120-132: stage and commit what [git status] reports. *)
Definition commit_changes : HM unit :=
  do! status := subprocess_run [lit "git"; lit "status"; lit "--porcelain"]
                  (Some tmpdir) false in
  let changed := strip (snd status) in
  if truthy changed then
    hprint (lit "Changes detected, staging and committing...") ;;;
    git [lit "add"; lit "-A"] ;;;
    try_called
      (git [lit "commit"; lit "-m";
            lit "chore: rewrite GitLab-style relative wiki links for GitHub"])
      (hprint (lit "Nothing to commit after staging (maybe identical content)."))
  else
    hprint (lit "No changes detected after link rewrite (nothing to commit).").

(** Lines 136-139. *)
Definition ensure_master : HM unit :=
  try_called (git [lit "checkout"; lit "master"])
             (git [lit "branch"; lit "-M"; lit "master"]).

(** Lines 146-152: the handler of a push that failed. *)
Definition initialize_wiki (github_url : str) : HM unit :=
  hprint (lit "GitHub wiki not initialized " ++ [8212] ++ lit " creating it.") ;;;
  let home_path := path_join tmpdir (lit "Home.md") in
  do! present := path_exists home_path in
  (if negb present then
     lift (write_text home_path
             (lit "# " ++ github_url ++ lit " Wiki" ++ [10; 10]
              ++ lit "(Initialized from GitLab)")) ;;;
     git [lit "add"; lit "Home.md"] ;;;
     git [lit "commit"; lit "-m"; lit "Initialize wiki"]
   else hret tt) ;;;
  git [lit "push"; lit "-u"; lit "origin"; lit "master"; lit "--force"].

(** Lines 141-152. *)
Definition push_wiki (github_url : str) : HM unit :=
  hprint ([128640] ++ lit " Pushing wiki to GitHub...") ;;;
  try_called
    (git [lit "push"; lit "origin"; lit "master"; lit "--force"])
    (initialize_wiki github_url).

(** Lines 116-154: rewrite the links, commit, and push. *)
Definition publish (github_url : str) : HM unit :=
  rewrite_links ;;;
  commit_changes ;;;
  ensure_master ;;;
  push_wiki github_url ;;;
  hprint (lit "Wiki copied successfully from GitLab " ++ [8594]
          ++ lit " GitHub!").

(** Lines 110-154: what follows a clone that succeeded. *)
Definition mirror_clone (github_url : str) : HM unit :=
  hprint (lit "Setting new remote to GitHub wiki: " ++ github_url) ;;;
  git [lit "remote"; lit "set-url"; lit "origin"; github_url] ;;;
  publish github_url.

(** Lines 97-154.  [auth_prefix] is computed and not used.  The file
    [Home.md] is opened without an encoding: the preferred encoding of
    the locale is taken to be [utf-8]. *)
Definition copy_github_wiki (src_repo dst_repo : str) (token : option str)
  : HM unit :=
  with_tempdir tmpdir
    (let auth_prefix :=
       match token with
       | Some t =>
           if truthy t then lit "https://" ++ t ++ lit ":x-oauth-basic@"
           else lit "https://"
       | None => lit "https://"
       end in
     let gitlab_url := src_repo in
     let github_url := dst_repo in
     hprint (lit "Cloning wiki from GitLab: " ++ gitlab_url) ;;;
     do! cloned :=
       try_called
         (run [lit "git"; lit "clone"; gitlab_url; tmpdir] None true ;;;
          hret true)
         (hprint (lit "Source wiki not found " ++ [8212] ++ lit " exiting.") ;;;
          hret false) in
     if cloned then mirror_clone github_url else hret tt).

End Mirror.

(** ** The vocabulary of the statements on the mirror *)

(** The child exits with status 0. *)
Definition exits_zero (c : child) : Prop :=
  match c with
  | Exits returncode _ _ => returncode = 0%Z
  | Fails _ => False
  end.

(** The log has an [open] of a file. *)
Definition opened (l : list event) : Prop :=
  exists p mode enc, In (EOpen p mode enc) l.

(** ** Where the two patterns match *)

(** [r] can read the text [a] wherever it stands before a text that
    satisfies [P]. *)
Definition spells_if (P : str -> Prop) (r : regex) (a : str) : Prop :=
  forall st R, rest st = a ++ R -> P R ->
    exists st', derives r st st' /\ rest st' = R.

Definition spells (r : regex) (a : str) : Prop :=
  spells_if (fun _ => True) r a.

(** The text [A] ends a line, or is empty: what follows it starts a
    line. *)
Definition at_line_start (A : str) : Prop :=
  prev_after None A = None \/ prev_after None A = Some 10.

(** The text [R] starts with a line feed, or is empty. *)
Definition at_line_end (R : str) : Prop :=
  match R with
  | [] => True
  | c :: _ => c = 10
  end.

(** The text has, somewhere, an inline link with a relative prefix. *)
Definition has_relative_link (s : str) : Prop :=
  exists A L W1 segs W2 X o W3 R,
    s = A ++ inline_span L W1 segs W2 X o W3 ++ R /\
    label_ok L /\ blank W1 /\ segs <> [] /\ blank W2 /\
    inline_path_shape X /\ inline_anchor_ok o /\ blank W3.

(** The text has, on lines of its own, a reference definition with a
    relative prefix. *)
Definition has_relative_definition (s : str) : Prop :=
  exists A W0 L W1 segs W2 X o t W3 R,
    s = A ++ ref_span W0 L W1 segs W2 X o t W3 ++ R /\
    at_line_start A /\ at_line_end R /\
    blank W0 /\ label_ok L /\ blank W1 /\ segs <> [] /\ blank W2 /\
    ref_path_shape X /\ ref_anchor_ok o /\ title_ok t /\ blank W3.

(** ** Documents of paragraphs and reference definitions *)

(** [s] begins with a character that is no blank, and no text that
    begins with [s] begins with a segment [../] or [./]. *)
Definition no_rel_start (s : str) : bool :=
  match s with
  | [] => false
  | c :: s' =>
      negb (is_space c) &&
      (if c =? 46 then
         match s' with
         | [] => false
         | d :: s'' =>
             if d =? 47 then false
             else if d =? 46 then
               match s'' with
               | [] => false
               | e :: _ => negb (e =? 47)
               end
             else true
         end
       else true)
  end.

(** What follows, in running text, the bracket that closes a label: a
    character other than [(] and [:], or one of the two, blanks, and a
    target that has no relative prefix. *)
Definition after_label (b : str) : bool :=
  match b with
  | [] => false
  | d :: b' =>
      if (d =? 40) || (d =? 58) then no_rel_start (lstrip b') else true
  end.

(** Running text: every opening bracket is followed by a closing one, and
    the first closing bracket after an opening one is followed as
    [after_label] says.  [opened]: a bracket is open. *)
Fixpoint quiet_from (opened : bool) (t : str) : bool :=
  match t with
  | [] => negb opened
  | c :: t' =>
      if c =? 91 then quiet_from true t'
      else if c =? 93 then
        (if opened then after_label t' else true) && quiet_from false t'
      else quiet_from opened t'
  end.

Definition quiet (t : str) : bool := quiet_from false t.

(** The parts of a paragraph: running text, and inline links with a
    relative prefix or without one. *)
Definition item_ok (x : piece) : Prop :=
  match x with
  | Text t => quiet t = true
  | _ => piece_ok x
  end.

(** A reference definition with a relative prefix:
    [lead [label]: gap segments path anchor title trail]. *)
Record refdef := RefDef {
  d_lead : str;
  d_label : str;
  d_gap : str;
  d_segs : list segment;
  d_path : str;
  d_anchor : option str;
  d_title : option title;
  d_trail : str
}.

Definition def_text (d : refdef) : str :=
  ref_line (d_lead d) (d_label d) (d_gap d)
    (rel_path (d_segs d) ++ d_path d ++ anchor_text (d_anchor d)
     ++ title_text (d_title d) ++ d_trail d).

(** What the reference rule writes for it. *)
Definition def_flat (d : refdef) : str :=
  lit "[" ++ d_label d ++ lit "]: " ++ d_path d ++ anchor_text (d_anchor d).

Definition def_ok (d : refdef) : Prop :=
  blank (d_lead d) /\ label_ok (d_label d) /\ blank (d_gap d) /\
  d_segs d <> [] /\ ref_path_ok (d_path d) /\ ref_anchor_ok (d_anchor d) /\
  title_ok (d_title d) /\ blank (d_trail d) /\
  no_char 91 (d_path d ++ anchor_text (d_anchor d) ++ title_text (d_title d))
  = true.

(** The first line of [s] has a character that is no blank, and the
    first such is no quote. *)
Fixpoint first_mark (s : str) : bool :=
  match s with
  | [] => false
  | c :: s' =>
      if c =? 10 then false
      else if is_space c then first_mark s'
      else negb (is_quote c)
  end.

(** What may follow a definition: the end of the text, or a line feed
    and a line that is not blank and does not begin with a quote. *)
Definition line_tail (s : str) : bool :=
  match s with
  | [] => true
  | c :: s' => (c =? 10) && first_mark s'
  end.

(** The position after the character [p] is the start of a line. *)
Definition line_start (p : option N) : bool :=
  match p with
  | None => true
  | Some c => c =? 10
  end.

(** A paragraph, the end of its last line - blanks and a line feed, if
    the paragraph or a definition stands before - and the definition
    that follows. *)
Record block := Block {
  b_para : list piece;
  b_sep : option str;
  b_def : refdef
}.

Definition sep_text (o : option str) : str :=
  match o with
  | Some B => B ++ [10]
  | None => []
  end.

Definition block_text (b : block) : str :=
  render (b_para b) ++ sep_text (b_sep b) ++ def_text (b_def b).

(** A document: blocks, and a last paragraph. *)
Definition doc_text (bs : list block) (last : list piece) : str :=
  flat_map block_text bs ++ render last.

(** The line before a definition ends where the definition starts: with
    no separator the definition follows the start of the text or a line
    feed; with one, the separator has a single line feed, its last
    character, and follows a character that is no blank (no line feed,
    when the paragraph is empty). *)
Definition sep_ok (p : option N) (para : list piece) (o : option str) : Prop :=
  match o with
  | None => para = [] /\ line_start p = true
  | Some B =>
      blank B /\ no_char 10 B = true /\
      match prev_after p (render para) with
      | Some c =>
          match para with
          | [] => (c =? 10) = false
          | _ => is_space c = false
          end
      | None => False
      end
  end.

(** The documents on which the rewrite is shown to be idempotent; [p] is
    the character before the document. *)
Fixpoint doc_ok (p : option N) (bs : list block) (last : list piece) : Prop :=
  match bs with
  | [] => Forall item_ok last
  | b :: bs' =>
      Forall item_ok (b_para b) /\ sep_ok p (b_para b) (b_sep b) /\
      def_ok (b_def b) /\ line_tail (doc_text bs' last) = true /\
      doc_ok (prev_after p (block_text b)) bs' last
  end.

(** What the rewrite makes of a document. *)
Definition block_flat (b : block) : str :=
  render (List.map flatten (b_para b)) ++ sep_text (b_sep b)
  ++ def_flat (b_def b).

Definition doc_flat (bs : list block) (last : list piece) : str :=
  flat_map block_flat bs ++ render (List.map flatten last).

(** The links and definitions with a relative prefix. *)
Definition doc_links (bs : list block) (last : list piece) : nat :=
  (list_sum (List.map (fun b => length (List.filter is_rel (b_para b))) bs)
   + length (List.filter is_rel last) + length bs)%nat.

(** A block after the inline rule: the links of its paragraph are flat. *)
Definition flat_block (b : block) : block :=
  Block (List.map flatten (b_para b)) (b_sep b) (b_def b).

(** Two texts that are equal, or equal up to an opening bracket. *)
Definition same_head (s s' : str) : Prop :=
  s = s' \/ exists a r r', s = a ++ 91 :: r /\ s' = a ++ 91 :: r'.

(** [s'] begins with an opening bracket or as [s] begins, if it begins. *)
Definition head_kept (s s' : str) : Prop :=
  match s' with
  | [] => True
  | c :: _ => c = 91 \/ exists r, s = c :: r
  end.

(** * Properties of the matcher *)

Section Matcher.

Lemma orelse_none_r {A} (x : option A) : orelse x None = x.
Proof. destruct x; reflexivity. Qed.

Lemma rmatch_Seq a b st k :
  rmatch (Seq a b) st k = rmatch a st (fun st' => rmatch b st' k).
Proof. reflexivity. Qed.

Lemma rmatch_Alt a b st k :
  rmatch (Alt a b) st k = orelse (rmatch a st k) (rmatch b st k).
Proof. reflexivity. Qed.

Lemma rmatch_Group i a st k :
  rmatch (Group i a) st k = rmatch a st (fun st' => k (close_group i st st')).
Proof. reflexivity. Qed.

Lemma rmatch_Chr_cons cl p c s g k :
  rmatch (Chr cl) (MState p (c :: s) g) k =
  if accepts cl c then k (MState (Some c) s g) else None.
Proof. reflexivity. Qed.

Lemma rmatch_Chr_nil cl p g k : rmatch (Chr cl) (MState p [] g) k = None.
Proof. reflexivity. Qed.

Lemma rmatch_Eps st k : rmatch Eps st k = k st.
Proof. reflexivity. Qed.

Lemma rmatch_Bol st k : rmatch Bol st k = if at_bol st then k st else None.
Proof. reflexivity. Qed.

Lemma rmatch_Eol st k : rmatch Eol st k = if at_eol st then k st else None.
Proof. reflexivity. Qed.

(** The matcher uses its continuation only through its values. *)
Lemma star_loop_ext body g k1 k2 :
  (forall st j1 j2, (forall s, j1 s = j2 s) -> body st j1 = body st j2) ->
  (forall s, k1 s = k2 s) ->
  forall n st, star_loop body g k1 n st = star_loop body g k2 n st.
Proof.
  intros Hb Hk n; induction n as [|n IH]; intros st; simpl.
  - apply Hk.
  - rewrite (Hk st).
    rewrite (Hb st _ (fun st' =>
      if shorter st' st then star_loop body g k2 n st' else None)).
    + reflexivity.
    + intros s; destruct (shorter s st); [apply IH | reflexivity].
Qed.

Lemma rmatch_ext r :
  forall st k1 k2, (forall s, k1 s = k2 s) -> rmatch r st k1 = rmatch r st k2.
Proof.
  induction r as [|cl|a IHa b IHb|a IHa b IHb|g a IHa|i a IHa| |];
    intros st k1 k2 H; simpl.
  - apply H.
  - destruct (rest st) as [|c s]; [reflexivity|].
    destruct (accepts cl c); [apply H | reflexivity].
  - apply IHa; intros s; apply IHb, H.
  - rewrite (IHa st k1 k2 H), (IHb st k1 k2 H); reflexivity.
  - apply star_loop_ext; [exact IHa | exact H].
  - apply IHa; intros s; apply H.
  - destruct (at_bol st); [apply H | reflexivity].
  - destruct (at_eol st); [apply H | reflexivity].
Qed.

(** A continuation that always fails makes the match fail. *)
Lemma star_loop_none body g :
  (forall st, body st (fun _ => None) = None) ->
  (forall st j1 j2, (forall s, j1 s = j2 s) -> body st j1 = body st j2) ->
  forall n st, star_loop body g (fun _ => None) n st = None.
Proof.
  intros Hn Hb n; induction n as [|n IH]; intros st; simpl; [reflexivity|].
  rewrite (Hb st _ (fun _ => None)).
  - rewrite Hn; destruct g; reflexivity.
  - intros s; destruct (shorter s st); [apply IH | reflexivity].
Qed.

Lemma rmatch_none r : forall st, rmatch r st (fun _ => None) = None.
Proof.
  induction r as [|cl|a IHa b IHb|a IHa b IHb|g a IHa|i a IHa| |];
    intros st; simpl; try reflexivity.
  - destruct (rest st) as [|c s]; [reflexivity|].
    destruct (accepts cl c); reflexivity.
  - rewrite (rmatch_ext a st _ (fun _ => None)); [apply IHa | intros; apply IHb].
  - rewrite IHa, IHb; reflexivity.
  - apply star_loop_none; [exact IHa | intros; apply rmatch_ext; assumption].
  - apply IHa.
  - destruct (at_bol st); reflexivity.
  - destruct (at_eol st); reflexivity.
Qed.

(** The bound of a repetition does not show: any bound that covers the
    text left gives the same result. *)
Lemma star_loop_fuel a g k :
  forall n m st,
    (length (rest st) <= n)%nat -> (length (rest st) <= m)%nat ->
    star_loop (rmatch a) g k n st = star_loop (rmatch a) g k m st.
Proof.
  assert (Hz : forall st m, length (rest st) = O ->
            star_loop (rmatch a) g k m st = k st).
  { intros st [|m] H0; simpl; [reflexivity|].
    rewrite (rmatch_ext a st _ (fun _ => None)).
    - rewrite rmatch_none. destruct g; [reflexivity | apply orelse_none_r].
    - intros s; unfold shorter; rewrite H0.
      destruct (Nat.ltb_spec (length (rest s)) 0); [lia | reflexivity]. }
  induction n as [|n IH]; intros m st Hn Hm.
  - rewrite (Hz st m); [reflexivity | lia].
  - destruct m as [|m].
    + rewrite (Hz st (S n)); [reflexivity | lia].
    + simpl.
      rewrite (rmatch_ext a st _ (fun st' =>
        if shorter st' st then star_loop (rmatch a) g k m st' else None)).
      * reflexivity.
      * intros s; unfold shorter.
        destruct (Nat.ltb_spec (length (rest s)) (length (rest st)));
          [apply IH; lia | reflexivity].
Qed.

(** One unfolding of a repetition, without the bound. *)
Lemma rmatch_Star g a st k :
  rmatch (Star g a) st k =
  let again := rmatch a st (fun st' =>
                 if shorter st' st then rmatch (Star g a) st' k else None) in
  if g then orelse again (k st) else orelse (k st) again.
Proof.
  change (rmatch (Star g a) st k)
    with (star_loop (rmatch a) g k (length (rest st)) st).
  rewrite (star_loop_fuel a g k _ (S (length (rest st))) st); [|lia|lia].
  simpl.
  rewrite (rmatch_ext a st _ (fun st' =>
    if shorter st' st then rmatch (Star g a) st' k else None)).
  - reflexivity.
  - intros s; unfold shorter.
    destruct (Nat.ltb_spec (length (rest s)) (length (rest st)));
      [|reflexivity].
    simpl. apply star_loop_fuel; lia.
Qed.

End Matcher.

(** ** The groups of a match *)

Section Groups.

Lemma keeps_refl st : keeps_groups [] st st.
Proof. intros i [[] | H]. exact H. Qed.

Lemma keeps_trans l1 l2 a b c :
  keeps_groups l1 a b -> keeps_groups l2 b c -> keeps_groups (l1 ++ l2) a c.
Proof.
  intros H1 H2 i [Hi | Hi].
  - apply in_app_or in Hi as [Hi | Hi].
    + apply H2. right. apply H1. left. exact Hi.
    + apply H2. left. exact Hi.
  - apply H2. right. apply H1. right. exact Hi.
Qed.

Lemma star_loop_groups body g k :
  (forall st j m, body st j = Some m ->
     exists st', j st' = Some m /\ keeps_groups [] st st') ->
  forall n st m,
    star_loop body g k n st = Some m ->
    exists st', k st' = Some m /\ keeps_groups [] st st'.
Proof.
  intros Hb n; induction n as [|n IH]; intros st m H; simpl in H.
  - exists st. split; [exact H | apply keeps_refl].
  - assert (Hagain : forall x,
      body st (fun st' =>
        if shorter st' st then star_loop body g k n st' else None) = Some x ->
      exists st', k st' = Some x /\ keeps_groups [] st st').
    { intros x Hx. apply Hb in Hx as (st1 & H1 & K1).
      destruct (shorter st1 st); [|discriminate].
      apply IH in H1 as (st2 & H2 & K2).
      exists st2. split; [exact H2|].
      apply (keeps_trans [] [] st st1 st2 K1 K2). }
    assert (Hnow : forall x, k st = Some x ->
      exists st', k st' = Some x /\ keeps_groups [] st st').
    { intros x Hx. exists st. split; [exact Hx | apply keeps_refl]. }
    destruct g; unfold orelse in H.
    + destruct (body st _) eqn:E; [injection H as <-; apply Hagain; reflexivity|].
      apply Hnow, H.
    + destruct (k st) eqn:E; [injection H as <-; apply Hnow; reflexivity|].
      apply Hagain, H.
Qed.

(** A match goes through its continuation, with the participating groups
    of the pattern set. *)
Lemma rmatch_groups r : forall st k m,
  rmatch r st k = Some m ->
  exists st', k st' = Some m /\ keeps_groups (participating r) st st'.
Proof.
  induction r as [|cl|a IHa b IHb|a IHa b IHb|g a IHa|i a IHa| |];
    intros st k m H; simpl in H; cbn [participating].
  - exists st. split; [exact H | apply keeps_refl].
  - destruct (rest st) as [|c s]; [discriminate|].
    destruct (accepts cl c); [|discriminate].
    exists (step c s st). split; [exact H|]. intros j [[] | Hj]. exact Hj.
  - apply IHa in H as (st1 & H1 & K1). apply IHb in H1 as (st2 & H2 & K2).
    exists st2. split; [exact H2 | apply (keeps_trans _ _ st st1 st2 K1 K2)].
  - unfold orelse in H. destruct (rmatch a st k) eqn:E.
    + injection H as <-. apply IHa in E as (st1 & H1 & K1).
      exists st1. split; [exact H1|]. intros j [[] | Hj]. apply K1. right. exact Hj.
    + apply IHb in H as (st1 & H1 & K1).
      exists st1. split; [exact H1|]. intros j [[] | Hj]. apply K1. right. exact Hj.
  - apply (star_loop_groups (rmatch a) g k) in H; [exact H|].
    intros st0 j x Hx. apply IHa in Hx as (st1 & H1 & K1).
    exists st1. split; [exact H1|]. intros q [[] | Hq]. apply K1. right. exact Hq.
  - apply IHa in H as (st1 & H1 & K1).
    exists (close_group i st st1). split; [exact H1|].
    intros j Hj. unfold group, close_group. cbn [caps group_in].
    destruct (Nat.eqb j i) eqn:E; [discriminate|].
    apply K1. destruct Hj as [[Hj | Hj] | Hj].
    + subst j. rewrite Nat.eqb_refl in E. discriminate.
    + left. exact Hj.
    + right. exact Hj.
  - destruct (at_bol st); [|discriminate].
    exists st. split; [exact H | apply keeps_refl].
  - destruct (at_eol st); [|discriminate].
    exists st. split; [exact H | apply keeps_refl].
Qed.

(** The label and the path, which the two callbacks read without a
    default, take part in every match of the two patterns. *)
Lemma groups_of_match re p s m :
  re = LINK_INLINE_RE \/ re = REF_LINK_RE ->
  match_at re p s = Some m -> group 1 m <> None /\ group 2 m <> None.
Proof.
  intros Hre H. unfold match_at in H.
  apply rmatch_groups in H as (st' & E & K). injection E as <-.
  split; apply K; left; destruct Hre as [-> | ->]; vm_compute; tauto.
Qed.

End Groups.

Arguments rmatch : simpl never.

(** Read one character that the class is known to accept, by evaluation. *)
Ltac chr_eval :=
  rewrite rmatch_Chr_cons;
  match goal with
  | |- context [accepts ?cl ?c] =>
      let b := eval vm_compute in (accepts cl c) in
      change (accepts cl c) with b
  end; cbv iota.

(** ** Runs of one character class *)

Section Runs.

Lemma shorter_cons p c s g p' g' :
  shorter (MState p' s g') (MState p (c :: s) g) = true.
Proof. unfold shorter; simpl. apply Nat.ltb_lt; lia. Qed.

Lemma between_app p a b g p' g' :
  between (MState p (a ++ b) g) (MState p' b g') = a.
Proof.
  unfold between; simpl. rewrite length_app.
  replace (length a + length b - length b)%nat with (length a) by lia.
  rewrite firstn_app, firstn_all, Nat.sub_diag. simpl. apply app_nil_r.
Qed.

Lemma close_group_app i p a b g p' g' :
  close_group i (MState p (a ++ b) g) (MState p' b g') =
  MState p' b ((i, a) :: g').
Proof. unfold close_group; rewrite between_app; reflexivity. Qed.

Lemma star_stop cl gr p b g k :
  stops cl b ->
  rmatch (Star gr (Chr cl)) (MState p b g) k = k (MState p b g).
Proof.
  intros Hb. rewrite rmatch_Star; cbv zeta.
  destruct b as [|c b]; simpl in Hb.
  - rewrite rmatch_Chr_nil. destruct gr; [reflexivity | apply orelse_none_r].
  - rewrite rmatch_Chr_cons, Hb. destruct gr; [reflexivity | apply orelse_none_r].
Qed.

Lemma star_step cl gr p c s g k :
  accepts cl c = true ->
  rmatch (Star gr (Chr cl)) (MState p (c :: s) g) k =
  let again := rmatch (Star gr (Chr cl)) (MState (Some c) s g) k in
  let now := k (MState p (c :: s) g) in
  if gr then orelse again now else orelse now again.
Proof.
  intros Hc. rewrite rmatch_Star; cbv zeta.
  rewrite rmatch_Chr_cons, Hc, shorter_cons. reflexivity.
Qed.

(** A greedy run reads the whole run when the continuation accepts there. *)
Lemma star_greedy_take cl a : forall p b g k r,
  forallb (accepts cl) a = true -> stops cl b ->
  k (MState (prev_after p a) b g) = Some r ->
  rmatch (Star true (Chr cl)) (MState p (a ++ b) g) k = Some r.
Proof.
  induction a as [|c a IH]; intros p b g k r Ha Hb Hk; simpl in *.
  - rewrite star_stop by assumption. exact Hk.
  - apply andb_true_iff in Ha as [Hc Ha].
    rewrite star_step by assumption; cbv zeta.
    rewrite (IH (Some c) b g k r); auto.
Qed.

(** A greedy run fails when the continuation refuses every position of
    the run, its end included. *)
Lemma star_greedy_none cl a : forall p b g k,
  forallb (accepts cl) a = true -> stops cl b ->
  (forall a1 c a2 p', a = a1 ++ c :: a2 ->
     k (MState p' (c :: a2 ++ b) g) = None) ->
  (forall p', k (MState p' b g) = None) ->
  rmatch (Star true (Chr cl)) (MState p (a ++ b) g) k = None.
Proof.
  induction a as [|c a IH]; intros p b g k Ha Hb Hin Hend; simpl in *.
  - rewrite star_stop by assumption. apply Hend.
  - apply andb_true_iff in Ha as [Hc Ha].
    rewrite star_step by assumption; cbv zeta.
    rewrite IH; try assumption.
    + simpl. apply (Hin [] c a p eq_refl).
    + intros a1 d a2 p' E. apply (Hin (c :: a1) d a2 p'). rewrite E; reflexivity.
Qed.

(** A greedy run gives back what it read after the last position the
    continuation accepts. *)
Lemma star_greedy_back cl a1 : forall q s p g k r,
  forallb (accepts cl) a1 = true -> accepts cl q = true ->
  rmatch (Star true (Chr cl)) (MState (Some q) s g) k = None ->
  k (MState (prev_after p a1) (q :: s) g) = Some r ->
  rmatch (Star true (Chr cl)) (MState p (a1 ++ q :: s) g) k = Some r.
Proof.
  induction a1 as [|c a1 IH]; intros q s p g k r Ha Hq Hnone Hk; simpl in *.
  - rewrite star_step by assumption; cbv zeta. rewrite Hnone. exact Hk.
  - apply andb_true_iff in Ha as [Hc Ha].
    rewrite star_step by assumption; cbv zeta.
    rewrite (IH q s (Some c) g k r); auto.
Qed.

(** Every text splits into its longest run of a class and the rest. *)
Lemma span_exists cl s :
  exists a b, s = a ++ b /\ forallb (accepts cl) a = true /\ stops cl b.
Proof.
  induction s as [|c s (a & b & E & Ha & Hb)].
  - exists [], []. repeat split.
  - destruct (accepts cl c) eqn:Hc.
    + exists (c :: a), b. subst. simpl. rewrite Hc, Ha. repeat split. exact Hb.
    + exists [], (c :: s). repeat split. exact Hc.
Qed.

(** A lazy run stops at the first position the continuation accepts. *)
Lemma star_lazy_take cl a : forall p b g k r,
  forallb (accepts cl) a = true ->
  (forall a1 c a2, a = a1 ++ c :: a2 ->
     k (MState (prev_after p a1) (c :: a2 ++ b) g) = None) ->
  k (MState (prev_after p a) b g) = Some r ->
  rmatch (Star false (Chr cl)) (MState p (a ++ b) g) k = Some r.
Proof.
  induction a as [|c a IH]; intros p b g k r Ha Hin Hk; simpl in *.
  - rewrite rmatch_Star; cbv zeta. rewrite Hk. reflexivity.
  - apply andb_true_iff in Ha as [Hc Ha].
    rewrite star_step by assumption; cbv zeta.
    pose proof (Hin [] c a eq_refl) as H0. simpl in H0. rewrite H0. simpl.
    apply IH; auto.
    intros a1 d a2 E. apply (Hin (c :: a1) d a2). rewrite E; reflexivity.
Qed.

Lemma rmatch_Str l : forall p s g k,
  rmatch (Str l) (MState p (l ++ s) g) k = k (MState (prev_after p l) s g).
Proof.
  induction l as [|c l IH]; intros p s g k; simpl; [reflexivity|].
  rewrite rmatch_Seq, rmatch_Chr_cons. simpl. rewrite N.eqb_refl. apply IH.
Qed.

Lemma rmatch_Str_miss l : forall p s g k,
  starts_with l s = false -> rmatch (Str l) (MState p s g) k = None.
Proof.
  induction l as [|c l IH]; intros p s g k H; simpl in *; [discriminate|].
  rewrite rmatch_Seq.
  destruct s as [|d s]; [reflexivity|].
  rewrite rmatch_Chr_cons. simpl.
  destruct (d =? c); simpl in *; [|reflexivity].
  apply IH, H.
Qed.

Lemma prev_after_app p a b :
  prev_after p (a ++ b) = prev_after (prev_after p a) b.
Proof. unfold prev_after. apply fold_left_app. Qed.

Lemma forallb_mid {A} (f : A -> bool) a1 c a2 :
  forallb f (a1 ++ c :: a2) = true -> f c = true /\ forallb f a2 = true.
Proof.
  rewrite forallb_app; simpl. intros H.
  apply andb_true_iff in H as [_ H]. apply andb_true_iff in H. exact H.
Qed.

End Runs.

(** ** The relative prefix *)

Section Prefix.

Lemma rel_body_seg sg p s g k :
  rmatch rel_body (MState p (seg_text sg ++ s) g) k = k (MState (Some 47) s g).
Proof.
  unfold rel_body. rewrite rmatch_Alt. destruct sg.
  - rewrite (rmatch_Str (lit "../")). apply orelse_none_r.
  - rewrite (rmatch_Str_miss (lit "../")) by reflexivity.
    rewrite (rmatch_Str (lit "./")). reflexivity.
Qed.

Lemma rel_body_miss p s g k :
  no_rel_head s = true -> rmatch rel_body (MState p s g) k = None.
Proof.
  unfold no_rel_head, rel_body. intros H.
  apply andb_true_iff in H as [H1 H2].
  apply negb_true_iff in H1, H2.
  rewrite rmatch_Alt, !rmatch_Str_miss by assumption. reflexivity.
Qed.

Lemma prev_after_seg p sg : prev_after p (seg_text sg) = Some 47.
Proof. destruct sg; reflexivity. Qed.

Lemma prev_after_rel p segs :
  segs <> [] -> prev_after p (rel_path segs) = Some 47.
Proof.
  induction segs as [|sg segs IH] in p |- *; intros H; [congruence|].
  change (rel_path (sg :: segs)) with (seg_text sg ++ rel_path segs).
  rewrite prev_after_app, prev_after_seg.
  destruct segs as [|sg' segs]; [reflexivity|]. apply IH; congruence.
Qed.

Lemma shorter_seg sg p s g p' g' :
  shorter (MState p' s g') (MState p (seg_text sg ++ s) g) = true.
Proof.
  unfold shorter; simpl. rewrite length_app. apply Nat.ltb_lt.
  destruct sg; simpl; lia.
Qed.

(** The greedy repetition reads every segment when the continuation
    accepts after the last one. *)
Lemma rel_star_take segs : forall p s g k r,
  no_rel_head s = true ->
  k (MState (prev_after p (rel_path segs)) s g) = Some r ->
  rmatch (Star true rel_body) (MState p (rel_path segs ++ s) g) k = Some r.
Proof.
  induction segs as [|sg segs IH]; intros p s g k r Hs Hk.
  - simpl. rewrite rmatch_Star; cbv zeta.
    rewrite rel_body_miss by assumption. apply Hk.
  - change (rel_path (sg :: segs) ++ s)
      with ((seg_text sg ++ rel_path segs) ++ s).
    rewrite <- app_assoc. rewrite rmatch_Star; cbv zeta.
    rewrite rel_body_seg, shorter_seg.
    rewrite (IH (Some 47) s g k r); auto.
    rewrite <- Hk.
    change (rel_path (sg :: segs)) with (seg_text sg ++ rel_path segs).
    rewrite prev_after_app, prev_after_seg. reflexivity.
Qed.

Lemma rel_prefix_take segs p s g k r :
  segs <> [] -> no_rel_head s = true ->
  k (MState (Some 47) s g) = Some r ->
  rmatch rel_prefix (MState p (rel_path segs ++ s) g) k = Some r.
Proof.
  intros Hne Hs Hk. destruct segs as [|sg segs]; [congruence|].
  change (rel_path (sg :: segs) ++ s)
    with ((seg_text sg ++ rel_path segs) ++ s).
  rewrite <- app_assoc.
  change rel_prefix with (Seq rel_body (Star true rel_body)).
  rewrite rmatch_Seq, rel_body_seg. apply rel_star_take; [assumption|].
  destruct segs as [|sg' segs]; [exact Hk|].
  rewrite prev_after_rel by congruence. exact Hk.
Qed.

Lemma rel_prefix_miss p s g k :
  no_rel_head s = true -> rmatch rel_prefix (MState p s g) k = None.
Proof.
  intros H. change rel_prefix with (Seq rel_body (Star true rel_body)).
  rewrite rmatch_Seq. apply rel_body_miss, H.
Qed.

End Prefix.

(** ** Trimmed text *)

Section Trim.

Lemma lstrip_length s : (length (lstrip s) <= length s)%nat.
Proof.
  induction s as [|c s IH]; simpl; [lia|].
  destruct (is_space c); simpl; lia.
Qed.

Lemma lstrip_fixed s : s <> [] -> lstrip s = s -> head_nonspace s = true.
Proof.
  destruct s as [|c s]; [congruence|]. intros _ H. simpl in *.
  destruct (is_space c); [|reflexivity].
  pose proof (lstrip_length s) as Hl. rewrite H in Hl. simpl in Hl. lia.
Qed.

Lemma lstrip_head s : head_nonspace s = true -> lstrip s = s.
Proof.
  destruct s as [|c s]; simpl; [discriminate|].
  destruct (is_space c); [discriminate | reflexivity].
Qed.

Lemma strip_fixed s :
  s <> [] -> strip s = s -> head_nonspace s = true /\ ends_nonspace s = true.
Proof.
  intros Hne H. unfold strip, rstrip in H.
  assert (Hl : lstrip s = s).
  { destruct s as [|c s]; [congruence|]. simpl in *.
    destruct (is_space c) eqn:E; [|reflexivity].
    apply (f_equal (@length N)) in H. rewrite length_rev in H.
    pose proof (lstrip_length (rev (lstrip s))) as H1.
    pose proof (lstrip_length s) as H2.
    rewrite length_rev in H1. simpl in H. lia. }
  rewrite Hl in H. split; [apply lstrip_fixed; assumption|].
  unfold ends_nonspace. apply lstrip_fixed.
  - intros E. apply Hne. rewrite <- (rev_involutive s), E. reflexivity.
  - rewrite <- H at 2. rewrite rev_involutive. reflexivity.
Qed.

Lemma ends_nonspace_suffix a c b :
  ends_nonspace (a ++ c :: b) = ends_nonspace (c :: b).
Proof.
  unfold ends_nonspace. rewrite rev_app_distr. simpl.
  destruct (rev b); reflexivity.
Qed.

Lemma no_space_strip s : no_space s = true -> strip s = s.
Proof.
  intros H. destruct s as [|c s]; [reflexivity|].
  unfold strip, rstrip.
  assert (H1 : head_nonspace (c :: s) = true).
  { simpl in *. apply andb_true_iff in H as [H _]. exact H. }
  rewrite (lstrip_head _ H1).
  assert (H2 : head_nonspace (rev (c :: s)) = true).
  { destruct (rev (c :: s)) as [|d t] eqn:E.
    - apply (f_equal (@length N)) in E. rewrite length_rev in E. discriminate.
    - simpl. unfold no_space in H.
      apply (proj1 (forallb_forall _ _) H d).
      apply in_rev. rewrite E. left; reflexivity. }
  rewrite (lstrip_head _ H2). apply rev_involutive.
Qed.

Lemma forallb_imp {A} (f g : A -> bool) l :
  (forall x, f x = true -> g x = true) ->
  forallb f l = true -> forallb g l = true.
Proof.
  intros H. induction l as [|x l IH]; simpl; [reflexivity|].
  intros E. apply andb_true_iff in E as [E1 E2].
  rewrite (H x E1), (IH E2). reflexivity.
Qed.

Lemma forallb_both {A} (f g : A -> bool) l :
  forallb f l = true -> forallb g l = true ->
  forallb (fun x => f x && g x) l = true.
Proof.
  induction l as [|x l IH]; simpl; [reflexivity|].
  intros E F. apply andb_true_iff in E as [E1 E2].
  apply andb_true_iff in F as [F1 F2].
  rewrite E1, F1, (IH E2 F2). reflexivity.
Qed.

End Trim.

(** ** Whole-text and no-match substitution *)

Section Subn.

Variable re : regex.
Variable repl : mstate -> str.

Lemma subn_skip_all :
  (forall p, match_at re p [] = None) ->
  forall s p, subn_from re repl p s (length s) = ([], O).
Proof.
  intros Hnil s; induction s as [|c s IH]; intros p; simpl.
  - rewrite Hnil. reflexivity.
  - apply IH.
Qed.

(** A match at the start that reaches the end of the text is the only
    replacement. *)
Lemma subn_whole s m :
  s <> [] -> match_at re None s = Some m -> rest m = [] ->
  (forall p, match_at re p [] = None) ->
  subn re repl s = (repl m, 1%nat).
Proof.
  intros Hne Hm Hr Hnil. destruct s as [|c s]; [congruence|].
  unfold subn. cbn [subn_from]. rewrite Hm, Hr. cbn [length].
  rewrite Nat.sub_0_r. cbn [Nat.sub]. rewrite Nat.sub_0_r.
  rewrite subn_skip_all by assumption. rewrite app_nil_r. reflexivity.
Qed.

Lemma never_subn_from s : never re s -> forall p, subn_from re repl p s O = (s, O).
Proof.
  induction s as [|c s IH]; intros H p; cbn [subn_from].
  - rewrite (H p [] [] eq_refl). reflexivity.
  - rewrite (H p [] (c :: s) eq_refl). rewrite IH; [reflexivity|].
    intros q a b E. apply (H q (c :: a) b). rewrite E; reflexivity.
Qed.

Lemma never_subn s : never re s -> subn re repl s = (s, O).
Proof. intros H. apply never_subn_from, H. Qed.

Lemma subn_from_skip a : forall R p,
  subn_from re repl p (a ++ R) (length a) =
  subn_from re repl (prev_after p a) R O.
Proof.
  induction a as [|c a IH]; intros R p; [reflexivity|].
  cbn [app length subn_from]. apply IH.
Qed.

(** A part of the text from which no attempt succeeds is copied. *)
Lemma subn_from_pass a : forall R p,
  inner_suffixes (fun y => forall q, match_at re q y = None) a R ->
  subn_from re repl p (a ++ R) O =
  (a ++ fst (subn_from re repl (prev_after p a) R O),
   snd (subn_from re repl (prev_after p a) R O)).
Proof.
  induction a as [|c a IH]; intros R p H.
  - cbn [app prev_after fold_left].
    destruct (subn_from re repl p R O); reflexivity.
  - cbn [app subn_from]. rewrite (H [] c a eq_refl p).
    rewrite IH.
    + reflexivity.
    + intros a1 d a2 E. apply (H (c :: a1) d a2). rewrite E. reflexivity.
Qed.

(** A match at the start of the text is replaced, and the scan goes on
    after it. *)
Lemma subn_from_hit a R p m :
  a <> [] -> match_at re p (a ++ R) = Some m -> rest m = R ->
  subn_from re repl p (a ++ R) O =
  (repl m ++ fst (subn_from re repl (prev_after p a) R O),
   S (snd (subn_from re repl (prev_after p a) R O))).
Proof.
  intros Hne Hm Hr. destruct a as [|c a]; [congruence|].
  cbn [app] in Hm. cbn [app subn_from]. rewrite Hm, Hr.
  replace (length (c :: a ++ R) - length R)%nat with (S (length a))
    by (cbn [length]; rewrite length_app; lia).
  cbn [Nat.sub]. rewrite Nat.sub_0_r, subn_from_skip.
  cbn [prev_after fold_left].
  destruct (subn_from re repl _ R O); reflexivity.
Qed.

End Subn.

(** ** The inline rule on one link *)

Section InlineRule.

Lemma group_plus_take i cl a b p g k r :
  a <> [] -> forallb (accepts cl) a = true -> stops cl b ->
  k (MState (prev_after p a) b ((i, a) :: g)) = Some r ->
  rmatch (Group i (Plus true (Chr cl))) (MState p (a ++ b) g) k = Some r.
Proof.
  intros Hne Ha Hb Hk. destruct a as [|c a]; [congruence|].
  simpl in Ha. apply andb_true_iff in Ha as [Hc Ha].
  rewrite rmatch_Group. unfold Plus. rewrite rmatch_Seq.
  change ((c :: a) ++ b) with (c :: a ++ b).
  rewrite rmatch_Chr_cons, Hc.
  apply star_greedy_take; [assumption | assumption |].
  change (c :: a ++ b) with ((c :: a) ++ b).
  rewrite close_group_app. exact Hk.
Qed.

Lemma no_char_neq c d s a1 a2 :
  no_char c s = true -> s = a1 ++ d :: a2 -> (d =? c) = false.
Proof.
  intros H E. subst. unfold no_char in H. apply forallb_mid in H as [H _].
  apply negb_true_iff in H. exact H.
Qed.

Lemma no_char_head c d s : no_char c (d :: s) = true -> (d =? c) = false.
Proof. intros H. apply (no_char_neq c d (d :: s) [] s H eq_refl). Qed.

Lemma no_char_tail c d s : no_char c (d :: s) = true -> no_char c s = true.
Proof. simpl. intros H. apply andb_true_iff in H as [_ H]. exact H. Qed.

Lemma accepts_notin2 c d s :
  no_char c s = true -> no_char d s = true ->
  forallb (accepts (NotIn [One c; One d])) s = true.
Proof.
  intros H1 H2.
  apply (forallb_imp (fun x => negb (x =? c) && negb (x =? d))).
  - intros x Hx. apply andb_true_iff in Hx as [E1 E2].
    apply negb_true_iff in E1, E2.
    unfold accepts, existsb, item_mem. rewrite E1, E2. reflexivity.
  - apply forallb_both; assumption.
Qed.

Lemma accepts_notin_sp c s :
  no_char c s = true -> no_space s = true ->
  forallb (accepts (NotIn [One c; Space])) s = true.
Proof.
  intros H1 H2.
  apply (forallb_imp (fun x => negb (x =? c) && negb (is_space x))).
  - intros x Hx. apply andb_true_iff in Hx as [E1 E2].
    apply negb_true_iff in E1, E2.
    unfold accepts, existsb, item_mem. rewrite E1, E2. reflexivity.
  - apply forallb_both; assumption.
Qed.

(** After the path: the optional anchor, blanks and the closing
    parenthesis. *)
Lemma inline_tail_take o R p g k r :
  inline_anchor_ok o ->
  k (MState (Some 41) R
       (match o with Some _ => (3%nat, anchor_text o) :: g | None => g end))
  = Some r ->
  rmatch inline_tail (MState p (anchor_text o ++ 41 :: R) g) k = Some r.
Proof.
  intros Ho Hk. unfold inline_tail, Opt. rewrite rmatch_Seq, rmatch_Alt.
  destruct o as [sec|]; unfold inline_anchor_ok, anchor_text in *; unlit.
  - destruct Ho as (Hne & Hp & Hs). destruct sec as [|c sec]; [congruence|].
    pose proof (accepts_notin_sp _ _ Hp Hs) as Hall.
    cbn [forallb] in Hall. apply andb_true_iff in Hall as [Hc Hall].
    rewrite rmatch_Group, rmatch_Seq.
    change ((35 :: c :: sec) ++ 41 :: R) with (35 :: c :: sec ++ 41 :: R).
    chr_eval. unfold Plus. rewrite rmatch_Seq, rmatch_Chr_cons, Hc.
    erewrite star_greedy_take; [reflexivity | exact Hall | reflexivity |].
    change (35 :: c :: sec ++ 41 :: R) with ((35 :: c :: sec) ++ 41 :: R).
    rewrite close_group_app.
    rewrite rmatch_Seq. unfold ws_star. rewrite star_stop by reflexivity.
    chr_eval. exact Hk.
  - change ([] ++ 41 :: R) with (41 :: R).
    rewrite rmatch_Group, rmatch_Seq. chr_eval. cbn [orelse].
    unfold rmatch at 1. rewrite rmatch_Seq. unfold ws_star.
    rewrite star_stop by reflexivity. chr_eval. exact Hk.
Qed.

(** Inside the path the tail cannot match: no [#], and blanks are
    followed by more of the path, never by the parenthesis. *)
Lemma inline_tail_fail x : forall R p g k,
  x <> [] -> no_char 41 x = true -> no_char 35 x = true ->
  ends_nonspace x = true ->
  rmatch inline_tail (MState p (x ++ R) g) k = None.
Proof.
  intros R p g k Hne Hp Hh He.
  unfold inline_tail, Opt. rewrite rmatch_Seq, rmatch_Alt.
  destruct x as [|c x]; [congruence|].
  rewrite rmatch_Group, rmatch_Seq.
  change ((c :: x) ++ R) with (c :: x ++ R).
  rewrite rmatch_Chr_cons. cbn [accepts].
  rewrite (no_char_head _ _ _ Hh). cbn [orelse].
  unfold rmatch at 1. rewrite rmatch_Seq. unfold ws_star.
  clear Hne Hh. revert p c Hp He.
  induction x as [|d x IH]; intros p c Hp He.
  - unfold ends_nonspace in He. simpl in He. apply negb_true_iff in He.
    rewrite star_stop by exact He.
    rewrite rmatch_Chr_cons. cbn [accepts].
    rewrite (no_char_head _ _ _ Hp). reflexivity.
  - assert (Hnow : rmatch (Chr (Char 41))
                     (MState p (c :: (d :: x) ++ R) g) k = None).
    { rewrite rmatch_Chr_cons. cbn [accepts].
      rewrite (no_char_head _ _ _ Hp). reflexivity. }
    destruct (is_space c) eqn:Ec.
    + rewrite star_step by exact Ec. cbv zeta.
      change ((d :: x) ++ R) with (d :: x ++ R).
      rewrite (IH (Some c) d).
      * cbn [orelse]. exact Hnow.
      * apply (no_char_tail _ _ _ Hp).
      * rewrite <- He. symmetry. apply (ends_nonspace_suffix [c] d x).
    + rewrite star_stop by exact Ec. exact Hnow.
Qed.

End InlineRule.

Section InlineLink.

(** What follows a path (an anchor, a parenthesis, a blank) cannot
    complete a segment. *)
Lemma no_rel_head_app X R :
  X <> [] -> no_rel_head X = true ->
  match R with
  | [] => True
  | c :: _ => (c =? 46) = false /\ (c =? 47) = false
  end ->
  no_rel_head (X ++ R) = true.
Proof.
  intros Hne H HR. unfold no_rel_head in *. unlit.
  destruct X as [|a [|b [|c X]]]; [congruence| | |exact H];
    destruct R as [|d R]; try exact H; destruct HR as [H1 H2];
    cbn [app starts_with] in *; rewrite ?H1, ?H2;
    destruct (a =? 46); try destruct (b =? 46); try destruct (b =? 47);
    try reflexivity; try discriminate.
Qed.

Lemma rel_path_head segs s :
  segs <> [] -> exists t, rel_path segs ++ s = 46 :: t.
Proof.
  destruct segs as [|sg segs]; [congruence|]. intros _.
  destruct sg; eexists; reflexivity.
Qed.

Lemma anchor_head o R :
  match anchor_text o ++ 41 :: R with
  | [] => True
  | c :: _ => (c =? 46) = false /\ (c =? 47) = false
  end.
Proof. destruct o; split; reflexivity. Qed.

(** The pattern matches a link [[L](segments X anchor)] at the start of
    a text and stops after it, with the label, the path and the anchor in
    its three groups. *)
Lemma inline_match_link L segs X o R p :
  label_ok L -> segs <> [] -> inline_path_ok X -> inline_anchor_ok o ->
  match_at LINK_INLINE_RE p
    (inline_link L (rel_path segs ++ X ++ anchor_text o) ++ R) =
  Some (MState (Some 41) R (inline_caps L X o)).
Proof.
  intros [HL1 HL2] Hsegs (HX1 & HX2 & HX3 & HX4 & HX5) Ho.
  destruct (strip_fixed X HX1 HX2) as [Hhead Hend].
  unfold match_at, LINK_INLINE_RE, inline_link. unlit.
  rewrite <- !app_assoc. cbn [app].
  rewrite rmatch_Seq. chr_eval. rewrite rmatch_Seq.
  apply group_plus_take; [exact HL1 | | reflexivity |].
  { revert HL2. apply forallb_imp. intros x Hx.
    apply negb_true_iff in Hx. unfold accepts, existsb, item_mem.
    rewrite Hx. reflexivity. }
  rewrite rmatch_Seq. chr_eval. rewrite rmatch_Seq. chr_eval.
  rewrite rmatch_Seq. unfold ws_star at 1.
  rewrite star_stop.
  2:{ destruct (rel_path_head segs (X ++ anchor_text o ++ 41 :: R) Hsegs)
        as [t Et].
      rewrite Et. reflexivity. }
  rewrite rmatch_Seq.
  apply rel_prefix_take; [exact Hsegs | |].
  { apply no_rel_head_app; [exact HX1 | exact HX5 | apply anchor_head]. }
  rewrite rmatch_Seq. unfold ws_star at 1.
  destruct X as [|c X]; [congruence|].
  cbn [head_nonspace] in Hhead. apply negb_true_iff in Hhead.
  change ((c :: X) ++ anchor_text o ++ 41 :: R)
    with (c :: X ++ anchor_text o ++ 41 :: R).
  rewrite star_stop by exact Hhead.
  rewrite rmatch_Seq, rmatch_Group, rmatch_Seq, rmatch_Chr_cons.
  pose proof (no_char_head _ _ _ HX3) as Hc1.
  pose proof (no_char_head _ _ _ HX4) as Hc2.
  unfold accepts at 1, existsb, item_mem. rewrite Hc1, Hc2, Hhead.
  cbn [orb negb].
  apply star_lazy_take.
  - apply accepts_notin2; [apply (no_char_tail _ _ _ HX3)
                          | apply (no_char_tail _ _ _ HX4)].
  - intros a1 d a2 E. cbn [close_group prev rest caps].
    change (d :: a2 ++ anchor_text o ++ 41 :: R)
      with ((d :: a2) ++ anchor_text o ++ 41 :: R).
    apply (inline_tail_fail (d :: a2)); [congruence | | |].
    + pose proof (no_char_tail _ _ _ HX3) as H. unfold no_char in *.
      rewrite E in H. rewrite forallb_app in H.
      apply andb_true_iff in H as [_ H]. exact H.
    + pose proof (no_char_tail _ _ _ HX4) as H. unfold no_char in *.
      rewrite E in H. rewrite forallb_app in H.
      apply andb_true_iff in H as [_ H]. exact H.
    + rewrite <- Hend, E. symmetry.
      apply (ends_nonspace_suffix (c :: a1) d a2).
  - change (c :: X ++ anchor_text o ++ 41 :: R)
      with ((c :: X) ++ anchor_text o ++ 41 :: R).
    rewrite close_group_app.
    apply inline_tail_take; [exact Ho|].
    destruct o; reflexivity.
Qed.

Lemma inline_nil p : match_at LINK_INLINE_RE p [] = None.
Proof. reflexivity. Qed.

(** What the callback writes for such a match. *)
Lemma inline_repl_link L X o p R :
  strip X = X ->
  _replace_inline_match (MState p R (inline_caps L X o)) =
  inline_link L (X ++ anchor_text o).
Proof.
  intros HX. unfold _replace_inline_match, group, inline_link.
  destruct o; cbn [caps inline_caps group_in Nat.eqb option_map fmt or_empty];
    rewrite HX, <- ?app_assoc; reflexivity.
Qed.

(** The inline rule on one link with a relative prefix. *)
Lemma inline_rule_link L segs X o :
  label_ok L -> segs <> [] -> inline_path_ok X -> inline_anchor_ok o ->
  inline_rule (inline_link L (rel_path segs ++ X ++ anchor_text o)) =
  (inline_link L (X ++ anchor_text o), 1%nat).
Proof.
  intros HL Hsegs HX Ho. unfold inline_rule.
  rewrite (subn_whole _ _ _ (MState (Some 41) [] (inline_caps L X o))).
  - f_equal. destruct HX as (_ & HX & _). apply inline_repl_link, HX.
  - unfold inline_link. unlit. discriminate.
  - rewrite <- (app_nil_r (inline_link _ _)).
    apply inline_match_link; assumption.
  - reflexivity.
  - apply inline_nil.
Qed.

End InlineLink.

(** ** The reference rule on one definition *)

Section RefEnd.

Lemma space_neq c d : is_space c = true -> is_space d = false -> (c =? d) = false.
Proof.
  intros H1 H2. destruct (N.eqb_spec c d); [subst; congruence | reflexivity].
Qed.

Lemma quote_accepts q : is_quote q = true -> accepts (OneOf [One 34; One 39]) q = true.
Proof.
  unfold is_quote. unlit. intros H. cbn [accepts existsb item_mem].
  rewrite orb_false_r. exact H.
Qed.

Lemma quote_not_space q : is_quote q = true -> is_space q = false.
Proof.
  unfold is_quote. unlit. intros H. apply orb_true_iff in H as [H | H];
    apply N.eqb_eq in H; subst; reflexivity.
Qed.

Lemma quote_not_nl q : is_quote q = true -> accepts Dot q = true.
Proof.
  unfold is_quote. unlit. intros H. apply orb_true_iff in H as [H | H];
    apply N.eqb_eq in H; subst; reflexivity.
Qed.

Lemma space_not_quote c :
  is_space c = true -> accepts (OneOf [One 34; One 39]) c = false.
Proof.
  intros H. cbn [accepts existsb item_mem].
  rewrite (space_neq c 34 H eq_refl), (space_neq c 39 H eq_refl). reflexivity.
Qed.

Lemma blank_take w p b g k r :
  blank w -> stops (Cat Space) b ->
  k (MState (prev_after p w) b g) = Some r ->
  rmatch ws_star (MState p (w ++ b) g) k = Some r.
Proof. intros. apply star_greedy_take; assumption. Qed.

Lemma eol_nil p g : rmatch Eol (MState p [] g) Some = Some (MState p [] g).
Proof. reflexivity. Qed.

(** A quote cannot be found in trailing blanks. *)
Lemma quote_in_blank_none W p g k :
  blank W ->
  rmatch (Star true (Chr Dot)) (MState p W g)
    (fun st => rmatch (Chr (OneOf [One 34; One 39])) st k) = None.
Proof.
  intros HW. destruct (span_exists Dot W) as (a & b & E & Ha & Hb). subst W.
  unfold blank in HW. rewrite forallb_app in HW.
  apply andb_true_iff in HW as [HWa HWb].
  apply star_greedy_none; [exact Ha | exact Hb | |].
  - intros a1 c a2 p' E. rewrite rmatch_Chr_cons.
    rewrite E in HWa. apply forallb_mid in HWa as [Hc _].
    rewrite (space_not_quote c Hc). reflexivity.
  - intros p'. destruct b as [|c b]; [reflexivity|].
    rewrite rmatch_Chr_cons. simpl in HWb.
    apply andb_true_iff in HWb as [Hc _].
    rewrite (space_not_quote c Hc). reflexivity.
Qed.

(** No title starts in trailing blanks. *)
Lemma title_in_blank_none W p g k :
  blank W -> rmatch title_re (MState p W g) k = None.
Proof.
  intros HW. unfold title_re, Plus. rewrite !rmatch_Seq.
  destruct W as [|c W]; [reflexivity|].
  unfold blank in HW. simpl in HW. apply andb_true_iff in HW as [Hc HW].
  rewrite rmatch_Chr_cons. cbn [accepts item_mem]. rewrite Hc.
  rewrite <- (app_nil_r W).
  apply star_greedy_none; [exact HW | exact I | |].
  - intros a1 d a2 p' E. rewrite rmatch_Seq, rmatch_Chr_cons.
    rewrite E in HW. apply forallb_mid in HW as [Hd _].
    rewrite (space_not_quote d Hd). reflexivity.
  - intros p'. rewrite rmatch_Seq. reflexivity.
Qed.

(** The end of a definition: an optional title and trailing blanks. *)
Lemma ref_end_take t W p g :
  title_ok t -> blank W ->
  rmatch ref_end (MState p (title_text t ++ W) g) Some =
  Some (MState (prev_after p (title_text t ++ W)) [] g).
Proof.
  intros Ht HW. unfold ref_end, Opt. rewrite rmatch_Seq, rmatch_Alt.
  assert (Hblank : forall q,
    rmatch (Seq ws_star Eol) (MState q W g) Some =
    Some (MState (prev_after q W) [] g)).
  { intros q. rewrite rmatch_Seq. rewrite <- (app_nil_r W) at 1.
    apply blank_take; [exact HW | exact I | reflexivity]. }
  destruct t as [[gap q1 T q2]|]; unfold title_ok, title_text in *;
    cbn [t_gap t_open t_text t_close] in *.
  - destruct Ht as (Hg1 & Hg2 & Hq1 & Hq2 & HT1 & HT2).
    destruct gap as [|w gap]; [congruence|].
    destruct T as [|t0 T]; [congruence|].
    unfold blank in Hg2. simpl in Hg2. apply andb_true_iff in Hg2 as [Hw Hg2].
    pose proof (no_char_head _ _ _ HT2) as Ht0.
    pose proof (no_char_tail _ _ _ HT2) as HT.
    assert (E : rmatch title_re
      (MState p (((w :: gap) ++ q1 :: (t0 :: T) ++ [q2]) ++ W) g)
      (fun st' => rmatch (Seq ws_star Eol) st' Some) =
      Some (MState (prev_after (Some q2) W) [] g)).
    { unfold title_re, Plus. rewrite <- app_assoc. cbn [app].
      rewrite !rmatch_Seq, rmatch_Chr_cons. cbn [accepts item_mem].
      rewrite Hw.
      apply star_greedy_take; [exact Hg2 | |].
      { cbn [stops accepts item_mem]. apply quote_not_space, Hq1. }
      rewrite rmatch_Seq, rmatch_Chr_cons, (quote_accepts q1 Hq1).
      rewrite !rmatch_Seq, rmatch_Chr_cons. cbn [accepts]. rewrite Ht0.
      cbn [negb]. rewrite <- app_assoc. cbn [app].
      apply star_greedy_back.
      - revert HT. apply forallb_imp. intros x Hx. exact Hx.
      - apply quote_not_nl, Hq2.
      - apply quote_in_blank_none, HW.
      - rewrite rmatch_Chr_cons, (quote_accepts q2 Hq2). apply Hblank. }
    rewrite E. cbn [orelse]. f_equal. f_equal.
    replace (((w :: gap) ++ q1 :: (t0 :: T) ++ [q2]) ++ W)
      with (((w :: gap) ++ q1 :: t0 :: T) ++ q2 :: W)
      by (rewrite <- !app_assoc; cbn [app]; rewrite <- app_assoc; reflexivity).
    rewrite prev_after_app. reflexivity.
  - cbn [app]. rewrite (title_in_blank_none W p g _ HW). cbn [orelse].
    rewrite rmatch_Eps. apply Hblank.
Qed.

End RefEnd.

Section RefLine.

(** What follows the path and the anchor begins with a blank, if anything. *)
Lemma end_head t W :
  title_ok t -> blank W ->
  match title_text t ++ W with
  | [] => True
  | c :: _ => is_space c = true
  end.
Proof.
  intros Ht HW. destruct t as [[gap q1 T q2]|]; simpl in *.
  - destruct Ht as (Hg1 & Hg2 & _). destruct gap as [|w gap]; [congruence|].
    unfold blank in Hg2. simpl in *. apply andb_true_iff in Hg2 as [H _]. exact H.
  - destruct W as [|c W]; [exact I|]. unfold blank in HW. simpl in HW.
    apply andb_true_iff in HW as [H _]. exact H.
Qed.

Lemma accepts_not_space s :
  no_space s = true -> forallb (accepts (NotIn [Space])) s = true.
Proof.
  apply forallb_imp. intros x Hx. apply negb_true_iff in Hx.
  cbn [accepts existsb item_mem]. rewrite Hx. reflexivity.
Qed.

Lemma ref_tail_take o t W p g :
  ref_anchor_ok o -> title_ok t -> blank W ->
  rmatch ref_tail (MState p (anchor_text o ++ title_text t ++ W) g) Some =
  Some (MState (prev_after p (anchor_text o ++ title_text t ++ W)) []
          (match o with Some _ => (3%nat, anchor_text o) :: g | None => g end)).
Proof.
  intros Ho Ht HW. pose proof (end_head t W Ht HW) as Hhead.
  unfold ref_tail, Opt. rewrite rmatch_Seq, rmatch_Alt.
  destruct o as [sec|]; unfold ref_anchor_ok, anchor_text in *; unlit.
  - destruct Ho as [Hne Hs]. destruct sec as [|c sec]; [congruence|].
    pose proof (accepts_not_space _ Hs) as Hall.
    cbn [forallb] in Hall. apply andb_true_iff in Hall as [Hc Hall].
    match goal with |- orelse ?x _ = Some ?r =>
      assert (E : x = Some r); [|rewrite E; reflexivity] end.
    rewrite rmatch_Group, rmatch_Seq. cbn [app]. chr_eval.
    unfold Plus. rewrite rmatch_Seq, rmatch_Chr_cons, Hc.
    apply star_greedy_take; [exact Hall | |].
    { destruct (title_text t ++ W) as [|d R]; [exact I|].
      cbn [stops accepts existsb item_mem]. rewrite Hhead. reflexivity. }
    change (35 :: c :: sec ++ title_text t ++ W)
      with ((35 :: c :: sec) ++ title_text t ++ W).
    rewrite close_group_app, ref_end_take by assumption.
    rewrite (prev_after_app p (35 :: c :: sec)). reflexivity.
  - cbn [app]. rewrite rmatch_Group, rmatch_Seq.
    assert (E : forall k, rmatch (Chr (Char 35))
                (MState p (title_text t ++ W) g) k = None).
    { intros k. destruct (title_text t ++ W) as [|d R]; [reflexivity|].
      rewrite rmatch_Chr_cons. cbn [accepts].
      rewrite (space_neq d 35 Hhead eq_refl). reflexivity. }
    rewrite E. cbn [orelse]. rewrite rmatch_Eps.
    apply ref_end_take; assumption.
Qed.

Lemma space_head_ok R :
  match R with [] => True | c :: _ => is_space c = true end ->
  match R with
  | [] => True
  | c :: _ => (c =? 46) = false /\ (c =? 47) = false
  end.
Proof.
  destruct R as [|c R]; [trivial|]. intros H.
  split; apply (space_neq c _ H); reflexivity.
Qed.

Lemma ref_after_head o t W :
  ref_anchor_ok o -> title_ok t -> blank W ->
  match anchor_text o ++ title_text t ++ W with
  | [] => True
  | c :: _ => (c =? 46) = false /\ (c =? 47) = false
  end /\ stops (NotIn [Space; One 35]) (anchor_text o ++ title_text t ++ W).
Proof.
  intros Ho Ht HW. pose proof (end_head t W Ht HW) as Hhead.
  destruct o as [sec|].
  - split; [split|]; reflexivity.
  - cbn [anchor_text app]. split; [apply space_head_ok, Hhead|].
    destruct (title_text t ++ W) as [|d R]; [exact I|].
    cbn [stops accepts existsb item_mem]. rewrite Hhead. reflexivity.
Qed.

(** The pattern matches a whole definition
    [W1 [L]: W2 segments X anchor title W3] from its start. *)
Lemma ref_match_line W1 L W2 segs X o t W3 :
  blank W1 -> label_ok L -> blank W2 -> segs <> [] ->
  ref_path_ok X -> ref_anchor_ok o -> title_ok t -> blank W3 ->
  exists pf,
    match_at REF_LINK_RE None
      (ref_line W1 L W2
         (rel_path segs ++ X ++ anchor_text o ++ title_text t ++ W3)) =
    Some (MState pf [] (inline_caps L X o)).
Proof.
  intros HW1 [HL1 HL2] HW2 Hsegs (HX1 & HX2 & HX3 & HX4) Ho Ht HW3.
  destruct (ref_after_head o t W3 Ho Ht HW3) as [Hhead Hstop].
  exists (prev_after (prev_after None X)
            (anchor_text o ++ title_text t ++ W3)).
  unfold match_at, REF_LINK_RE, ref_line. unlit. cbn [app].
  rewrite rmatch_Seq, rmatch_Bol. cbn [at_bol prev].
  rewrite rmatch_Seq. apply blank_take; [exact HW1 | reflexivity |].
  rewrite rmatch_Seq. chr_eval. rewrite rmatch_Seq.
  apply group_plus_take; [exact HL1 | | reflexivity |].
  { revert HL2. apply forallb_imp. intros x Hx.
    apply negb_true_iff in Hx. unfold accepts, existsb, item_mem.
    rewrite Hx. reflexivity. }
  rewrite rmatch_Seq. chr_eval. rewrite rmatch_Seq. chr_eval.
  rewrite rmatch_Seq. apply blank_take; [exact HW2 | |].
  { destruct (rel_path_head segs
               (X ++ anchor_text o ++ title_text t ++ W3) Hsegs) as [u Eu].
    rewrite Eu. reflexivity. }
  rewrite rmatch_Seq.
  apply rel_prefix_take; [exact Hsegs | |].
  { apply no_rel_head_app; assumption. }
  rewrite rmatch_Seq. unfold ws_star at 1.
  destruct X as [|c X]; [congruence|].
  pose proof HX2 as HX2'. unfold no_space in HX2. cbn [forallb] in HX2.
  apply andb_true_iff in HX2 as [Hc HX2]. apply negb_true_iff in Hc.
  cbn [app]. rewrite star_stop by exact Hc.
  rewrite rmatch_Seq, rmatch_Group, rmatch_Seq, rmatch_Chr_cons.
  pose proof (no_char_head _ _ _ HX3) as Hc2.
  unfold accepts at 1, existsb, item_mem. rewrite Hc, Hc2. cbn [orb negb].
  apply star_greedy_take; [ | exact Hstop | ].
  { apply (forallb_imp (fun x => negb (is_space x) && negb (x =? 35))).
    - intros x Hx. apply andb_true_iff in Hx as [E1 E2].
      apply negb_true_iff in E1, E2.
      unfold accepts, existsb, item_mem. rewrite E1, E2. reflexivity.
    - apply forallb_both; [exact HX2 | apply (no_char_tail _ _ _ HX3)]. }
  change (c :: X ++ anchor_text o ++ title_text t ++ W3)
    with ((c :: X) ++ anchor_text o ++ title_text t ++ W3).
  rewrite close_group_app.
  etransitivity; [apply ref_tail_take; assumption|].
  destruct o; reflexivity.
Qed.

Lemma ref_nil p : match_at REF_LINK_RE p [] = None.
Proof.
  unfold match_at, REF_LINK_RE. rewrite rmatch_Seq, rmatch_Bol.
  destruct (at_bol _); reflexivity.
Qed.

(** The reference rule on one definition with a relative prefix. *)
Lemma ref_rule_line W1 L W2 segs X o t W3 :
  blank W1 -> label_ok L -> blank W2 -> segs <> [] ->
  ref_path_ok X -> ref_anchor_ok o -> title_ok t -> blank W3 ->
  ref_rule (ref_line W1 L W2
              (rel_path segs ++ X ++ anchor_text o ++ title_text t ++ W3)) =
  (lit "[" ++ L ++ lit "]: " ++ X ++ anchor_text o, 1%nat).
Proof.
  intros HW1 HL HW2 Hsegs HX Ho Ht HW3.
  destruct (ref_match_line W1 L W2 segs X o t W3) as [pf Hm]; try assumption.
  unfold ref_rule.
  rewrite (subn_whole _ _ _ (MState pf [] (inline_caps L X o))).
  - f_equal. destruct HX as (_ & HX & _). apply no_space_strip in HX.
    unfold _replace_ref_match, group.
    destruct o; cbn [caps inline_caps group_in Nat.eqb option_map fmt or_empty];
      rewrite HX; reflexivity.
  - unfold ref_line. unlit. destruct W1; discriminate.
  - exact Hm.
  - reflexivity.
  - apply ref_nil.
Qed.

End RefLine.

(** ** Texts that neither rule matches *)

Section NoMatch.

Lemma all_suffixes_app P a b :
  (forall a1 c a2, a = a1 ++ c :: a2 -> P (c :: a2 ++ b)) ->
  all_suffixes P b -> all_suffixes P (a ++ b).
Proof.
  intros Ha Hb x y E.
  apply app_eq_app in E as [l [[E1 E2] | [E1 E2]]].
  - destruct l as [|c l].
    + rewrite E2. apply (Hb [] b eq_refl).
    + rewrite E2. apply (Ha x c l E1).
  - apply (Hb l y E2).
Qed.

Lemma all_suffixes_no_bracket P s :
  no_char 91 s = true -> (forall y, no_bracket_head y -> P y) ->
  all_suffixes P s.
Proof.
  intros Hs HP x y E. apply HP. destruct y as [|c y]; [exact I|].
  apply (no_char_neq 91 c s x y Hs E).
Qed.

Lemma no_char_app c a b :
  no_char c (a ++ b) = no_char c a && no_char c b.
Proof. apply forallb_app. Qed.

Lemma no_char_suffix c s a1 d a2 :
  no_char c s = true -> s = a1 ++ d :: a2 -> no_char c a2 = true.
Proof.
  intros H E. subst. rewrite no_char_app in H.
  apply andb_true_iff in H as [_ H]. apply (no_char_tail _ _ _ H).
Qed.

(** The suffixes of [A [ L ] R], when brackets open only in [[ L]:
    either they do not begin with a bracket, or they are [[ l ] R] for a
    part [l] of the label. *)
Lemma bracket_suffixes P A L R :
  no_char 91 A = true -> no_char 93 L = true -> no_char 91 (93 :: R) = true ->
  (forall y, no_bracket_head y -> P y) ->
  (forall l, no_char 93 l = true -> P (91 :: l ++ 93 :: R)) ->
  all_suffixes P (A ++ (91 :: L) ++ 93 :: R).
Proof.
  intros HA HL HR Hno Hlab.
  apply all_suffixes_app.
  - intros a1 c a2 E. apply Hno. apply (no_char_neq 91 c A a1 a2 HA E).
  - apply all_suffixes_app.
    + intros a1 c a2 E. destruct (c =? 91) eqn:Ec.
      * apply N.eqb_eq in Ec. subst c. apply Hlab.
        destruct a1 as [|d a1]; simpl in E.
        -- injection E as E. subst. exact HL.
        -- injection E as _ E. apply (no_char_suffix 93 L a1 91 a2 HL E).
      * apply Hno. exact Ec.
    + apply all_suffixes_no_bracket; assumption.
Qed.

(** A bracketed label followed by something the rest of the pattern
    refuses: the attempt fails, however short the label is cut. *)
Lemma label_fail r2 l R k :
  no_char 93 l = true ->
  (forall p g, rmatch r2 (MState p R g) k = None) ->
  forall p g,
    rmatch (Seq (Chr (Char 91))
           (Seq (Group 1 (Plus true (Chr (NotIn [One 93]))))
           (Seq (Chr (Char 93)) r2)))
      (MState p (91 :: l ++ 93 :: R) g) k = None.
Proof.
  intros Hl Hr p g. rewrite rmatch_Seq. chr_eval.
  rewrite rmatch_Seq, rmatch_Group. unfold Plus. rewrite rmatch_Seq.
  destruct l as [|c l]; [cbn [app]; chr_eval; reflexivity|].
  cbn [app]. rewrite rmatch_Chr_cons.
  pose proof (no_char_head _ _ _ Hl) as Hc.
  pose proof (no_char_tail _ _ _ Hl) as Hl'.
  cbn [accepts existsb item_mem]. rewrite Hc. cbn [orb negb].
  apply star_greedy_none.
  - revert Hl'. apply forallb_imp. intros x Hx. apply negb_true_iff in Hx.
    cbn [accepts existsb item_mem]. rewrite Hx. reflexivity.
  - reflexivity.
  - intros a1 d a2 p' E. unfold close_group. cbn [prev rest caps].
    rewrite rmatch_Seq, rmatch_Chr_cons. cbn [accepts].
    rewrite (no_char_neq 93 d l a1 a2 Hl' E). reflexivity.
  - intros p'. unfold close_group. cbn [prev rest caps].
    rewrite rmatch_Seq. chr_eval. apply Hr.
Qed.

End NoMatch.

Section Never.

Lemma LINK_INLINE_RE_split :
  LINK_INLINE_RE =
  Seq (Chr (Char 91)) (Seq label_re (Seq (Chr (Char 93)) inline_after_label)).
Proof. reflexivity. Qed.

Lemma REF_LINK_RE_split :
  REF_LINK_RE = Seq Bol (Seq ws_star ref_bracket).
Proof. reflexivity. Qed.

Lemma lstrip_split T : exists W, T = W ++ lstrip T /\ blank W.
Proof.
  induction T as [|c T (W & E & HW)]; [exists []; split; reflexivity|].
  simpl. destruct (is_space c) eqn:Ec.
  - exists (c :: W). split; [simpl; rewrite <- E; reflexivity|].
    unfold blank in *. simpl. rewrite Ec, HW. reflexivity.
  - exists []. split; reflexivity.
Qed.

Lemma lstrip_stops T : stops (Cat Space) (lstrip T).
Proof.
  induction T as [|c T IH]; [exact I|]. simpl.
  destruct (is_space c) eqn:Ec; [exact IH | exact Ec].
Qed.

Lemma space_no_rel_head c s : is_space c = true -> no_rel_head (c :: s) = true.
Proof.
  intros H. unfold no_rel_head. unlit. cbn [starts_with].
  rewrite (space_neq c 46 H eq_refl). reflexivity.
Qed.

(** Blanks and then no segment: the relative prefix cannot start. *)
Lemma blank_then_no_prefix W S p g k :
  blank W -> stops (Cat Space) S -> no_rel_head S = true ->
  rmatch ws_star (MState p (W ++ S) g)
    (fun st => rmatch rel_prefix st k) = None.
Proof.
  intros HW HS Hno. apply star_greedy_none; [exact HW | exact HS | |].
  - intros a1 c a2 p' E. apply rel_prefix_miss, space_no_rel_head.
    unfold blank in HW. rewrite E in HW. apply forallb_mid in HW as [H _].
    exact H.
  - intros p'. apply rel_prefix_miss, Hno.
Qed.

Lemma inline_no_bracket y p :
  no_bracket_head y -> match_at LINK_INLINE_RE p y = None.
Proof.
  intros H. unfold match_at. rewrite LINK_INLINE_RE_split, rmatch_Seq.
  destruct y as [|c y]; [reflexivity|]. simpl in H.
  rewrite rmatch_Chr_cons. cbn [accepts]. rewrite H. reflexivity.
Qed.

Lemma ref_no_bracket y p g :
  no_bracket_head y -> rmatch ref_bracket (MState p y g) Some = None.
Proof.
  intros H. unfold ref_bracket. rewrite rmatch_Seq.
  destruct y as [|c y]; [reflexivity|]. simpl in H.
  rewrite rmatch_Chr_cons. cbn [accepts]. rewrite H. reflexivity.
Qed.

(** The inline pattern on [A [ L ] R], when what follows the label is
    refused. *)
Lemma inline_never_bracket A L R :
  no_char 91 A = true -> no_char 93 L = true -> no_char 91 (93 :: R) = true ->
  (forall p g, rmatch inline_after_label (MState p R g) Some = None) ->
  never LINK_INLINE_RE (A ++ (91 :: L) ++ 93 :: R).
Proof.
  intros HA HL HR Hafter p a b E. revert p.
  apply (bracket_suffixes
           (fun y => forall p, match_at LINK_INLINE_RE p y = None)
           A L R HA HL HR) with (x := a); [| |exact E].
  - intros y Hy p. apply inline_no_bracket, Hy.
  - intros l Hl p. unfold match_at. rewrite LINK_INLINE_RE_split.
    apply label_fail; assumption.
Qed.

(** The reference pattern fails everywhere when its bracketed part fails
    at every suffix. *)
Lemma ref_never_of doc :
  all_suffixes (fun y => forall p g,
                  rmatch ref_bracket (MState p y g) Some = None) doc ->
  never REF_LINK_RE doc.
Proof.
  intros H p a b E. unfold match_at.
  rewrite REF_LINK_RE_split, rmatch_Seq, rmatch_Bol.
  destruct (at_bol _); [|reflexivity]. rewrite rmatch_Seq.
  destruct (span_exists (Cat Space) b) as (w & b' & Eb & Hw & Hb'). subst b.
  apply star_greedy_none; [exact Hw | exact Hb' | |].
  - intros a1 c a2 p' Ew. apply (H (a ++ a1) (c :: a2 ++ b')).
    rewrite E, Ew, <- !app_assoc. reflexivity.
  - intros p'. apply (H (a ++ w) b'). rewrite E, app_assoc. reflexivity.
Qed.

Lemma ref_never_bracket A L R :
  no_char 91 A = true -> no_char 93 L = true -> no_char 91 (93 :: R) = true ->
  (forall p g, rmatch ref_after_label (MState p R g) Some = None) ->
  never REF_LINK_RE (A ++ (91 :: L) ++ 93 :: R).
Proof.
  intros HA HL HR Hafter. apply ref_never_of.
  apply (bracket_suffixes _ A L R HA HL HR).
  - intros y Hy p g. apply ref_no_bracket, Hy.
  - intros l Hl p g. unfold ref_bracket. apply label_fail; assumption.
Qed.

(** After the label of an inline link whose target has no relative
    prefix. *)
Lemma inline_after_target T R p g k :
  no_rel_head (lstrip T ++ R) = true -> stops (Cat Space) (lstrip T ++ R) ->
  rmatch inline_after_label (MState p (40 :: T ++ R) g) k = None.
Proof.
  intros Hno Hs. unfold inline_after_label. rewrite rmatch_Seq. chr_eval.
  rewrite rmatch_Seq. destruct (lstrip_split T) as (W & E & HW).
  rewrite E at 1. rewrite <- app_assoc.
  apply blank_then_no_prefix; assumption.
Qed.

Lemma inline_after_other c R p g k :
  (c =? 40) = false ->
  rmatch inline_after_label (MState p (c :: R) g) k = None.
Proof.
  intros H. unfold inline_after_label.
  rewrite rmatch_Seq, rmatch_Chr_cons. cbn [accepts]. rewrite H. reflexivity.
Qed.

Lemma ref_after_other R p g k :
  match R with [] => True | c :: _ => (c =? 58) = false end ->
  rmatch ref_after_label (MState p R g) k = None.
Proof.
  intros H. unfold ref_after_label. rewrite rmatch_Seq.
  destruct R as [|c R]; [reflexivity|].
  rewrite rmatch_Chr_cons. cbn [accepts]. rewrite H. reflexivity.
Qed.

Lemma ref_after_flat W S p g k :
  blank W -> stops (Cat Space) S -> no_rel_head S = true ->
  rmatch ref_after_label (MState p (58 :: W ++ S) g) k = None.
Proof.
  intros HW HS Hno. unfold ref_after_label. rewrite rmatch_Seq. chr_eval.
  rewrite rmatch_Seq. apply blank_then_no_prefix; assumption.
Qed.

End Never.

Section Passthrough.

Lemma rewrite_content_eq doc c1 n1 c2 n2 :
  inline_rule doc = (c1, n1) -> ref_rule c1 = (c2, n2) ->
  rewrite_content doc = (c2, (n1 + n2)%nat).
Proof. intros H1 H2. unfold rewrite_content. rewrite H1, H2. reflexivity. Qed.

Lemma no_rel_head_close T R :
  no_rel_head T = true -> no_rel_head (T ++ 41 :: R) = true.
Proof.
  intros H. destruct T as [|c T]; [reflexivity|].
  apply no_rel_head_app; [discriminate | exact H | split; reflexivity].
Qed.

Lemma lstrip_close_stops T R : stops (Cat Space) (lstrip T ++ 41 :: R).
Proof.
  pose proof (lstrip_stops T) as H.
  destruct (lstrip T) as [|c s]; [reflexivity | exact H].
Qed.

(** Neither pattern matches anywhere in [[L](T)] when [T] has no
    relative prefix and no bracket. *)
Lemma inline_never_link L T :
  no_char 93 L = true -> no_char 91 T = true ->
  no_rel_head (lstrip T) = true ->
  never LINK_INLINE_RE (inline_link L T).
Proof.
  intros HL HT Hno.
  change (inline_link L T) with ([] ++ (91 :: L) ++ 93 :: 40 :: T ++ [41]).
  apply inline_never_bracket; [reflexivity | exact HL | |].
  - change (93 :: 40 :: T ++ [41]) with ([93; 40] ++ T ++ [41]).
    rewrite !no_char_app, HT. reflexivity.
  - intros p g. apply (inline_after_target T [41]).
    + apply no_rel_head_close, Hno.
    + apply lstrip_close_stops.
Qed.

Lemma ref_never_link L T :
  no_char 93 L = true -> no_char 91 T = true ->
  never REF_LINK_RE (inline_link L T).
Proof.
  intros HL HT.
  change (inline_link L T) with ([] ++ (91 :: L) ++ 93 :: 40 :: T ++ [41]).
  apply ref_never_bracket; [reflexivity | exact HL | |].
  - change (93 :: 40 :: T ++ [41]) with ([93; 40] ++ T ++ [41]).
    rewrite !no_char_app, HT. reflexivity.
  - intros p g. apply ref_after_other. reflexivity.
Qed.

Lemma blank_no_bracket W : blank W -> no_char 91 W = true.
Proof.
  apply forallb_imp. intros x Hx.
  rewrite (space_neq x 91 Hx eq_refl). reflexivity.
Qed.

Lemma rel_path_no_bracket segs : no_char 91 (rel_path segs) = true.
Proof.
  induction segs as [|sg segs IH]; [reflexivity|].
  change (rel_path (sg :: segs)) with (seg_text sg ++ rel_path segs).
  rewrite no_char_app, IH. destruct sg; reflexivity.
Qed.

(** The inline pattern matches nowhere in a reference definition without
    another bracket. *)
Lemma inline_never_ref A L R :
  no_char 91 A = true -> no_char 93 L = true -> no_char 91 R = true ->
  never LINK_INLINE_RE (A ++ (91 :: L) ++ 93 :: 58 :: R).
Proof.
  intros HA HL HR. apply inline_never_bracket; [exact HA | exact HL | |].
  - change (93 :: 58 :: R) with ([93; 58] ++ R).
    rewrite no_char_app, HR. reflexivity.
  - intros p g. apply inline_after_other. reflexivity.
Qed.

(** The reference pattern matches nowhere in a flattened definition. *)
Lemma ref_never_flat L S :
  no_char 93 L = true -> no_char 91 S = true ->
  stops (Cat Space) S -> no_rel_head S = true ->
  never REF_LINK_RE ([] ++ (91 :: L) ++ 93 :: 58 :: [32] ++ S).
Proof.
  intros HL HS Hst Hno. apply ref_never_bracket; [reflexivity | exact HL | |].
  - change (93 :: 58 :: [32] ++ S) with ([93; 58; 32] ++ S).
    rewrite no_char_app, HS. reflexivity.
  - intros p g. apply ref_after_flat; [reflexivity | exact Hst | exact Hno].
Qed.

Lemma anchor_no_rel_head X o :
  X <> [] -> no_rel_head X = true -> no_rel_head (X ++ anchor_text o) = true.
Proof.
  intros Hne H. apply no_rel_head_app; [exact Hne | exact H |].
  destruct o; [split; reflexivity | exact I].
Qed.

Lemma head_stops X R :
  head_nonspace X = true -> stops (Cat Space) (X ++ R).
Proof.
  destruct X as [|c X]; [discriminate|]. simpl. intros H.
  apply negb_true_iff in H. exact H.
Qed.

End Passthrough.

(** ** Documents of text and inline links *)

Section Pieces.

Lemma inner_app P a b R :
  inner_suffixes P a (b ++ R) -> inner_suffixes P b R ->
  inner_suffixes P (a ++ b) R.
Proof.
  intros Ha Hb a1 c a2 E.
  apply app_eq_app in E as [l [[E1 E2] | [E1 E2]]].
  - destruct l as [|d l]; cbn [app] in E2.
    + apply (Hb [] c a2). symmetry. exact E2.
    + injection E2 as -> ->. rewrite <- app_assoc. apply (Ha a1 d l E1).
  - apply (Hb l c a2 E2).
Qed.

Lemma inner_no_bracket P a R :
  no_char 91 a = true -> (forall y, no_bracket_head y -> P y) ->
  inner_suffixes P a R.
Proof.
  intros Ha HP a1 c a2 E. apply HP. apply (no_char_neq 91 c a a1 a2 Ha E).
Qed.

(** The suffixes that begin in a link [[L](T)]: at a bracket of the
    label, or elsewhere. *)
Lemma link_inner P L T R :
  no_char 93 L = true -> no_char 91 T = true ->
  (forall y, no_bracket_head y -> P y) ->
  (forall l, no_char 93 l = true -> P (91 :: l ++ 93 :: 40 :: T ++ 41 :: R)) ->
  inner_suffixes P (inline_link L T) R.
Proof.
  intros HL HT Hno Hlab.
  change (inline_link L T) with ((91 :: L) ++ (93 :: 40 :: T ++ [41])).
  apply inner_app.
  - intros a1 c a2 E. destruct (c =? 91) eqn:Ec.
    + apply N.eqb_eq in Ec. subst c.
      replace (a2 ++ (93 :: 40 :: T ++ [41]) ++ R)
        with (a2 ++ 93 :: 40 :: T ++ 41 :: R)
        by (cbn [app]; rewrite <- app_assoc; reflexivity).
      apply Hlab. destruct a1 as [|d a1]; simpl in E.
      * injection E as E. subst. exact HL.
      * injection E as _ E. apply (no_char_suffix 93 L a1 91 a2 HL E).
    + apply Hno. exact Ec.
  - apply inner_no_bracket; [|exact Hno].
    change (93 :: 40 :: T ++ [41]) with ([93; 40] ++ T ++ [41]).
    rewrite !no_char_app, HT. reflexivity.
Qed.

Lemma all_suffixes_render P ps :
  (forall x R, In x ps -> inner_suffixes P (piece_text x) R) -> P [] ->
  all_suffixes P (render ps).
Proof.
  intros Hin Hnil. induction ps as [|x ps IH].
  - intros a b E. symmetry in E. apply app_eq_nil in E as [_ ->]. exact Hnil.
  - change (render (x :: ps)) with (piece_text x ++ render ps).
    apply all_suffixes_app.
    + apply (Hin x (render ps)). left. reflexivity.
    + apply IH. intros y R Hy. apply Hin. right. exact Hy.
Qed.

Lemma render_app a b : render (a ++ b) = render a ++ render b.
Proof. apply flat_map_app. Qed.

Lemma rel_target_no_bracket segs X o :
  no_char 91 (X ++ anchor_text o) = true ->
  no_char 91 (rel_path segs ++ X ++ anchor_text o) = true.
Proof. intros H. rewrite no_char_app, rel_path_no_bracket, H. reflexivity. Qed.

(** The inline pattern matches nowhere in a link without a relative
    prefix, whatever follows the link. *)
Lemma inline_inner_flat L T R :
  piece_ok (Flat L T) ->
  inner_suffixes (fun y => forall q, match_at LINK_INLINE_RE q y = None)
    (inline_link L T) R.
Proof.
  intros (HL & HT & Hno). apply link_inner; try assumption.
  - intros y Hy q. apply inline_no_bracket, Hy.
  - intros l Hl q. unfold match_at. rewrite LINK_INLINE_RE_split.
    apply label_fail; [exact Hl|].
    intros p g. apply (inline_after_target T (41 :: R)).
    + apply no_rel_head_close, Hno.
    + apply lstrip_close_stops.
Qed.

(** The inline rule over a document: each link with a relative prefix
    is replaced by its flat form, the rest is copied. *)
Lemma inline_doc ps :
  Forall piece_ok ps ->
  forall p, subn_from LINK_INLINE_RE _replace_inline_match p (render ps) O =
            (render (List.map flatten ps), length (List.filter is_rel ps)).
Proof.
  induction 1 as [|x ps Hx Hps IH]; intros p.
  - cbn [render flat_map subn_from]. rewrite inline_nil. reflexivity.
  - change (render (x :: ps)) with (piece_text x ++ render ps).
    destruct x as [t | L segs X o | L T]; cbn [piece_text].
    + rewrite subn_from_pass, IH; [reflexivity|].
      apply inner_no_bracket; [exact Hx|].
      intros y Hy q. apply inline_no_bracket, Hy.
    + destruct Hx as (HL & Hsegs & HX & Ho & Hbr).
      rewrite (subn_from_hit _ _ _ _ _
                 (MState (Some 41) (render ps) (inline_caps L X o))).
      * rewrite IH, inline_repl_link by apply HX. reflexivity.
      * unfold inline_link. unlit. discriminate.
      * apply inline_match_link; assumption.
      * reflexivity.
    + rewrite subn_from_pass, IH; [reflexivity|].
      apply inline_inner_flat, Hx.
Qed.

(** The reference pattern matches nowhere in such a document: after a
    label comes a parenthesis, not a colon. *)
Lemma ref_doc_never ps :
  Forall piece_ok ps -> never REF_LINK_RE (render ps).
Proof.
  intros Hps. apply ref_never_of. apply all_suffixes_render.
  - intros x R Hx. rewrite List.Forall_forall in Hps. specialize (Hps x Hx).
    assert (Hlink : forall L T, no_char 93 L = true -> no_char 91 T = true ->
              inner_suffixes
                (fun y => forall p g,
                   rmatch ref_bracket (MState p y g) Some = None)
                (inline_link L T) R).
    { intros L T HL HT. apply link_inner; try assumption.
      - intros y Hy p g. apply ref_no_bracket, Hy.
      - intros l Hl p g. unfold ref_bracket.
        apply label_fail; [exact Hl|].
        intros p' g'. apply ref_after_other. reflexivity. }
    destruct x as [t | L segs X o | L T]; cbn [piece_text].
    + apply inner_no_bracket; [exact Hps|].
      intros y Hy p g. apply ref_no_bracket, Hy.
    + destruct Hps as ([_ HL] & _ & _ & _ & Hbr).
      apply Hlink; [exact HL | apply rel_target_no_bracket, Hbr].
    + destruct Hps as (HL & HT & _). apply Hlink; assumption.
  - intros p g. apply ref_no_bracket. exact I.
Qed.

Lemma flatten_ok x : piece_ok x -> piece_ok (flatten x).
Proof.
  destruct x as [t | L segs X o | L T]; cbn [flatten]; try (intros H; exact H).
  intros ([_ HL] & _ & (HX1 & HX2 & _ & _ & HX5) & _ & Hbr).
  repeat split; try assumption.
  destruct (strip_fixed X HX1 HX2) as [Hh _].
  destruct X as [|c X]; [congruence|].
  rewrite lstrip_head by exact Hh. apply anchor_no_rel_head; assumption.
Qed.

Lemma flatten_all_ok ps :
  Forall piece_ok ps -> Forall piece_ok (List.map flatten ps).
Proof.
  induction 1 as [|x ps Hx Hps IH]; cbn [List.map]; constructor;
    [apply flatten_ok, Hx | exact IH].
Qed.

Lemma flatten_flat ps :
  List.map flatten (List.map flatten ps) = List.map flatten ps
  /\ List.filter is_rel (List.map flatten ps) = [].
Proof.
  induction ps as [|x ps [IH1 IH2]]; [split; reflexivity|].
  cbn [List.map]. destruct x; cbn [flatten List.filter is_rel];
    rewrite IH1, IH2; split; reflexivity.
Qed.

(** The two rules over a document of text and inline links. *)
Lemma rewrite_doc ps :
  Forall piece_ok ps ->
  rewrite_content (render ps) =
  (render (List.map flatten ps), length (List.filter is_rel ps)).
Proof.
  intros Hps.
  rewrite (rewrite_content_eq _ (render (List.map flatten ps))
             (length (List.filter is_rel ps))
             (render (List.map flatten ps)) O).
  - rewrite Nat.add_0_r. reflexivity.
  - apply inline_doc, Hps.
  - apply never_subn, ref_doc_never, flatten_all_ok, Hps.
Qed.

End Pieces.

(** * Properties of the directory scan *)

Section Frame.

Lemma frame_ret {A} P (a : A) : frame P (ret a).
Proof. intros w. simpl. auto. Qed.

Lemma frame_raise {A} P e : frame P (@raise A e).
Proof. intros w. simpl. auto. Qed.

Lemma frame_bind {A B} P (m : M A) (f : A -> M B) :
  frame P m -> (forall a, frame P (f a)) -> frame P (bind m f).
Proof.
  intros Hm Hf w. unfold bind. destruct (Hm w) as (H1 & H2 & H3).
  destruct (m w) as [[e|a] w1]; simpl in *; [auto|].
  destruct (Hf a w1) as (G1 & G2 & G3).
  split; [|split].
  - intros q Hq. rewrite G1, H1 by assumption. reflexivity.
  - intros e He. destruct (G2 e He) as [G | G]; [apply H2, G | right; exact G].
  - intros e He. apply G3, H3, He.
Qed.

Lemma frame_try {A} P (m h : M A) :
  frame P m -> frame P h -> frame P (try_except m h).
Proof.
  intros Hm Hh w. unfold try_except. destruct (Hm w) as (H1 & H2 & H3).
  destruct (m w) as [[e|a] w1]; simpl in *; [|auto].
  destruct (is_Exception e); simpl; [|auto].
  destruct (Hh w1) as (G1 & G2 & G3).
  split; [|split].
  - intros q Hq. rewrite G1, H1 by assumption. reflexivity.
  - intros e' He. destruct (G2 e' He) as [G | G]; [apply H2, G | right; exact G].
  - intros e' He. apply G3, H3, He.
Qed.

Lemma frame_emit P e :
  match event_path e with Some q => P q | None => True end ->
  frame P (emit e).
Proof.
  intros He w. simpl. split; [auto|]. split.
  - intros e' [E | H]; [subst; right; exact He | left; exact H].
  - intros e' H. right. exact H.
Qed.

Lemma frame_next_fault P : frame P next_fault.
Proof.
  intros w. unfold next_fault. destruct (faults w) as [|[e|] fs]; simpl; auto.
Qed.

Lemma frame_lookup P p : frame P (lookup_file p).
Proof.
  intros w. unfold lookup_file. destruct (files w !! p); simpl; auto.
Qed.

Lemma frame_store (P : str -> Prop) p b : P p -> frame P (store_file p b).
Proof.
  intros Hp w. simpl. split; [|auto].
  intros q Hq. apply lookup_insert_ne. intros E. subst. auto.
Qed.

Lemma frame_weaken {A} (P Q : str -> Prop) (m : M A) :
  (forall q, P q -> Q q) -> frame P m -> frame Q m.
Proof.
  intros HPQ Hm w. destruct (Hm w) as (H1 & H2 & H3). split; [|split].
  - intros q Hq. apply H1. intros Hp. apply Hq, HPQ, Hp.
  - intros e He. destruct (H2 e He) as [H | H]; [left; exact H | right].
    destruct (event_path e); [apply HPQ, H | exact I].
  - exact H3.
Qed.

Lemma frame_read_text p enc : frame (eq p) (read_text p enc).
Proof.
  unfold read_text.
  apply frame_bind; [apply frame_emit; reflexivity | intros _].
  apply frame_bind; [apply frame_next_fault | intros _].
  apply frame_bind; [apply frame_lookup | intros b].
  destruct (decode enc b); [apply frame_ret | apply frame_raise].
Qed.

Lemma frame_write_text p text : frame (eq p) (write_text p text).
Proof.
  unfold write_text.
  apply frame_bind; [apply frame_emit; reflexivity | intros _].
  apply frame_bind; [apply frame_next_fault | intros _].
  apply frame_bind; [apply frame_store; reflexivity | intros _].
  destruct (utf8_encode text); [|apply frame_raise].
  apply frame_bind; [apply frame_store; reflexivity | intros _].
  apply frame_emit; reflexivity.
Qed.


Lemma frame_print P text : frame P (print text).
Proof.
  unfold print.
  apply frame_bind; [apply frame_next_fault | intros _].
  apply frame_emit. exact I.
Qed.

Variable lower : str -> str.
Variable verbose : bool.

Lemma frame_process_file p acc : frame (eq p) (process_file verbose p acc).
Proof.
  unfold process_file, read_content.
  apply frame_bind; [apply frame_try; apply frame_read_text | intros content].
  destruct (rewrite_content content) as [new_content n].
  destruct (0 <? n)%nat; [|apply frame_ret].
  apply frame_bind; [apply frame_write_text | intros _].
  apply frame_bind; [apply frame_print | intros _].
  apply frame_bind; [|intros _; apply frame_ret].
  destruct verbose; [apply frame_print | apply frame_ret].
Qed.

Lemma frame_scan_paths ps :
  forall acc, frame (fun q => In q ps) (scan_paths verbose ps acc).
Proof.
  induction ps as [|p ps IH]; intros acc; simpl; [apply frame_ret|].
  apply frame_bind.
  - apply (frame_weaken (eq p)); [|apply frame_process_file].
    intros q E. left. exact E.
  - intros acc'. apply (frame_weaken (fun q => In q ps)); [|apply IH].
    intros q H. right. exact H.
Qed.

(** The nested loops visit the markdown paths in order. *)
Lemma scan_paths_app a : forall b acc w,
  scan_paths verbose (a ++ b) acc w =
  bind (scan_paths verbose a acc) (scan_paths verbose b) w.
Proof.
  induction a as [|p a IH]; intros b acc w; simpl.
  - reflexivity.
  - unfold bind in *.
    destruct (process_file verbose p acc w) as [[e|acc'] w1]; [reflexivity|].
    apply IH.
Qed.

Lemma scan_files_flat root names : forall acc w,
  scan_files lower verbose root names acc w =
  scan_paths verbose
    (List.map (path_join root) (List.filter (is_markdown lower) names)) acc w.
Proof.
  induction names as [|f names IH]; intros acc w; simpl; [reflexivity|].
  destruct (is_markdown lower f); simpl; [|apply IH].
  unfold bind.
  destruct (process_file verbose (path_join root f) acc w) as [[e|acc'] w1];
    [reflexivity | apply IH].
Qed.

Lemma scan_walk_flat walk : forall acc w,
  scan_walk lower verbose walk acc w =
  scan_paths verbose (md_paths lower walk) acc w.
Proof.
  induction walk as [|[root names] walk IH]; intros acc w; simpl;
    [reflexivity|].
  rewrite scan_paths_app. unfold bind. rewrite scan_files_flat.
  destruct (scan_paths verbose _ acc w) as [[e|acc'] w1]; [reflexivity|].
  apply IH.
Qed.





End Frame.

Section Clean.

Variable lower : str -> str.
Variable verbose : bool.



Lemma read_text_clean p enc w :
  faults w = [] ->
  read_text p enc w =
  (match files w !! p with
   | Some b => match decode enc b with
               | Some s => inr (universal_newlines s)
               | None => inl UnicodeDecodeError
               end
   | None => inl FileNotFoundError
   end, World (files w) [] (EOpen p ModeR enc :: log w)).
Proof.
  intros Hf. unfold read_text, bind, emit, next_fault, lookup_file.
  cbn [faults files log]. rewrite Hf. cbn [faults files log].
  destruct (files w !! p) as [b|]; [|reflexivity].
  destruct (decode enc b); reflexivity.
Qed.

Lemma read_content_clean p w :
  faults w = [] ->
  exists l,
    read_content p w =
    (match files w !! p with
     | Some b => inr (read_pure b)
     | None => inl FileNotFoundError
     end, World (files w) [] (l ++ log w))
    /\ forall q, ~ written l q.
Proof.
  intros Hf. unfold read_content, try_except.
  rewrite (read_text_clean p Utf8 w Hf).
  assert (N1 : forall q, ~ written [EOpen p ModeR Utf8] q).
  { intros q [d [H | []]]. discriminate. }
  assert (N2 : forall q,
            ~ written [EOpen p ModeR Latin1; EOpen p ModeR Utf8] q).
  { intros q [d [H | [H | []]]]; discriminate. }
  destruct (files w !! p) as [b|] eqn:Eb.
  - unfold read_pure. destruct (decode Utf8 b) as [s|] eqn:Ed.
    + exists [EOpen p ModeR Utf8]. split; [reflexivity | exact N1].
    + cbn [is_Exception]. rewrite read_text_clean by reflexivity.
      cbn [files log]. rewrite Eb.
      exists [EOpen p ModeR Latin1; EOpen p ModeR Utf8].
      split; [reflexivity | exact N2].
  - cbn [is_Exception]. rewrite read_text_clean by reflexivity.
    cbn [files log]. rewrite Eb.
    exists [EOpen p ModeR Latin1; EOpen p ModeR Utf8].
    split; [reflexivity | exact N2].
Qed.

Lemma write_text_clean p text w :
  faults w = [] ->
  write_text p text w =
  match utf8_encode text with
  | Some bs =>
      (inr tt, World (<[p := List.map byte_of bs]> (files w)) []
                 (EWrite p (List.map byte_of bs)
                  :: EOpen p ModeW Utf8 :: log w))
  | None =>
      (inl UnicodeEncodeError,
       World (<[p := []]> (files w)) [] (EOpen p ModeW Utf8 :: log w))
  end.
Proof.
  intros Hf. unfold write_text, bind, emit, next_fault, store_file.
  cbn [faults files log]. rewrite Hf. cbn [faults files log].
  destruct (utf8_encode text) as [bs|]; [|reflexivity].
  cbn [faults files log]. rewrite insert_insert_eq. reflexivity.
Qed.

Lemma written_app l1 l2 q : written (l1 ++ l2) q <-> written l1 q \/ written l2 q.
Proof.
  unfold written. split.
  - intros [d H]. apply in_app_or in H as [H | H]; [left | right]; eauto.
  - intros [[d H] | [d H]]; exists d; apply in_or_app; auto.
Qed.

(** One file, in a system without faults. *)
Lemma process_file_clean p acc w r w' :
  faults w = [] ->
  process_file verbose p acc w = (inr r, w') ->
  faults w' = []
  /\ r = ((fst acc + (if (0 <? count (files w) p)%nat then 1 else 0))%nat,
          (snd acc + count (files w) p)%nat)
  /\ (count (files w) p = O -> files w' = files w)
  /\ (forall q, written (log w') q <->
        written (log w) q \/ (q = p /\ (0 < count (files w) p)%nat))
  /\ ((0 < count (files w) p)%nat ->
        exists d, new_bytes (files w) p = Some d /\ files w' !! p = Some d).
Proof.
  intros Hf Hrun. unfold process_file, bind in Hrun.
  destruct (read_content_clean p w Hf) as (l & El & Hl).
  rewrite El in Hrun. unfold count, new_bytes.
  destruct (files w !! p) as [b|]; [|discriminate].
  destruct (rewrite_content (read_pure b)) as [new_content n].
  cbn [fst snd]. destruct (Nat.ltb_spec 0 n) as [Hn | Hn].
  - rewrite write_text_clean in Hrun by reflexivity.
    destruct (utf8_encode new_content) as [bs|]; [|discriminate].
    assert (E : exists l2, w' = World (<[p := List.map byte_of bs]> (files w))
                  [] (l2 ++ EWrite p (List.map byte_of bs)
                         :: EOpen p ModeW Utf8 :: l ++ log w)
                /\ (forall q, ~ written l2 q)
                /\ r = (S (fst acc), (snd acc + n)%nat)).
    { destruct verbose; unfold print, emit, ret in Hrun;
        cbn [files faults log] in Hrun; injection Hrun as E1 E2; subst r w'.
      - eexists [_; _]. split; [reflexivity|]. split; [|reflexivity].
        intros q [d [H | [H | []]]]; discriminate.
      - eexists [_]. split; [reflexivity|]. split; [|reflexivity].
        intros q [d [H | []]]; discriminate. }
    destruct E as (l2 & -> & Hl2 & ->). cbn [faults files log].
    split; [reflexivity|]. split; [f_equal; lia|]. split; [lia|]. split.
    + intros q. rewrite written_app.
      change (EWrite p (List.map byte_of bs)
                :: EOpen p ModeW Utf8 :: l ++ log w)
        with ([EWrite p (List.map byte_of bs); EOpen p ModeW Utf8]
                ++ l ++ log w).
      rewrite !written_app. split.
      * intros [H | [[d [H | [H | []]]] | [H | H]]].
        -- destruct (Hl2 q H).
        -- injection H as H _. right. split; [symmetry; exact H | exact Hn].
        -- discriminate.
        -- destruct (Hl q H).
        -- left. exact H.
      * intros [H | [E _]].
        -- right. right. right. exact H.
        -- subst q. right. left. eexists. left. reflexivity.
    + intros _. exists (List.map byte_of bs).
      split; [reflexivity | apply lookup_insert_eq].
  - assert (n = O) by lia. subst n.
    unfold ret in Hrun. injection Hrun as E1 E2. subst r w'.
    cbn [faults files log].
    split; [reflexivity|]. split; [destruct acc; cbn [fst snd]; f_equal; lia|].
    split; [reflexivity|]. split; [|lia].
    intros q. rewrite written_app. split.
    + intros [H | H]; [destruct (Hl q H) | left; exact H].
    + intros [H | [_ H]]; [right; exact H | lia].
Qed.

Lemma count_frame (fs fs' : gmap str (list byte)) q :
  fs' !! q = fs !! q ->
  count fs' q = count fs q /\ new_bytes fs' q = new_bytes fs q.
Proof. intros E. unfold count, new_bytes. rewrite E. split; reflexivity. Qed.

(** The scan of a list of distinct files, in a system without faults. *)
Lemma scan_paths_clean ps : forall acc w r w',
  faults w = [] -> List.NoDup ps ->
  scan_paths verbose ps acc w = (inr r, w') ->
  r = ((fst acc
        + length (List.filter (fun p => (0 <? count (files w) p)%nat) ps))%nat,
       (snd acc + list_sum (List.map (count (files w)) ps))%nat)
  /\ (forall q, written (log w') q <->
        written (log w) q \/ (In q ps /\ (0 < count (files w) q)%nat))
  /\ (forall q, In q ps -> count (files w) q = O ->
        files w' !! q = files w !! q)
  /\ (forall q, In q ps -> (0 < count (files w) q)%nat ->
        exists d, new_bytes (files w) q = Some d /\ files w' !! q = Some d).
Proof.
  induction ps as [|p ps IH]; intros acc w r w' Hf Hnd Hrun.
  - simpl in Hrun. injection Hrun as E1 E2. subst r w'. simpl.
    split; [destruct acc; cbn [fst snd]; f_equal; lia|].
    split; [|split; intros q []].
    intros q. split; [auto | intros [H | [[] _]]; exact H].
  - simpl in Hrun. unfold bind in Hrun.
    destruct (process_file verbose p acc w) as [[e|acc1] w1] eqn:E1;
      [discriminate|].
    destruct (process_file_clean p acc w acc1 w1 Hf E1)
      as (Hf1 & Hacc & Hsame & Hw & Hnew).
    apply NoDup_cons_iff in Hnd as [Hnotin Hnd].
    destruct (IH acc1 w1 r w' Hf1 Hnd Hrun) as (Hr & Hw' & Hz & Hn).
    assert (Hfr : forall q, q <> p -> files w1 !! q = files w !! q).
    { intros q Hq. pose proof (frame_process_file verbose p acc w) as F.
      rewrite E1 in F. apply F. congruence. }
    assert (Hc : forall q, In q ps -> count (files w1) q = count (files w) q).
    { intros q Hq. apply count_frame, Hfr. intros ->. contradiction. }
    assert (Hrest : files w' !! p = files w1 !! p).
    { pose proof (frame_scan_paths verbose ps acc1 w1) as F.
      rewrite Hrun in F. destruct F as (F & _). apply (F p Hnotin). }
    split; [|split; [|split]].
    + rewrite Hr, Hacc. cbn [fst snd List.filter List.map list_sum length].
      rewrite (filter_ext_in _ (fun p => (0 <? count (files w) p)%nat) ps)
        by (intros q Hq; rewrite (Hc q Hq); reflexivity).
      rewrite (map_ext_in _ (count (files w)) ps) by exact Hc.
      destruct (0 <? count (files w) p)%nat; cbn [length]; f_equal;
        unfold list_sum; simpl fold_right; lia.
    + intros q. rewrite Hw', Hw. split.
      * intros [[H | [-> H]] | [H1 H2]].
        -- left; exact H.
        -- right. split; [left; reflexivity | exact H].
        -- right. split; [right; exact H1 | rewrite <- (Hc q H1); exact H2].
      * intros [H | [[-> | H1] H2]].
        -- left; left; exact H.
        -- left; right. split; [reflexivity | exact H2].
        -- right. split; [exact H1 | rewrite (Hc q H1); exact H2].
    + intros q [<- | Hq] Hz0.
      * rewrite Hrest, (Hsame Hz0). reflexivity.
      * rewrite (Hz q Hq) by (rewrite (Hc q Hq); exact Hz0).
        apply Hfr. intros ->. contradiction.
    + intros q [<- | Hq] Hpos.
      * destruct (Hnew Hpos) as (d & Hd1 & Hd2).
        exists d. split; [exact Hd1 | rewrite Hrest; exact Hd2].
      * destruct (Hn q Hq) as (d & Hd1 & Hd2);
          [rewrite (Hc q Hq); exact Hpos|].
        exists d. split; [|exact Hd2].
        rewrite <- Hd1. symmetry. apply count_frame, Hfr.
        intros ->. contradiction.
Qed.

(** A scan that starts without faults ends without faults. *)
Lemma scan_paths_faults ps : forall acc w r w',
  faults w = [] -> scan_paths verbose ps acc w = (inr r, w') -> faults w' = [].
Proof.
  induction ps as [|p ps IH]; intros acc w r w' Hf Hrun.
  - simpl in Hrun. injection Hrun as _ <-. exact Hf.
  - simpl in Hrun. unfold bind in Hrun.
    destruct (process_file verbose p acc w) as [[e|acc1] w1] eqn:E1;
      [discriminate|].
    destruct (process_file_clean p acc w acc1 w1 Hf E1) as (Hf1 & _).
    exact (IH acc1 w1 r w' Hf1 Hrun).
Qed.

End Clean.

(** * The link rules: statements *)

Section LinkRules.

Lemma path_ok_inline X :
  ref_path_ok X -> no_char (ch ")") X = true -> inline_path_ok X.
Proof.
  intros (H1 & H2 & H3 & H4) H5. repeat split; try assumption.
  apply no_space_strip, H2.
Qed.

(** C1. Prefix collapse: an inline link [[L](segments X)], with one or
    more [../] or [./] segments before the path [X], is rewritten by the
    inline rule to exactly [[L](X)], in one replacement, and the result is
    the same whatever the segments are. *)
Theorem inline_prefix_collapse (L X : str) (segs : list segment) :
  label_ok L -> inline_path_ok X -> segs <> [] ->
  inline_rule (inline_link L (rel_path segs ++ X)) = (inline_link L X, 1%nat)
  /\ forall segs', segs' <> [] ->
       inline_rule (inline_link L (rel_path segs' ++ X)) =
       inline_rule (inline_link L (rel_path segs ++ X)).
Proof.
  intros HL HX Hs.
  assert (H : forall sg, sg <> [] ->
            inline_rule (inline_link L (rel_path sg ++ X)) =
            (inline_link L X, 1%nat)).
  { intros sg Hsg.
    pose proof (inline_rule_link L sg X None HL Hsg HX I) as E.
    cbn [anchor_text] in E. rewrite !app_nil_r in E. exact E. }
  split; [apply H, Hs|].
  intros segs' Hs'. rewrite (H segs' Hs'), (H segs Hs). reflexivity.
Qed.

Lemma inline_prefix_collapse_witness :
  inline_rule (lit "[L](../../X)") = (lit "[L](X)", 1%nat)
  /\ inline_rule (lit "[L](./X)") = inline_rule (lit "[L](../../X)")
  /\ inline_rule (lit "[L](../X)") = inline_rule (lit "[L](../../X)").
Proof.
  assert (HL : label_ok (lit "L")) by (split; [discriminate | reflexivity]).
  assert (HX : inline_path_ok (lit "X"))
    by (repeat split; try reflexivity; discriminate).
  destruct (inline_prefix_collapse (lit "L") (lit "X") [Up; Up] HL HX
              ltac:(discriminate)) as [H1 H2].
  split; [exact H1|].
  split; [apply (H2 [Here]) | apply (H2 [Up])]; discriminate.
Defined.

(** C4. Anchor preservation: with a label [L], a page name [Page] and an
    anchor [#section], the inline rule rewrites [[L](../Page#section)] to
    [[L](Page#section)] and the reference rule rewrites the line
    [[L]: ../Page#section] to [[L]: Page#section]; the same holds with any
    other non-empty sequence of segments. *)
Theorem anchor_preserved (L Page section : str) (segs : list segment) :
  label_ok L -> ref_path_ok Page -> no_char (ch ")") Page = true ->
  section <> [] -> no_space section = true ->
  no_char (ch ")") section = true -> segs <> [] ->
  inline_rule (inline_link L (rel_path segs ++ Page ++ ch "#" :: section)) =
    (inline_link L (Page ++ ch "#" :: section), 1%nat)
  /\ ref_rule (lit "[" ++ L ++ lit "]: " ++ rel_path segs ++ Page
               ++ ch "#" :: section) =
    (lit "[" ++ L ++ lit "]: " ++ Page ++ ch "#" :: section, 1%nat).
Proof.
  intros HL HP HP' Hs1 Hs2 Hs3 Hsegs. split.
  - apply (inline_rule_link L segs Page (Some section)); try assumption.
    + apply path_ok_inline; assumption.
    + repeat split; assumption.
  - pose proof (ref_rule_line [] L (lit " ") segs Page (Some section) None []
                  eq_refl HL eq_refl Hsegs HP (conj Hs1 Hs2) I eq_refl) as E.
    cbn [title_text anchor_text] in E. rewrite !app_nil_r in E.
    rewrite <- E. unfold ref_line. unlit. cbn [app].
    rewrite <- ?app_assoc. reflexivity.
Qed.

Lemma anchor_preserved_witness :
  inline_rule (lit "[L](../Page#section)") = (lit "[L](Page#section)", 1%nat)
  /\ ref_rule (lit "[Ref]: ../Page#section") =
     (lit "[Ref]: Page#section", 1%nat).
Proof.
  split.
  - apply (anchor_preserved (lit "L") (lit "Page") (lit "section") [Up]);
      try reflexivity; try discriminate;
      repeat split; try reflexivity; discriminate.
  - apply (anchor_preserved (lit "Ref") (lit "Page") (lit "section") [Up]);
      try reflexivity; try discriminate;
      repeat split; try reflexivity; discriminate.
Defined.

(** C5. Title dropping: a reference definition with a relative prefix
    and a trailing quoted title (single or double quotes around a
    non-empty text on one line) is rewritten to [[L]: Page] followed by the
    anchor if there is one; the title is not in the rewritten line. *)
Theorem title_dropped (W1 L W2 Page W3 : str) (segs : list segment)
  (o : option str) (t : title) :
  blank W1 -> label_ok L -> blank W2 -> segs <> [] ->
  ref_path_ok Page -> ref_anchor_ok o -> title_ok (Some t) -> blank W3 ->
  ref_rule (ref_line W1 L W2
              (rel_path segs ++ Page ++ anchor_text o
               ++ title_text (Some t) ++ W3)) =
  (lit "[" ++ L ++ lit "]: " ++ Page ++ anchor_text o, 1%nat).
Proof. intros. apply ref_rule_line; assumption. Qed.

Lemma title_dropped_witness :
  ref_rule (lit "[Ref]: ../Page " ++ [DQUOTE] ++ lit "Some Title" ++ [DQUOTE])
  = (lit "[Ref]: Page", 1%nat).
Proof.
  apply (title_dropped [] (lit "Ref") (lit " ") (lit "Page") [] [Up] None
           (Title (lit " ") DQUOTE (lit "Some Title") DQUOTE));
    try reflexivity; try discriminate;
    repeat split; try reflexivity; discriminate.
Defined.

(** C10. Layout: on a reference definition with a relative prefix, the
    rule removes the blanks before [[label]:], writes exactly one space
    after the colon whatever blanks were there, and drops the blanks at the
    end: the rewritten line is [[label]: path] followed by the anchor if
    present. *)
Theorem ref_layout_normalized (W1 L W2 Page W3 : str) (segs : list segment)
  (o : option str) :
  blank W1 -> label_ok L -> blank W2 -> segs <> [] ->
  ref_path_ok Page -> ref_anchor_ok o -> blank W3 ->
  ref_rule (ref_line W1 L W2 (rel_path segs ++ Page ++ anchor_text o ++ W3)) =
  (lit "[" ++ L ++ lit "]: " ++ Page ++ anchor_text o, 1%nat).
Proof.
  intros. apply (ref_rule_line W1 L W2 segs Page o None W3);
    try assumption. exact I.
Qed.

Lemma ref_layout_normalized_witness :
  ref_rule (lit "   [Ref]:" ++ [9; 32] ++ lit "./../Page#top  " ++ [9])
  = (lit "[Ref]: Page#top", 1%nat).
Proof.
  apply (ref_layout_normalized (lit "   ") (lit "Ref") [9; 32] (lit "Page")
           (lit "  " ++ [9]) [Here; Up] (Some (lit "top")));
    try reflexivity; try discriminate;
    repeat split; try reflexivity; discriminate.
Defined.

End LinkRules.

Section Idempotence.

(** C6. Passthrough: an inline link whose target does not begin (after
    optional blanks) with [../] or [./], such as an absolute URL or an
    absolute path, is matched by neither rule, and the text is left as it
    is; inside a document of text and inline links, the rewrite leaves the
    text of such a link as it is. *)
Theorem no_prefix_passthrough (L T : str) :
  no_char (ch "]") L = true -> no_char (ch "[") T = true ->
  no_rel_head (lstrip T) = true ->
  inline_rule (inline_link L T) = (inline_link L T, O)
  /\ ref_rule (inline_link L T) = (inline_link L T, O)
  /\ rewrite_content (inline_link L T) = (inline_link L T, O)
  /\ forall before after,
       Forall piece_ok before -> Forall piece_ok after ->
       fst (rewrite_content (render (before ++ Flat L T :: after))) =
       fst (rewrite_content (render before)) ++ inline_link L T
       ++ fst (rewrite_content (render after)).
Proof.
  intros HL HT Hno.
  assert (H1 : inline_rule (inline_link L T) = (inline_link L T, O))
    by (apply never_subn, inline_never_link; assumption).
  assert (H2 : ref_rule (inline_link L T) = (inline_link L T, O))
    by (apply never_subn, ref_never_link; assumption).
  repeat split; try assumption.
  - apply (rewrite_content_eq _ _ _ _ _ H1 H2).
  - intros before after Hb Ha.
    rewrite !rewrite_doc; try assumption.
    + cbn [fst]. rewrite map_app, render_app. reflexivity.
    + apply Forall_app. split; [exact Hb|].
      constructor; [repeat split; assumption | exact Ha].
Qed.

Lemma no_prefix_passthrough_witness :
  rewrite_content (lit "[L](https://example.com/x)") =
    (lit "[L](https://example.com/x)", O)
  /\ rewrite_content (lit "[L](/absolute/x)") = (lit "[L](/absolute/x)", O).
Proof.
  split.
  - apply (no_prefix_passthrough (lit "L") (lit "https://example.com/x"));
      reflexivity.
  - apply (no_prefix_passthrough (lit "L") (lit "/absolute/x")); reflexivity.
Defined.

(** C2, counterexample.  The rewrite is not idempotent on every
    document: blanks after a segment let a second segment through, and the
    second pass replaces again. *)
Lemma second_pass_replaces :
  rewrite_content (lit "[L](../ ./X)") = (lit "[L](./X)", 1%nat)
  /\ snd (rewrite_content (fst (rewrite_content (lit "[L](../ ./X)")))) <> O.
Proof. split; [vm_compute; reflexivity | vm_compute; discriminate]. Qed.

(** An empty title is not a title for the pattern, whose [.+] reads at
    least one character: such a line is left as it is. *)
Example empty_title_kept :
  ref_rule (lit "[Ref]: ../Page " ++ [DQUOTE; DQUOTE]) =
  (lit "[Ref]: ../Page " ++ [DQUOTE; DQUOTE], O).
Proof. vm_compute. reflexivity. Qed.

(** Blank lines around a definition belong to the match of the reference
    pattern, whose [\s] reads line feeds: they go with the layout. *)
Example blank_lines_taken :
  ref_rule (lit "a" ++ [10; 10] ++ lit "[r]: ./x" ++ [10; 10] ++ lit "b") =
  (lit "a" ++ [10] ++ lit "[r]: x" ++ [10] ++ lit "b", 1%nat).
Proof. vm_compute. reflexivity. Qed.

End Idempotence.

(** * The directory scan and the command line: statements *)

Section ScanReport.

Lemma written_print l text q : written (EPrint text :: l) q <-> written l q.
Proof.
  unfold written. split; intros [d H]; exists d.
  - destruct H as [H | H]; [discriminate | exact H].
  - right. exact H.
Qed.

(** C3. Selective write: in a scan that completes, of distinct files in a
    system without faults, a markdown file is written if and only if the
    combined count of the two rules on its content is positive, and it then
    holds the rewritten content in [utf-8]; a file with no match keeps its
    content; and the report is the number of files with a positive count
    and the sum of the counts. *)
Theorem selective_write (lower : str -> str) (verbose : bool)
  (walk : list (str * list str)) (fs : gmap str (list byte)) (r : nat * nat) :
  List.NoDup (md_paths lower walk) ->
  fst (convert_gitlab_wiki_links_in_dir lower verbose walk (World fs [] []))
    = inr r ->
  let w' := snd (convert_gitlab_wiki_links_in_dir lower verbose walk
                   (World fs [] [])) in
  (forall p, In p (md_paths lower walk) ->
     (written (log w') p <-> (0 < count fs p)%nat))
  /\ (forall p, In p (md_paths lower walk) -> (0 < count fs p)%nat ->
        exists d, new_bytes fs p = Some d /\ files w' !! p = Some d)
  /\ (forall p, In p (md_paths lower walk) -> count fs p = O ->
        files w' !! p = fs !! p)
  /\ r = (length (List.filter (fun p => (0 <? count fs p)%nat)
                    (md_paths lower walk)),
          list_sum (List.map (count fs) (md_paths lower walk))).
Proof.
  intros Hnd Hrun. unfold convert_gitlab_wiki_links_in_dir, bind in *.
  rewrite scan_walk_flat in *.
  destruct (scan_paths verbose (md_paths lower walk) (O, O) (World fs [] []))
    as [[e|r1] w1] eqn:E; [discriminate|].
  pose proof (scan_paths_faults verbose _ _ (World fs [] []) _ _ eq_refl E)
    as Hf1.
  unfold print, bind, next_fault, emit, ret in *. rewrite Hf1 in *.
  cbn [fst snd files log] in *.
  injection Hrun as ->.
  destruct (scan_paths_clean verbose _ (O, O) (World fs [] []) r w1
              eq_refl Hnd E) as (Hr & Hw & Hz & Hn).
  cbn [files log fst snd] in *.
  split; [|split; [|split]].
  - intros p Hp. rewrite written_print, Hw. split.
    + intros [[d []] | [_ H]]. exact H.
    + intros H. right. split; assumption.
  - exact Hn.
  - exact Hz.
  - exact Hr.
Qed.

Lemma selective_write_witness :
  let w' := snd (convert_gitlab_wiki_links_in_dir ascii_lower true demo_walk
                   (World demo_files [] [])) in
  (written (log w') (lit "wiki/a.md") <->
     (0 < count demo_files (lit "wiki/a.md"))%nat)
  /\ files w' !! lit "wiki/c.md" = demo_files !! lit "wiki/c.md"
  /\ fst (convert_gitlab_wiki_links_in_dir ascii_lower true demo_walk
            (World demo_files [] [])) = inr (2%nat, 3%nat).
Proof.
  assert (Hnd : List.NoDup (md_paths ascii_lower demo_walk)).
  { vm_compute. repeat constructor; simpl; intuition discriminate. }
  assert (Hrun : fst (convert_gitlab_wiki_links_in_dir ascii_lower true
                        demo_walk (World demo_files [] []))
                 = inr (2%nat, 3%nat)) by (vm_compute; reflexivity).
  destruct (selective_write ascii_lower true demo_walk demo_files
              (2%nat, 3%nat) Hnd Hrun) as (H1 & _ & H2 & H3).
  split; [|split].
  - apply H1. vm_compute. tauto.
  - apply H2; [vm_compute; tauto | vm_compute; reflexivity].
  - exact Hrun.
Defined.



(** C8, counterexample.  The fallback is not reserved to a decoding
    failure: when the first [open] of a file raises [PermissionError] and
    the second does not, the error is caught, the file is read as [latin1]
    and nothing is raised.  So it is not true that an error of the first
    attempt other than a decoding failure always propagates. *)
Lemma permission_error_is_caught :
  (fst (read_text (lit "a.md") Utf8
          (World (<[lit "a.md" := bytes_of "x"]> ∅)
             [Some PermissionError] [])) = inl PermissionError
   /\ fst (read_content (lit "a.md")
             (World (<[lit "a.md" := bytes_of "x"]> ∅)
                [Some PermissionError] [])) = inr (lit "x")
   /\ In (EOpen (lit "a.md") ModeR Latin1)
         (log (snd (read_content (lit "a.md")
                      (World (<[lit "a.md" := bytes_of "x"]> ∅)
                         [Some PermissionError] [])))))
  /\ ~ (forall (w : world) (p : str) (e : exn),
          fst (read_text p Utf8 w) = inl e -> e <> UnicodeDecodeError ->
          fst (read_content p w) = inl e).
Proof.
  assert (E : fst (read_content (lit "a.md")
                     (World (<[lit "a.md" := bytes_of "x"]> ∅)
                        [Some PermissionError] [])) = inr (lit "x"))
    by (vm_compute; reflexivity).
  split; [split; [vm_compute; reflexivity | split; [exact E|]]|].
  - vm_compute. tauto.
  - intros H.
    specialize (H (World (<[lit "a.md" := bytes_of "x"]> ∅)
                         [Some PermissionError] [])
                  (lit "a.md") PermissionError).
    rewrite E in H. discriminate H; [vm_compute; reflexivity | discriminate].
Qed.

(** C8, amended.  A failure of the [utf-8] decoding is recovered by
    reading the file again as [latin1] and is not raised; the fallback runs
    after any exception of class [Exception] of the first attempt, so an
    error of the first attempt is raised only if it is not of that class,
    and otherwise the outcome is the outcome of the second attempt. *)
Theorem fallback_on_any_exception (p : str) (w : world) :
  (forall s, fst (read_text p Utf8 w) = inr s ->
     read_content p w = read_text p Utf8 w)
  /\ (forall e, fst (read_text p Utf8 w) = inl e ->
        read_content p w =
        if is_Exception e
        then read_text p Latin1 (snd (read_text p Utf8 w))
        else read_text p Utf8 w)
  /\ (forall b, faults w = [] -> files w !! p = Some b ->
        decode Utf8 b = None ->
        fst (read_content p w) =
        inr (universal_newlines (latin1_decode (List.map Byte.to_N b)))).
Proof.
  split; [|split].
  - intros s H. unfold read_content, try_except.
    destruct (read_text p Utf8 w) as [[e|s'] w1]; [discriminate | reflexivity].
  - intros e H. unfold read_content, try_except.
    destruct (read_text p Utf8 w) as [[e'|s'] w1]; [|discriminate].
    cbn [fst snd] in *. injection H as ->. reflexivity.
  - intros b Hf Hb Hd.
    destruct (read_content_clean p w Hf) as (l & El & _).
    rewrite El, Hb. unfold read_pure. rewrite Hd. reflexivity.
Qed.

Lemma fallback_on_any_exception_witness :
  fst (read_content (lit "a.md")
         (World (<[lit "a.md" := ["233"%byte]]> ∅) [] [])) = inr [233].
Proof.
  destruct (fallback_on_any_exception (lit "a.md")
              (World (<[lit "a.md" := ["233"%byte]]> ∅) [] []))
    as (_ & _ & H).
  apply (H ["233"%byte]); vm_compute; reflexivity.
Defined.

(** C9. The command line: with fewer than the two required arguments the
    program prints the usage text and exits with status 1; with both it
    goes on with them, and with the third argument as the credential if
    there is one, none otherwise. *)
Theorem main_arguments (script : str) (args : list str) :
  ((length args < 2)%nat ->
     main (script :: args) =
     SysExit 1
       [lit "Usage: python copy_wiki.py <source_repo> <destination_repo> [github_token]";
        lit "Example: python copy_wiki.py user1/source-repo user2/dest-repo ghp_XXXXXXX"])
  /\ (forall src dst more, args = src :: dst :: more ->
        main (script :: args) = CopyWiki src dst (head more))
  /\ main [] =
     SysExit 1
       [lit "Usage: python copy_wiki.py <source_repo> <destination_repo> [github_token]";
        lit "Example: python copy_wiki.py user1/source-repo user2/dest-repo ghp_XXXXXXX"].
Proof.
  split; [|split].
  - intros H. destruct args as [|a [|b args]]; simpl in H; try lia; reflexivity.
  - intros src dst more ->. destruct more; reflexivity.
  - reflexivity.
Qed.

Lemma main_arguments_witness :
  main [lit "copy_wiki.py"; lit "a/src"] =
  SysExit 1
    [lit "Usage: python copy_wiki.py <source_repo> <destination_repo> [github_token]";
     lit "Example: python copy_wiki.py user1/source-repo user2/dest-repo ghp_XXXXXXX"]
  /\ main [lit "copy_wiki.py"; lit "a/src"; lit "b/dst"] =
     CopyWiki (lit "a/src") (lit "b/dst") None
  /\ main [lit "copy_wiki.py"; lit "a/src"; lit "b/dst"; lit "tok"] =
     CopyWiki (lit "a/src") (lit "b/dst") (Some (lit "tok")).
Proof.
  split; [|split].
  - destruct (main_arguments (lit "copy_wiki.py") [lit "a/src"])
      as (H & _ & _).
    apply H. simpl. lia.
  - destruct (main_arguments (lit "copy_wiki.py") [lit "a/src"; lit "b/dst"])
      as (_ & H & _).
    apply (H (lit "a/src") (lit "b/dst") []). reflexivity.
  - destruct (main_arguments (lit "copy_wiki.py")
                [lit "a/src"; lit "b/dst"; lit "tok"]) as (_ & H & _).
    apply (H (lit "a/src") (lit "b/dst") [lit "tok"]). reflexivity.
Defined.

End ScanReport.

(** * The matcher against the patterns as descriptions *)

Section Soundness.

Lemma rmatch_Chr cl st k :
  rmatch (Chr cl) st k =
  match rest st with
  | c :: s => if accepts cl c then k (step c s st) else None
  | [] => None
  end.
Proof. reflexivity. Qed.

Lemma rmatch_Star_loop g a st k :
  rmatch (Star g a) st k = star_loop (rmatch a) g k (length (rest st)) st.
Proof. reflexivity. Qed.

Lemma orelse_some {A} (x y : option A) m :
  orelse x y = Some m -> x = Some m \/ y = Some m.
Proof. destruct x; simpl; auto. Qed.

Lemma star_loop_sound g a k :
  (forall st j m, rmatch a st j = Some m ->
     exists st', derives a st st' /\ j st' = Some m) ->
  forall n st m,
    star_loop (rmatch a) g k n st = Some m ->
    exists st', derives (Star g a) st st' /\ k st' = Some m.
Proof.
  intros Ha n; induction n as [|n IH]; intros st m H; simpl in H.
  - exists st. split; [constructor | exact H].
  - assert (Hnow : k st = Some m ->
              exists st', derives (Star g a) st st' /\ k st' = Some m).
    { intros E. exists st. split; [constructor | exact E]. }
    assert (Hagain :
      rmatch a st (fun st' =>
        if shorter st' st then star_loop (rmatch a) g k n st' else None)
      = Some m ->
      exists st', derives (Star g a) st st' /\ k st' = Some m).
    { intros E. apply Ha in E as (st1 & D1 & E1).
      destruct (shorter st1 st) eqn:Es; [|discriminate].
      apply IH in E1 as (st2 & D2 & E2).
      exists st2. split; [|exact E2].
      apply (D_StarS g a st st1 st2 D1 Es D2). }
    destruct g; apply orelse_some in H as [H | H]; auto.
Qed.

(** Soundness: a match of the matcher is a reading of the pattern, and
    the result is the continuation's at the position reached. *)
Lemma rmatch_sound r : forall st k m,
  rmatch r st k = Some m ->
  exists st', derives r st st' /\ k st' = Some m.
Proof.
  induction r as [|cl|a IHa b IHb|a IHa b IHb|g a IHa|i a IHa| |];
    intros st k m H.
  - exists st. split; [constructor | exact H].
  - rewrite rmatch_Chr in H. destruct (rest st) as [|c s] eqn:E; [discriminate|].
    destruct (accepts cl c) eqn:Ec; [|discriminate].
    exists (step c s st). split; [constructor; assumption | exact H].
  - rewrite rmatch_Seq in H. apply IHa in H as (st1 & D1 & H).
    apply IHb in H as (st2 & D2 & H).
    exists st2. split; [econstructor; eassumption | exact H].
  - rewrite rmatch_Alt in H. apply orelse_some in H as [H | H].
    + apply IHa in H as (st1 & D1 & H). exists st1. split; [apply D_AltL, D1 | exact H].
    + apply IHb in H as (st1 & D1 & H). exists st1. split; [apply D_AltR, D1 | exact H].
  - rewrite rmatch_Star_loop in H. apply (star_loop_sound g a k IHa) in H. exact H.
  - rewrite rmatch_Group in H. apply IHa in H as (st1 & D1 & H).
    exists (close_group i st st1). split; [constructor; exact D1 | exact H].
  - rewrite rmatch_Bol in H. destruct (at_bol st) eqn:E; [|discriminate].
    exists st. split; [constructor; exact E | exact H].
  - rewrite rmatch_Eol in H. destruct (at_eol st) eqn:E; [|discriminate].
    exists st. split; [constructor; exact E | exact H].
Qed.

(** Completeness: when some reading of the pattern reaches a position the
    continuation accepts, the matcher does not fail. *)
Lemma rmatch_complete r st st' :
  derives r st st' ->
  forall k, k st' <> None -> rmatch r st k <> None.
Proof.
  induction 1 as [st | cl st c s E Ec | a b st1 st2 st3 D1 IH1 D2 IH2
                 | a b st st' D IH | a b st st' D IH
                 | g a st | g a st1 st2 st3 D1 IH1 Es D2 IH2
                 | i a st st' D IH | st E | st E]; intros k Hk.
  - exact Hk.
  - rewrite rmatch_Chr, E, Ec. exact Hk.
  - rewrite rmatch_Seq. apply IH1. apply IH2, Hk.
  - rewrite rmatch_Alt. specialize (IH k Hk).
    destruct (rmatch a st k); [discriminate | contradiction].
  - rewrite rmatch_Alt. specialize (IH k Hk).
    destruct (rmatch a st k); [discriminate | exact IH].
  - rewrite rmatch_Star; cbv zeta.
    destruct g; [destruct (rmatch a st _); [discriminate | exact Hk]|].
    destruct (k st); [discriminate | contradiction].
  - rewrite rmatch_Star; cbv zeta.
    assert (Hagain :
      rmatch a st1 (fun st' =>
        if shorter st' st1 then rmatch (Star g a) st' k else None) <> None).
    { apply IH1. rewrite Es. apply IH2, Hk. }
    destruct g.
    + destruct (rmatch a st1 _); [discriminate | contradiction].
    + destruct (k st1); [discriminate | exact Hagain].
  - rewrite rmatch_Group. apply IH. exact Hk.
  - rewrite rmatch_Bol, E. exact Hk.
  - rewrite rmatch_Eol, E. exact Hk.
Qed.

End Soundness.

(** ** What a reading of a pattern has read *)

Section Reading.

Lemma reads_refl st : reads st [] [] st.
Proof. split; reflexivity. Qed.

Lemma reads_trans st a g st1 b h st2 :
  reads st a g st1 -> reads st1 b h st2 -> reads st (a ++ b) (h ++ g) st2.
Proof.
  intros [E1 C1] [E2 C2]. split.
  - rewrite E1, E2. apply app_assoc.
  - rewrite C2, C1. apply app_assoc.
Qed.

Lemma reads_between st a g st' : reads st a g st' -> between st st' = a.
Proof.
  intros [E _]. unfold between. rewrite E, length_app.
  replace (length a + length (rest st') - length (rest st'))%nat
    with (length a) by lia.
  rewrite firstn_app, firstn_all, Nat.sub_diag. simpl. apply app_nil_r.
Qed.

Lemma reads_group i st a g st1 :
  reads st a g st1 -> reads st a ((i, a) :: g) (close_group i st st1).
Proof.
  intros H. pose proof (reads_between _ _ _ _ H) as Eb.
  destruct H as [E C]. split.
  - exact E.
  - unfold close_group. cbn [caps]. rewrite Eb, C. reflexivity.
Qed.

Lemma derives_Seq_inv a b st st' :
  derives (Seq a b) st st' ->
  exists st1, derives a st st1 /\ derives b st1 st'.
Proof. inversion 1; subst. eauto. Qed.

Lemma derives_Alt_inv a b st st' :
  derives (Alt a b) st st' -> derives a st st' \/ derives b st st'.
Proof. inversion 1; subst; auto. Qed.

Lemma derives_Eps_inv st st' : derives Eps st st' -> st' = st.
Proof. inversion 1; reflexivity. Qed.

Lemma derives_Bol_inv st st' :
  derives Bol st st' -> st' = st /\ at_bol st = true.
Proof. inversion 1; subst; auto. Qed.

Lemma derives_Eol_inv st st' :
  derives Eol st st' -> st' = st /\ at_eol st = true.
Proof. inversion 1; subst; auto. Qed.

Lemma derives_Group_inv i a st st' :
  derives (Group i a) st st' ->
  exists st1, derives a st st1 /\ st' = close_group i st st1.
Proof. inversion 1; subst. eauto. Qed.

Lemma derives_Chr_reads cl st st' :
  derives (Chr cl) st st' ->
  exists c, accepts cl c = true /\ reads st [c] [] st'.
Proof.
  inversion 1; subst. exists c. split; [assumption|].
  split; [assumption | reflexivity].
Qed.

Lemma derives_star_class g cl st st' :
  derives (Star g (Chr cl)) st st' ->
  exists a, forallb (accepts cl) a = true /\ reads st a [] st'.
Proof.
  intros H. remember (Star g (Chr cl)) as r eqn:Er.
  induction H; try discriminate; injection Er as -> ->.
  - exists []. split; [reflexivity | apply reads_refl].
  - destruct (derives_Chr_reads _ _ _ H) as (c & Hc & R1).
    destruct (IHderives2 eq_refl) as (a & Ha & R2).
    exists ([c] ++ a). split.
    + simpl. rewrite Hc, Ha. reflexivity.
    + apply (reads_trans _ _ _ _ _ _ _ R1 R2).
Qed.

Lemma derives_plus_class g cl st st' :
  derives (Plus g (Chr cl)) st st' ->
  exists a, a <> [] /\ forallb (accepts cl) a = true /\ reads st a [] st'.
Proof.
  intros H. apply derives_Seq_inv in H as (st1 & H1 & H2).
  destruct (derives_Chr_reads _ _ _ H1) as (c & Hc & R1).
  destruct (derives_star_class _ _ _ _ H2) as (a & Ha & R2).
  exists ([c] ++ a). split; [discriminate|]. split.
  - simpl. rewrite Hc, Ha. reflexivity.
  - apply (reads_trans _ _ _ _ _ _ _ R1 R2).
Qed.

Lemma derives_Str l : forall st st',
  derives (Str l) st st' -> reads st l [] st'.
Proof.
  induction l as [|c l IH]; intros st st' H; simpl in H.
  - apply derives_Eps_inv in H as ->. apply reads_refl.
  - apply derives_Seq_inv in H as (st1 & H1 & H2).
    destruct (derives_Chr_reads _ _ _ H1) as (d & Hd & R1).
    simpl in Hd. apply N.eqb_eq in Hd as ->.
    apply (reads_trans _ _ _ _ _ _ _ R1 (IH _ _ H2)).
Qed.

Lemma derives_rel_body st st' :
  derives rel_body st st' -> exists sg, reads st (seg_text sg) [] st'.
Proof.
  intros H. apply derives_Alt_inv in H as [H | H]; apply derives_Str in H.
  - exists Up. exact H.
  - exists Here. exact H.
Qed.

Lemma derives_rel_star st st' :
  derives (Star true rel_body) st st' ->
  exists segs, reads st (rel_path segs) [] st'.
Proof.
  intros H. remember (Star true rel_body) as r eqn:Er.
  induction H; try discriminate; injection Er as -> ->.
  - exists []. apply reads_refl.
  - destruct (derives_rel_body _ _ H) as (sg & R1).
    destruct (IHderives2 eq_refl) as (segs & R2).
    exists (sg :: segs). apply (reads_trans _ _ _ _ _ _ _ R1 R2).
Qed.

Lemma derives_rel_prefix st st' :
  derives rel_prefix st st' ->
  exists segs, segs <> [] /\ reads st (rel_path segs) [] st'.
Proof.
  intros H. apply derives_Seq_inv in H as (st1 & H1 & H2).
  destruct (derives_rel_body _ _ H1) as (sg & R1).
  destruct (derives_rel_star _ _ H2) as (segs & R2).
  exists (sg :: segs). split; [discriminate|].
  apply (reads_trans _ _ _ _ _ _ _ R1 R2).
Qed.

Lemma derives_ws_star st st' :
  derives ws_star st st' -> exists W, blank W /\ reads st W [] st'.
Proof.
  intros H. apply derives_star_class in H as (a & Ha & R).
  exists a. split; [exact Ha | exact R].
Qed.

End Reading.

(** ** The shape of every match of the inline pattern *)

Section InlineShape.

Lemma notin1_no_char c a :
  forallb (accepts (NotIn [One c])) a = true -> no_char c a = true.
Proof.
  apply forallb_imp. intros x Hx. unfold accepts, existsb, item_mem in Hx.
  rewrite orb_false_r in Hx. exact Hx.
Qed.

Lemma notin2_no_char c d a :
  forallb (accepts (NotIn [One c; One d])) a = true ->
  no_char c a = true /\ no_char d a = true.
Proof.
  intros H. split; revert H; apply forallb_imp; intros x Hx;
    unfold accepts, existsb, item_mem in Hx; rewrite orb_false_r in Hx;
    apply negb_true_iff in Hx; apply orb_false_iff in Hx as [E1 E2];
    apply negb_true_iff; assumption.
Qed.

Lemma notin_sp_no_char c a :
  forallb (accepts (NotIn [One c; Space])) a = true ->
  no_char c a = true /\ no_space a = true.
Proof.
  intros H. split; revert H; apply forallb_imp; intros x Hx;
    unfold accepts, existsb, item_mem in Hx; rewrite orb_false_r in Hx;
    apply negb_true_iff in Hx; apply orb_false_iff in Hx as [E1 E2];
    apply negb_true_iff; assumption.
Qed.

Lemma derives_label st st' :
  derives label_re st st' ->
  exists L, label_ok L /\ reads st L [(1%nat, L)] st'.
Proof.
  intros H. apply derives_Group_inv in H as (st1 & H & ->).
  apply derives_plus_class in H as (L & HL & Hc & R).
  exists L. split; [split; [exact HL | apply notin1_no_char, Hc]|].
  apply reads_group, R.
Qed.

Lemma derives_char c st st' :
  derives (Chr (Char c)) st st' -> reads st [c] [] st'.
Proof.
  intros H. apply derives_Chr_reads in H as (d & Hd & R).
  simpl in Hd. apply N.eqb_eq in Hd as ->. exact R.
Qed.

Lemma derives_inline_path st st' :
  derives (Group 2 (Seq (Chr (NotIn [One 41; One 35; Space]))
                        (Star false (Chr (NotIn [One 41; One 35])))))
    st st' ->
  exists X, head_nonspace X = true /\ no_char 41 X = true
            /\ no_char 35 X = true /\ reads st X [(2%nat, X)] st'.
Proof.
  intros H. apply derives_Group_inv in H as (st1 & H & ->).
  apply derives_Seq_inv in H as (st2 & H1 & H2).
  apply derives_Chr_reads in H1 as (c & Hc & R1).
  apply derives_star_class in H2 as (a & Ha & R2).
  apply notin2_no_char in Ha as [A1 A2].
  unfold accepts, existsb, item_mem in Hc. rewrite orb_false_r in Hc.
  apply negb_true_iff in Hc. apply orb_false_iff in Hc as [C1 C2].
  apply orb_false_iff in C2 as [C2 C3].
  exists (c :: a). repeat split.
  - simpl. rewrite C3. reflexivity.
  - simpl. rewrite C1, A1. reflexivity.
  - simpl. rewrite C2, A2. reflexivity.
  - apply (reads_trans _ _ _ _ _ _ _ R1 R2).
  - unfold close_group. cbn [caps].
    rewrite (reads_between _ _ _ _ (reads_trans _ _ _ _ _ _ _ R1 R2)).
    destruct R1 as [_ E1], R2 as [_ E2]. rewrite E2, E1. reflexivity.
Qed.

Lemma derives_inline_anchor st st' :
  derives (Opt (Group 3 (Seq (Chr (Char 35))
                             (Plus true (Chr (NotIn [One 41; Space]))))))
    st st' ->
  exists o, inline_anchor_ok o /\
    reads st (anchor_text o)
      (match o with Some _ => [(3%nat, anchor_text o)] | None => [] end) st'.
Proof.
  intros H. apply derives_Alt_inv in H as [H | H].
  - apply derives_Group_inv in H as (st1 & H & ->).
    apply derives_Seq_inv in H as (st2 & H1 & H2).
    apply derives_char in H1.
    apply derives_plus_class in H2 as (sec & Hs & Hc & R2).
    apply notin_sp_no_char in Hc as [C1 C2].
    exists (Some sec). split; [repeat split; assumption|].
    apply reads_group. apply (reads_trans _ _ _ _ _ _ _ H1 R2).
  - apply derives_Eps_inv in H as ->. exists None.
    split; [exact I | apply reads_refl].
Qed.

Lemma derives_inline_tail st st' :
  derives inline_tail st st' ->
  exists o W3, inline_anchor_ok o /\ blank W3 /\
    reads st (anchor_text o ++ W3 ++ [41])
      (match o with Some _ => [(3%nat, anchor_text o)] | None => [] end) st'.
Proof.
  intros H. apply derives_Seq_inv in H as (st1 & H1 & H).
  apply derives_Seq_inv in H as (st2 & H2 & H3).
  apply derives_inline_anchor in H1 as (o & Ho & R1).
  apply derives_ws_star in H2 as (W3 & HW & R2).
  apply derives_char in H3.
  exists o, W3. split; [exact Ho|]. split; [exact HW|].
  pose proof (reads_trans _ _ _ _ _ _ _ R1
                (reads_trans _ _ _ _ _ _ _ R2 H3)) as R.
  cbn [app] in R. rewrite ?app_nil_r in R. exact R.
Qed.

Lemma derives_inline_after st st' :
  derives inline_after_label st st' ->
  exists W1 segs W2 X o W3,
    blank W1 /\ segs <> [] /\ blank W2 /\ inline_path_shape X /\
    inline_anchor_ok o /\ blank W3 /\
    reads st (40 :: W1 ++ rel_path segs ++ W2 ++ X ++ anchor_text o
                 ++ W3 ++ [41])
      (match o with
       | Some _ => [(3%nat, anchor_text o); (2%nat, X)]
       | None => [(2%nat, X)]
       end) st'.
Proof.
  intros H. apply derives_Seq_inv in H as (s1 & H1 & H).
  apply derives_Seq_inv in H as (s2 & H2 & H).
  apply derives_Seq_inv in H as (s3 & H3 & H).
  apply derives_Seq_inv in H as (s4 & H4 & H).
  apply derives_Seq_inv in H as (s5 & H5 & H6).
  apply derives_char in H1.
  apply derives_ws_star in H2 as (W1 & HW1 & R2).
  apply derives_rel_prefix in H3 as (segs & Hsegs & R3).
  apply derives_ws_star in H4 as (W2 & HW2 & R4).
  apply derives_inline_path in H5 as (X & X1 & X2 & X3 & R5).
  apply derives_inline_tail in H6 as (o & W3 & Ho & HW3 & R6).
  exists W1, segs, W2, X, o, W3.
  split; [exact HW1|]. split; [exact Hsegs|]. split; [exact HW2|].
  split; [repeat split; assumption|]. split; [exact Ho|].
  split; [exact HW3|].
  pose proof (reads_trans _ _ _ _ _ _ _ H1
             (reads_trans _ _ _ _ _ _ _ R2
             (reads_trans _ _ _ _ _ _ _ R3
             (reads_trans _ _ _ _ _ _ _ R4
             (reads_trans _ _ _ _ _ _ _ R5 R6))))) as R.
  cbn [app] in R. rewrite ?app_nil_r in R.
  destruct o; exact R.
Qed.

(** Every reading of the inline pattern reads a link with a relative
    prefix, and closes the groups of its label, path and anchor. *)
Lemma derives_inline st st' :
  derives LINK_INLINE_RE st st' ->
  exists L W1 segs W2 X o W3,
    label_ok L /\ blank W1 /\ segs <> [] /\ blank W2 /\
    inline_path_shape X /\ inline_anchor_ok o /\ blank W3 /\
    reads st (inline_span L W1 segs W2 X o W3)
      (inline_caps L X o) st'.
Proof.
  rewrite LINK_INLINE_RE_split. intros H.
  apply derives_Seq_inv in H as (s1 & H1 & H).
  apply derives_Seq_inv in H as (s2 & H2 & H).
  apply derives_Seq_inv in H as (s3 & H3 & H4).
  apply derives_char in H1.
  apply derives_label in H2 as (L & HL & R2).
  apply derives_char in H3.
  apply derives_inline_after in H4
    as (W1 & segs & W2 & X & o & W3 & HW1 & Hs & HW2 & HX & Ho & HW3 & R4).
  exists L, W1, segs, W2, X, o, W3.
  repeat (split; [assumption|]).
  pose proof (reads_trans _ _ _ _ _ _ _ H1
             (reads_trans _ _ _ _ _ _ _ R2
             (reads_trans _ _ _ _ _ _ _ H3 R4))) as R.
  unfold inline_span, inline_caps. unlit.
  rewrite <- ?app_assoc in R. cbn [app] in R. rewrite ?app_nil_r in R.
  rewrite <- ?app_assoc. cbn [app].
  destruct o; exact R.
Qed.

Lemma inline_repl_caps L X o p R :
  _replace_inline_match (MState p R (inline_caps L X o)) =
  inline_link L (strip X ++ anchor_text o).
Proof.
  unfold _replace_inline_match, group, inline_link.
  destruct o; cbn [caps inline_caps group_in Nat.eqb option_map fmt or_empty];
    rewrite <- ?app_assoc; reflexivity.
Qed.

(** The anatomy of a match of the inline pattern at any position of any
    text. *)
Lemma inline_anatomy p s m :
  match_at LINK_INLINE_RE p s = Some m ->
  exists L W1 segs W2 X o W3,
    label_ok L /\ blank W1 /\ segs <> [] /\ blank W2 /\
    inline_path_shape X /\ inline_anchor_ok o /\ blank W3 /\
    s = inline_span L W1 segs W2 X o W3 ++ rest m /\
    caps m = inline_caps L X o.
Proof.
  intros H. apply rmatch_sound in H as (st' & D & E). injection E as ->.
  apply derives_inline in D
    as (L & W1 & segs & W2 & X & o & W3 & HL & HW1 & Hs & HW2 & HX & Ho
        & HW3 & R1 & R2).
  exists L, W1, segs, W2, X, o, W3.
  cbn [rest caps] in R1, R2. rewrite app_nil_r in R2.
  repeat (split; [assumption|]). exact R2.
Qed.

End InlineShape.

(** ** The shape of every match of the reference pattern *)

Section RefShape.

Lemma notin_sp1_no_space a :
  forallb (accepts (NotIn [Space])) a = true -> no_space a = true.
Proof.
  apply forallb_imp. intros x Hx. unfold accepts, existsb, item_mem in Hx.
  rewrite orb_false_r in Hx. exact Hx.
Qed.

Lemma notin_sp_hash a :
  forallb (accepts (NotIn [Space; One 35])) a = true ->
  no_space a = true /\ no_char 35 a = true.
Proof.
  intros H. split; revert H; apply forallb_imp; intros x Hx;
    unfold accepts, existsb, item_mem in Hx; rewrite orb_false_r in Hx;
    apply negb_true_iff in Hx; apply orb_false_iff in Hx as [E1 E2];
    apply negb_true_iff; assumption.
Qed.

Lemma derives_ref_path st st' :
  derives (Group 2 (Seq (Chr (NotIn [Space; One 35]))
                        (Star true (Chr (NotIn [Space; One 35])))))
    st st' ->
  exists X, ref_path_shape X /\ reads st X [(2%nat, X)] st'.
Proof.
  intros H. apply derives_Group_inv in H as (st1 & H & ->).
  apply derives_plus_class in H as (X & HX & Hc & R).
  apply notin_sp_hash in Hc as [C1 C2].
  exists X. split; [repeat split; assumption|].
  apply reads_group, R.
Qed.

Lemma derives_ref_anchor st st' :
  derives (Opt (Group 3 (Seq (Chr (Char 35))
                             (Plus true (Chr (NotIn [Space]))))))
    st st' ->
  exists o, ref_anchor_ok o /\
    reads st (anchor_text o)
      (match o with Some _ => [(3%nat, anchor_text o)] | None => [] end) st'.
Proof.
  intros H. apply derives_Alt_inv in H as [H | H].
  - apply derives_Group_inv in H as (st1 & H & ->).
    apply derives_Seq_inv in H as (st2 & H1 & H2).
    apply derives_char in H1.
    apply derives_plus_class in H2 as (sec & Hs & Hc & R2).
    apply notin_sp1_no_space in Hc.
    exists (Some sec). split; [split; assumption|].
    apply reads_group. apply (reads_trans _ _ _ _ _ _ _ H1 R2).
  - apply derives_Eps_inv in H as ->. exists None.
    split; [exact I | apply reads_refl].
Qed.

Lemma oneof_quote c :
  accepts (OneOf [One 34; One 39]) c = true -> is_quote c = true.
Proof.
  unfold accepts, existsb, item_mem, is_quote. unlit.
  rewrite orb_false_r. trivial.
Qed.

Lemma dot_no_nl a : forallb (accepts Dot) a = true -> no_char 10 a = true.
Proof. apply forallb_imp. intros x Hx. exact Hx. Qed.

Lemma derives_title st st' :
  derives (Opt title_re) st st' ->
  exists t, title_ok t /\ reads st (title_text t) [] st'.
Proof.
  intros H. apply derives_Alt_inv in H as [H | H].
  - apply derives_Seq_inv in H as (s1 & H1 & H).
    apply derives_Seq_inv in H as (s2 & H2 & H).
    apply derives_Seq_inv in H as (s3 & H3 & H4).
    apply derives_plus_class in H1 as (gap & G1 & G2 & R1).
    apply derives_Chr_reads in H2 as (q1 & Q1 & R2).
    apply derives_plus_class in H3 as (txt & T1 & T2 & R3).
    apply derives_Chr_reads in H4 as (q2 & Q2 & R4).
    exists (Some (Title gap q1 txt q2)). split.
    + cbn [title_ok t_gap t_open t_text t_close].
      split; [exact G1|]. split; [exact G2|].
      split; [apply oneof_quote, Q1|]. split; [apply oneof_quote, Q2|].
      split; [exact T1 | apply dot_no_nl, T2].
    + pose proof (reads_trans _ _ _ _ _ _ _ R1
                 (reads_trans _ _ _ _ _ _ _ R2
                 (reads_trans _ _ _ _ _ _ _ R3 R4))) as R.
      cbn [app] in R. cbn [title_text t_gap t_open t_text t_close].
      exact R.
  - apply derives_Eps_inv in H as ->. exists None.
    split; [exact I | apply reads_refl].
Qed.

Lemma derives_ref_tail st st' :
  derives ref_tail st st' ->
  exists o t W3, ref_anchor_ok o /\ title_ok t /\ blank W3 /\
    at_eol st' = true /\
    reads st (anchor_text o ++ title_text t ++ W3)
      (match o with Some _ => [(3%nat, anchor_text o)] | None => [] end) st'.
Proof.
  intros H. apply derives_Seq_inv in H as (s1 & H1 & H).
  apply derives_Seq_inv in H as (s2 & H2 & H).
  apply derives_Seq_inv in H as (s3 & H3 & H4).
  apply derives_ref_anchor in H1 as (o & Ho & R1).
  apply derives_title in H2 as (t & Ht & R2).
  apply derives_ws_star in H3 as (W3 & HW & R3).
  apply derives_Eol_inv in H4 as [-> He].
  exists o, t, W3. repeat (split; [assumption|]).
  pose proof (reads_trans _ _ _ _ _ _ _ R1
             (reads_trans _ _ _ _ _ _ _ R2 R3)) as R.
  cbn [app] in R. rewrite ?app_nil_r in R. exact R.
Qed.

Lemma derives_ref_after st st' :
  derives ref_after_label st st' ->
  exists W1 segs W2 X o t W3,
    blank W1 /\ segs <> [] /\ blank W2 /\ ref_path_shape X /\
    ref_anchor_ok o /\ title_ok t /\ blank W3 /\ at_eol st' = true /\
    reads st (58 :: W1 ++ rel_path segs ++ W2 ++ X ++ anchor_text o
                 ++ title_text t ++ W3)
      (match o with
       | Some _ => [(3%nat, anchor_text o); (2%nat, X)]
       | None => [(2%nat, X)]
       end) st'.
Proof.
  intros H. apply derives_Seq_inv in H as (s1 & H1 & H).
  apply derives_Seq_inv in H as (s2 & H2 & H).
  apply derives_Seq_inv in H as (s3 & H3 & H).
  apply derives_Seq_inv in H as (s4 & H4 & H).
  apply derives_Seq_inv in H as (s5 & H5 & H6).
  apply derives_char in H1.
  apply derives_ws_star in H2 as (W1 & HW1 & R2).
  apply derives_rel_prefix in H3 as (segs & Hsegs & R3).
  apply derives_ws_star in H4 as (W2 & HW2 & R4).
  apply derives_ref_path in H5 as (X & HX & R5).
  apply derives_ref_tail in H6 as (o & t & W3 & Ho & Ht & HW3 & He & R6).
  exists W1, segs, W2, X, o, t, W3.
  repeat (split; [assumption|]).
  pose proof (reads_trans _ _ _ _ _ _ _ H1
             (reads_trans _ _ _ _ _ _ _ R2
             (reads_trans _ _ _ _ _ _ _ R3
             (reads_trans _ _ _ _ _ _ _ R4
             (reads_trans _ _ _ _ _ _ _ R5 R6))))) as R.
  cbn [app] in R. rewrite ?app_nil_r in R.
  destruct o; exact R.
Qed.

(** Every reading of the reference pattern starts at the beginning of a
    line, reads a definition with a relative prefix, and stops at the end
    of a line. *)
Lemma derives_ref st st' :
  derives REF_LINK_RE st st' ->
  exists W0 L W1 segs W2 X o t W3,
    blank W0 /\ label_ok L /\ blank W1 /\ segs <> [] /\ blank W2 /\
    ref_path_shape X /\ ref_anchor_ok o /\ title_ok t /\ blank W3 /\
    at_bol st = true /\ at_eol st' = true /\
    reads st (ref_span W0 L W1 segs W2 X o t W3) (inline_caps L X o) st'.
Proof.
  rewrite REF_LINK_RE_split. unfold ref_bracket. intros H.
  apply derives_Seq_inv in H as (s0 & H0 & H).
  apply derives_Seq_inv in H as (s1 & Hw & H).
  apply derives_Seq_inv in H as (s2 & H1 & H).
  apply derives_Seq_inv in H as (s3 & H2 & H).
  apply derives_Seq_inv in H as (s4 & H3 & H4).
  apply derives_Bol_inv in H0 as [-> Hb].
  apply derives_ws_star in Hw as (W0 & HW0 & R0).
  apply derives_char in H1.
  apply derives_label in H2 as (L & HL & R2).
  apply derives_char in H3.
  apply derives_ref_after in H4
    as (W1 & segs & W2 & X & o & t & W3 & HW1 & Hs & HW2 & HX & Ho & Ht
        & HW3 & He & R4).
  exists W0, L, W1, segs, W2, X, o, t, W3.
  repeat (split; [assumption|]).
  pose proof (reads_trans _ _ _ _ _ _ _ R0
             (reads_trans _ _ _ _ _ _ _ H1
             (reads_trans _ _ _ _ _ _ _ R2
             (reads_trans _ _ _ _ _ _ _ H3 R4)))) as R.
  unfold ref_span, inline_caps. unlit.
  rewrite <- ?app_assoc in R. cbn [app] in R. rewrite ?app_nil_r in R.
  rewrite <- ?app_assoc. cbn [app].
  destruct o; exact R.
Qed.

Lemma ref_repl_caps L X o p R :
  no_space X = true ->
  _replace_ref_match (MState p R (inline_caps L X o)) =
  lit "[" ++ L ++ lit "]: " ++ X ++ anchor_text o.
Proof.
  intros HX. unfold _replace_ref_match, group.
  destruct o; cbn [caps inline_caps group_in Nat.eqb option_map fmt or_empty];
    rewrite (no_space_strip X HX), <- ?app_assoc, ?app_nil_r; reflexivity.
Qed.

(** The anatomy of a match of the reference pattern at any position of
    any text. *)
Lemma ref_anatomy p s m :
  match_at REF_LINK_RE p s = Some m ->
  exists W0 L W1 segs W2 X o t W3,
    blank W0 /\ label_ok L /\ blank W1 /\ segs <> [] /\ blank W2 /\
    ref_path_shape X /\ ref_anchor_ok o /\ title_ok t /\ blank W3 /\
    at_bol (MState p s []) = true /\ at_eol m = true /\
    s = ref_span W0 L W1 segs W2 X o t W3 ++ rest m /\
    caps m = inline_caps L X o.
Proof.
  intros H. apply rmatch_sound in H as (st' & D & E). injection E as ->.
  apply derives_ref in D
    as (W0 & L & W1 & segs & W2 & X & o & t & W3 & HW0 & HL & HW1 & Hs & HW2
        & HX & Ho & Ht & HW3 & Hb & He & R1 & R2).
  exists W0, L, W1, segs, W2, X, o, t, W3.
  cbn [rest caps] in R1, R2. rewrite app_nil_r in R2.
  repeat (split; [assumption|]). exact R2.
Qed.

End RefShape.

(** ** The substitution, whatever the text *)

Section SubnAny.

Variable re : regex.
Variable repl : mstate -> str.

(** Every match of the pattern takes at least one character. *)
Hypothesis takes :
  forall p s m, match_at re p s = Some m ->
    exists a, a <> [] /\ s = a ++ rest m.

Lemma takes_nil p : match_at re p [] = None.
Proof.
  destruct (match_at re p []) as [m|] eqn:E; [|reflexivity].
  destruct (takes p [] m E) as (a & Ha & Ea).
  destruct a; [congruence | discriminate].
Qed.

(** An induction principle for the result of the substitution: the empty
    text, a character that is copied, a match that is replaced. *)
Lemma subn_from_shape (Q : option N -> str -> str * nat -> Prop) :
  (forall p, Q p [] ([], O)) ->
  (forall p c s out n,
     match_at re p (c :: s) = None ->
     Q (Some c) s (out, n) -> Q p (c :: s) (c :: out, n)) ->
  (forall p a R m out n,
     a <> [] -> match_at re p (a ++ R) = Some m -> rest m = R ->
     Q (prev_after p a) R (out, n) -> Q p (a ++ R) (repl m ++ out, S n)) ->
  forall s p, Q p s (subn_from re repl p s O).
Proof.
  intros Qnil Qpass Qhit s.
  remember (length s) as k eqn:Ek.
  assert (Hk : (length s <= k)%nat) by lia. clear Ek. revert s Hk.
  induction k as [|k IH]; intros s Hk p.
  - destruct s; [|simpl in Hk; lia].
    cbn [subn_from]. rewrite takes_nil. apply Qnil.
  - destruct s as [|c s].
    + cbn [subn_from]. rewrite takes_nil. apply Qnil.
    + destruct (match_at re p (c :: s)) as [m|] eqn:E.
      * destruct (takes p _ m E) as (a & Ha & Ea).
        rewrite Ea in E |- *.
        rewrite (subn_from_hit re repl a (rest m) p m Ha E eq_refl).
        pose proof (IH (rest m)) as IHm.
        assert (Hl : (length (rest m) <= k)%nat).
        { assert (L := f_equal (@length N) Ea).
          rewrite length_app in L. simpl in L, Hk.
          destruct a; [congruence|]. simpl in L. lia. }
        specialize (IHm Hl (prev_after p a)).
        destruct (subn_from re repl (prev_after p a) (rest m) O) as [out n].
        apply (Qhit p a (rest m) m out n Ha E eq_refl IHm).
      * cbn [subn_from]. rewrite E.
        pose proof (IH s ltac:(simpl in Hk; lia) (Some c)) as IHs.
        destruct (subn_from re repl (Some c) s O) as [out n].
        apply (Qpass p c s out n E IHs).
Qed.

(** Without a replacement the text is returned as it is. *)
Lemma subn_zero_same s :
  snd (subn re repl s) = O -> fst (subn re repl s) = s.
Proof.
  unfold subn.
  apply (subn_from_shape
           (fun _ s r => snd r = O -> fst r = s)); cbn [fst snd].
  - reflexivity.
  - intros _ c s' out n _ IH E. rewrite (IH E). reflexivity.
  - intros; discriminate.
Qed.

(** Each replacement being shorter than the match by [d] characters or
    more, the text shrinks by [d] for every replacement. *)
Lemma subn_length d s :
  (forall p a m, match_at re p (a ++ rest m) = Some m ->
     (length (repl m) + d <= length a)%nat) ->
  (length (fst (subn re repl s)) + d * snd (subn re repl s)
   <= length s)%nat.
Proof.
  intros Hd. unfold subn.
  apply (subn_from_shape
           (fun _ s r => (length (fst r) + d * snd r <= length s)%nat));
    cbn [fst snd].
  - simpl. lia.
  - intros _ c s' out n _ IH. simpl. lia.
  - intros p a R m out n Ha E Er IH. subst R.
    specialize (Hd p a m E). rewrite !length_app. nia.
Qed.

(** The characters of the result are characters of the text, or
    characters the replacements bring. *)
Lemma subn_chars (P : N -> Prop) s :
  (forall p b m, match_at re p b = Some m ->
     forall c, In c (repl m) -> In c b \/ P c) ->
  forall c, In c (fst (subn re repl s)) -> In c s \/ P c.
Proof.
  intros Hr. unfold subn.
  apply (subn_from_shape
           (fun _ s r => forall c, In c (fst r) -> In c s \/ P c));
    cbn [fst].
  - intros _ c [].
  - intros _ c s' out n _ IH x [<- | Hx]; [left; left; reflexivity|].
    destruct (IH x Hx) as [H | H]; [left; right; exact H | right; exact H].
  - intros p a R m out n Ha E Er IH x Hx. apply in_app_or in Hx as [Hx | Hx].
    + apply (Hr p _ m E x Hx).
    + destruct (IH x Hx) as [H | H]; [left | right; exact H].
      apply in_or_app. right. exact H.
Qed.

(** The count is zero exactly when the pattern matches at no position of
    the text, each position taken with the character before it. *)
Lemma subn_zero_iff s :
  snd (subn re repl s) = O <->
  forall a b, s = a ++ b -> match_at re (prev_after None a) b = None.
Proof.
  unfold subn.
  apply (subn_from_shape
           (fun p s r =>
              snd r = O <->
              forall a b, s = a ++ b ->
                match_at re (prev_after p a) b = None)); cbn [snd].
  - intros p. split; [|reflexivity]. intros _ a b E.
    symmetry in E. apply app_eq_nil in E as [-> ->]. apply takes_nil.
  - intros p c s' out n Hnone IH. rewrite IH. split.
    + intros H [|x a] b E.
      * cbn [app] in E. subst b. exact Hnone.
      * cbn [app] in E. injection E as <- E.
        cbn [prev_after fold_left]. apply (H a b E).
    + intros H a b E. apply (H (c :: a) b). rewrite E. reflexivity.
  - intros p a R m out n Ha E Er _. split; [discriminate|].
    intros H. specialize (H [] (a ++ R) eq_refl).
    cbn [prev_after fold_left] in H. congruence.
Qed.

End SubnAny.

(** ** The two rules on any text *)

Section RulesAny.

Lemma strip_length s : (length (strip s) <= length s)%nat.
Proof.
  unfold strip, rstrip. rewrite length_rev.
  etransitivity; [apply lstrip_length|]. rewrite length_rev.
  apply lstrip_length.
Qed.

Lemma lstrip_in s c : In c (lstrip s) -> In c s.
Proof.
  induction s as [|d s IH]; simpl; [trivial|].
  destruct (is_space d); [intros H; right; apply IH, H | trivial].
Qed.

Lemma strip_in s c : In c (strip s) -> In c s.
Proof.
  unfold strip, rstrip. intros H. apply in_rev in H.
  apply lstrip_in in H. apply in_rev in H. apply lstrip_in, H.
Qed.

Lemma rel_path_length segs : segs <> [] -> (2 <= length (rel_path segs))%nat.
Proof.
  destruct segs as [|sg segs]; [congruence|]. intros _.
  cbn [rel_path flat_map]. rewrite length_app.
  destruct sg; unfold seg_text; unlit; simpl; lia.
Qed.

Lemma inline_takes p s m :
  match_at LINK_INLINE_RE p s = Some m ->
  exists a, a <> [] /\ s = a ++ rest m.
Proof.
  intros H. apply inline_anatomy in H
    as (L & W1 & segs & W2 & X & o & W3 & _ & _ & _ & _ & _ & _ & _ & E & _).
  exists (inline_span L W1 segs W2 X o W3). split; [|exact E].
  unfold inline_span. unlit. discriminate.
Qed.

Lemma ref_takes p s m :
  match_at REF_LINK_RE p s = Some m ->
  exists a, a <> [] /\ s = a ++ rest m.
Proof.
  intros H. apply ref_anatomy in H
    as (W0 & L & W1 & segs & W2 & X & o & t & W3 & _ & _ & _ & _ & _ & _ & _
        & _ & _ & _ & _ & E & _).
  exists (ref_span W0 L W1 segs W2 X o t W3). split; [|exact E].
  unfold ref_span. unlit. destruct W0; discriminate.
Qed.

(** The inline callback writes at least two characters less than the
    match had: the prefix goes. *)
Lemma inline_repl_shorter p a m :
  match_at LINK_INLINE_RE p (a ++ rest m) = Some m ->
  (length (_replace_inline_match m) + 2 <= length a)%nat.
Proof.
  intros H. apply inline_anatomy in H
    as (L & W1 & segs & W2 & X & o & W3 & _ & _ & Hs & _ & _ & _ & _ & E & C).
  apply app_inv_tail in E. subst a.
  destruct m as [q R g]. cbn [caps] in C. subst g.
  rewrite inline_repl_caps. unfold inline_link, inline_span. unlit.
  pose proof (strip_length X). pose proof (rel_path_length segs Hs).
  rewrite ?length_app. cbn [length]. rewrite ?length_app. cbn [length]. lia.
Qed.

(** The reference callback writes at least one character less: the
    prefix goes, one blank may come. *)
Lemma ref_repl_shorter p a m :
  match_at REF_LINK_RE p (a ++ rest m) = Some m ->
  (length (_replace_ref_match m) + 1 <= length a)%nat.
Proof.
  intros H. apply ref_anatomy in H
    as (W0 & L & W1 & segs & W2 & X & o & t & W3 & _ & _ & _ & Hs & _ & HX & _
        & _ & _ & _ & _ & E & C).
  apply app_inv_tail in E. subst a.
  destruct m as [q R g]. cbn [caps] in C. subst g.
  destruct HX as (_ & HX & _).
  rewrite (ref_repl_caps _ _ _ _ _ HX). unfold ref_span. unlit.
  pose proof (rel_path_length segs Hs).
  rewrite ?length_app. cbn [length]. rewrite ?length_app. cbn [length]. lia.
Qed.

Lemma inline_rule_length s :
  (length (fst (inline_rule s)) + 2 * snd (inline_rule s) <= length s)%nat.
Proof.
  apply (subn_length _ _ inline_takes 2). apply inline_repl_shorter.
Qed.

Lemma ref_rule_length s :
  (length (fst (ref_rule s)) + snd (ref_rule s) <= length s)%nat.
Proof.
  pose proof (subn_length _ _ ref_takes 1 s ref_repl_shorter) as H.
  unfold ref_rule. lia.
Qed.

Lemma rewrite_content_parts s :
  rewrite_content s =
  (fst (ref_rule (fst (inline_rule s))),
   (snd (inline_rule s) + snd (ref_rule (fst (inline_rule s))))%nat).
Proof.
  unfold rewrite_content. destruct (inline_rule s) as [c1 n1]. cbn [fst snd].
  destruct (ref_rule c1); reflexivity.
Qed.

Lemma rewrite_content_length s :
  (length (fst (rewrite_content s)) + snd (rewrite_content s)
   <= length s)%nat.
Proof.
  rewrite rewrite_content_parts. cbn [fst snd].
  pose proof (inline_rule_length s).
  pose proof (ref_rule_length (fst (inline_rule s))). lia.
Qed.

Lemma rewrite_content_zero s :
  snd (rewrite_content s) = O -> fst (rewrite_content s) = s.
Proof.
  rewrite rewrite_content_parts. cbn [fst snd]. intros H.
  assert (H1 : snd (inline_rule s) = O) by lia.
  assert (H2 : snd (ref_rule (fst (inline_rule s))) = O) by lia.
  apply (subn_zero_same _ _ ref_takes) in H2.
  apply (subn_zero_same _ _ inline_takes) in H1.
  unfold ref_rule, inline_rule in *. rewrite H2. exact H1.
Qed.

Lemma rewrite_content_same s :
  fst (rewrite_content s) = s -> snd (rewrite_content s) = O.
Proof.
  intros H. pose proof (rewrite_content_length s) as L.
  rewrite H in L. lia.
Qed.

End RulesAny.

Section RulesChars.

Lemma inline_repl_chars p b m :
  match_at LINK_INLINE_RE p b = Some m ->
  forall c, In c (_replace_inline_match m) -> In c b \/ False.
Proof.
  intros H c Hc. left. apply inline_anatomy in H
    as (L & W1 & segs & W2 & X & o & W3 & _ & _ & _ & _ & _ & _ & _ & E & C).
  destruct m as [q R g]. cbn [caps rest] in *. subst g b.
  rewrite inline_repl_caps in Hc. revert Hc.
  unfold inline_link, inline_span. unlit.
  rewrite ?in_app_iff. cbn [In]. pose proof (strip_in X c). tauto.
Qed.

Lemma ref_repl_chars p b m :
  match_at REF_LINK_RE p b = Some m ->
  forall c, In c (_replace_ref_match m) -> In c b \/ c = 32.
Proof.
  intros H c Hc. apply ref_anatomy in H
    as (W0 & L & W1 & segs & W2 & X & o & t & W3 & _ & _ & _ & _ & _ & HX & _
        & _ & _ & _ & _ & E & C).
  destruct m as [q R g]. cbn [caps rest] in *. subst g b.
  destruct HX as (_ & HX & _).
  rewrite (ref_repl_caps _ _ _ _ _ HX) in Hc. revert Hc.
  unfold ref_span. unlit.
  rewrite ?in_app_iff. cbn [In]. intros H.
  repeat destruct H as [H | H]; auto 12; try contradiction.
Qed.

Lemma rewrite_content_chars s c :
  In c (fst (rewrite_content s)) -> In c s \/ c = 32.
Proof.
  rewrite rewrite_content_parts. cbn [fst]. intros H.
  apply (subn_chars _ _ ref_takes (fun c => c = 32) _ ref_repl_chars) in H.
  destruct H as [H | H]; [|right; exact H].
  apply (subn_chars _ _ inline_takes (fun _ => False) _ inline_repl_chars)
    in H.
  destruct H as [H | []]. left. exact H.
Qed.

End RulesChars.

Section NoSegment.

Lemma starts_with_app l b : starts_with l (l ++ b) = true.
Proof.
  induction l as [|c l IH]; simpl; [destruct b; reflexivity|].
  rewrite N.eqb_refl. exact IH.
Qed.

Lemma contains_app l a b : contains l (a ++ l ++ b) = true.
Proof.
  induction a as [|c a IH].
  - cbn [app]. destruct (l ++ b) eqn:E; cbn [contains];
      rewrite <- E, starts_with_app; reflexivity.
  - cbn [app contains]. rewrite IH. apply orb_true_r.
Qed.

Lemma rel_path_contains segs :
  segs <> [] -> exists a b, rel_path segs = a ++ lit "./" ++ b.
Proof.
  destruct segs as [|sg segs]; [congruence|]. intros _.
  cbn [rel_path flat_map]. destruct sg.
  - exists [46], (flat_map seg_text segs). reflexivity.
  - exists [], (flat_map seg_text segs). reflexivity.
Qed.

Lemma inline_needs_segment s :
  contains (lit "./") s = false -> never LINK_INLINE_RE s.
Proof.
  intros Hc p a b Es.
  destruct (match_at LINK_INLINE_RE p b) as [m|] eqn:E; [|reflexivity].
  apply inline_anatomy in E
    as (L & W1 & segs & W2 & X & o & W3 & _ & _ & Hs & _ & _ & _ & _ & E & _).
  destruct (rel_path_contains segs Hs) as (u & v & Ep).
  subst s b. unfold inline_span in Hc. rewrite Ep in Hc.
  rewrite <- ?app_assoc in Hc.
  rewrite !(app_assoc _ _ (lit "./" ++ _)) in Hc.
  rewrite contains_app in Hc. discriminate.
Qed.

Lemma ref_needs_segment s :
  contains (lit "./") s = false -> never REF_LINK_RE s.
Proof.
  intros Hc p a b Es.
  destruct (match_at REF_LINK_RE p b) as [m|] eqn:E; [|reflexivity].
  apply ref_anatomy in E
    as (W0 & L & W1 & segs & W2 & X & o & t & W3 & _ & _ & _ & Hs & _ & _ & _
        & _ & _ & _ & _ & E & _).
  destruct (rel_path_contains segs Hs) as (u & v & Ep).
  subst s b. unfold ref_span in Hc. rewrite Ep in Hc.
  rewrite <- ?app_assoc in Hc.
  rewrite !(app_assoc _ _ (lit "./" ++ _)) in Hc.
  rewrite contains_app in Hc. discriminate.
Qed.

Lemma no_segment_same s :
  contains (lit "./") s = false -> rewrite_content s = (s, O).
Proof.
  intros H. unfold rewrite_content, inline_rule, ref_rule.
  rewrite (never_subn _ _ _ (inline_needs_segment s H)).
  rewrite (never_subn _ _ _ (ref_needs_segment s H)). reflexivity.
Qed.

End NoSegment.

Section Passes.

Lemma passes_fixed n : forall s,
  snd (rewrite_content s) = O -> passes n s = s.
Proof.
  induction n as [|n IH]; intros s H; [reflexivity|].
  cbn [passes]. rewrite (rewrite_content_zero s H). apply IH, H.
Qed.

Lemma passes_settle k : forall s,
  (length s <= k)%nat -> snd (rewrite_content (passes k s)) = O.
Proof.
  induction k as [|k IH]; intros s Hk.
  - cbn [passes]. pose proof (rewrite_content_length s). lia.
  - cbn [passes].
    destruct (Nat.eq_dec (snd (rewrite_content s)) O) as [E | E].
    + rewrite (rewrite_content_zero s E), (passes_fixed k s E). exact E.
    + apply IH. pose proof (rewrite_content_length s). lia.
Qed.

End Passes.

(** ** Texts the patterns can read *)

Section Spelling.

Lemma spells_weaken P r a : spells r a -> spells_if P r a.
Proof. intros H st R E _. apply (H st R E I). Qed.

Lemma spells_Eps P : spells_if P Eps [].
Proof. intros st R E _. exists st. split; [constructor | exact E]. Qed.

Lemma spells_Chr P cl c : accepts cl c = true -> spells_if P (Chr cl) [c].
Proof.
  intros Hc st R E _. exists (step c R st).
  split; [constructor; assumption | reflexivity].
Qed.

Lemma spells_Seq P ra rb a b :
  spells ra a -> spells_if P rb b -> spells_if P (Seq ra rb) (a ++ b).
Proof.
  intros Ha Hb st R E HR. rewrite <- app_assoc in E.
  destruct (Ha st (b ++ R) E I) as (st1 & D1 & E1).
  destruct (Hb st1 R E1 HR) as (st2 & D2 & E2).
  exists st2. split; [econstructor; eassumption | exact E2].
Qed.

Lemma spells_AltL P ra rb a : spells_if P ra a -> spells_if P (Alt ra rb) a.
Proof.
  intros H st R E HR. destruct (H st R E HR) as (st' & D & E').
  exists st'. split; [apply D_AltL, D | exact E'].
Qed.

Lemma spells_AltR P ra rb a : spells_if P rb a -> spells_if P (Alt ra rb) a.
Proof.
  intros H st R E HR. destruct (H st R E HR) as (st' & D & E').
  exists st'. split; [apply D_AltR, D | exact E'].
Qed.

Lemma spells_Group P i r a : spells_if P r a -> spells_if P (Group i r) a.
Proof.
  intros H st R E HR. destruct (H st R E HR) as (st' & D & E').
  exists (close_group i st st'). split; [constructor; exact D | exact E'].
Qed.

Lemma spells_star_class g cl a :
  forallb (accepts cl) a = true -> spells (Star g (Chr cl)) a.
Proof.
  induction a as [|c a IH]; intros H st R E _.
  - exists st. split; [constructor | exact E].
  - cbn [forallb] in H. apply andb_true_iff in H as [Hc Ha].
    cbn [app] in E.
    destruct (IH Ha (step c (a ++ R) st) R eq_refl I) as (st' & D & E').
    exists st'. split; [|exact E'].
    apply (D_StarS g (Chr cl) st (step c (a ++ R) st) st').
    + constructor; assumption.
    + unfold shorter. rewrite E. cbn [step rest length].
      apply Nat.ltb_lt. lia.
    + exact D.
Qed.

Lemma spells_plus_class g cl a :
  a <> [] -> forallb (accepts cl) a = true -> spells (Plus g (Chr cl)) a.
Proof.
  destruct a as [|c a]; [congruence|]. intros _ H.
  cbn [forallb] in H. apply andb_true_iff in H as [Hc Ha].
  change (c :: a) with ([c] ++ a).
  apply spells_Seq; [apply spells_Chr, Hc | apply spells_star_class, Ha].
Qed.

Lemma spells_Str l : spells (Str l) l.
Proof.
  induction l as [|c l IH]; [apply spells_Eps|].
  change (c :: l) with ([c] ++ l). cbn [Str].
  apply spells_Seq; [apply spells_Chr; simpl; apply N.eqb_refl | exact IH].
Qed.

Lemma spells_rel_body sg : spells rel_body (seg_text sg).
Proof.
  destruct sg; [apply spells_AltL | apply spells_AltR]; apply spells_Str.
Qed.

Lemma spells_rel_star segs : spells (Star true rel_body) (rel_path segs).
Proof.
  induction segs as [|sg segs IH]; intros st R E _.
  - exists st. split; [constructor | exact E].
  - cbn [rel_path flat_map] in E. rewrite <- app_assoc in E.
    destruct (spells_rel_body sg st _ E I) as (st1 & D1 & E1).
    destruct (IH st1 R E1 I) as (st2 & D2 & E2).
    exists st2. split; [|exact E2].
    apply (D_StarS true rel_body st st1 st2 D1); [|exact D2].
    unfold shorter. rewrite E, E1, !length_app. apply Nat.ltb_lt.
    destruct sg; unfold seg_text; unlit; simpl; lia.
Qed.

Lemma spells_rel_prefix segs : segs <> [] -> spells rel_prefix (rel_path segs).
Proof.
  destruct segs as [|sg segs]; [congruence|]. intros _.
  cbn [rel_path flat_map].
  apply spells_Seq; [apply spells_rel_body | apply spells_rel_star].
Qed.

Lemma spells_ws W : blank W -> spells ws_star W.
Proof. intros H. apply spells_star_class, H. Qed.

Lemma spells_Eol : spells_if at_line_end Eol [].
Proof.
  intros st R E HR. exists st. split; [|exact E].
  constructor. unfold at_eol. cbn [app] in E. rewrite E.
  destruct R as [|c R]; [reflexivity|]. cbn in HR. subst c. reflexivity.
Qed.

Lemma spells_label L : label_ok L -> spells label_re L.
Proof.
  intros [H1 H2]. apply spells_Group, spells_plus_class; [exact H1|].
  revert H2. apply forallb_imp. intros x Hx.
  unfold accepts, existsb, item_mem. rewrite orb_false_r. exact Hx.
Qed.

Lemma spells_inline_path X :
  inline_path_shape X ->
  spells (Group 2 (Seq (Chr (NotIn [One 41; One 35; Space]))
                       (Star false (Chr (NotIn [One 41; One 35]))))) X.
Proof.
  intros (H1 & H2 & H3). destruct X as [|c X]; [discriminate|].
  cbn [head_nonspace] in H1. apply negb_true_iff in H1.
  pose proof (no_char_head _ _ _ H2) as C2.
  pose proof (no_char_head _ _ _ H3) as C3.
  apply spells_Group. change (c :: X) with ([c] ++ X).
  apply spells_Seq.
  - apply spells_Chr. unfold accepts, existsb, item_mem.
    unlit. rewrite C2, C3, H1. reflexivity.
  - apply spells_star_class, accepts_notin2;
      [apply (no_char_tail _ _ _ H2) | apply (no_char_tail _ _ _ H3)].
Qed.

Lemma spells_inline_anchor o :
  inline_anchor_ok o ->
  spells (Opt (Group 3 (Seq (Chr (Char 35))
                            (Plus true (Chr (NotIn [One 41; Space]))))))
    (anchor_text o).
Proof.
  destruct o as [sec|]; intros Ho.
  - destruct Ho as (H1 & H2 & H3). apply spells_AltL, spells_Group.
    change (anchor_text (Some sec)) with ([35] ++ sec).
    apply spells_Seq; [apply spells_Chr; reflexivity|].
    apply spells_plus_class; [exact H1|].
    apply accepts_notin_sp; assumption.
  - apply spells_AltR, spells_Eps.
Qed.

(** The inline pattern reads every link with a relative prefix. *)
Lemma spells_inline L W1 segs W2 X o W3 :
  label_ok L -> blank W1 -> segs <> [] -> blank W2 ->
  inline_path_shape X -> inline_anchor_ok o -> blank W3 ->
  spells LINK_INLINE_RE (inline_span L W1 segs W2 X o W3).
Proof.
  intros HL HW1 Hs HW2 HX Ho HW3.
  rewrite LINK_INLINE_RE_split. unfold inline_after_label, inline_tail.
  unfold inline_span. unlit.
  change ([91] ++ L ++ [93; 40] ++ W1 ++ rel_path segs ++ W2 ++ X
          ++ anchor_text o ++ W3 ++ [41])
    with ([91] ++ L ++ [93] ++ [40] ++ W1 ++ rel_path segs ++ W2 ++ X
          ++ anchor_text o ++ W3 ++ [41]).
  apply spells_Seq; [apply spells_Chr; reflexivity|].
  apply spells_Seq; [apply spells_label, HL|].
  apply spells_Seq; [apply spells_Chr; reflexivity|].
  apply spells_Seq; [apply spells_Chr; reflexivity|].
  apply spells_Seq; [apply spells_ws, HW1|].
  apply spells_Seq; [apply spells_rel_prefix, Hs|].
  apply spells_Seq; [apply spells_ws, HW2|].
  apply spells_Seq; [apply spells_inline_path; exact HX|].
  apply spells_Seq; [apply spells_inline_anchor, Ho|].
  apply spells_Seq; [apply spells_ws, HW3|].
  apply spells_Chr. reflexivity.
Qed.

(** So the pattern matches wherever such a link stands. *)
Lemma inline_matches_span p L W1 segs W2 X o W3 R :
  label_ok L -> blank W1 -> segs <> [] -> blank W2 ->
  inline_path_shape X -> inline_anchor_ok o -> blank W3 ->
  match_at LINK_INLINE_RE p (inline_span L W1 segs W2 X o W3 ++ R) <> None.
Proof.
  intros HL HW1 Hs HW2 HX Ho HW3.
  destruct (spells_inline L W1 segs W2 X o W3 HL HW1 Hs HW2 HX Ho HW3
              (MState p (inline_span L W1 segs W2 X o W3 ++ R) []) R
              eq_refl I) as (st' & D & _).
  unfold match_at. apply (rmatch_complete _ _ _ D). discriminate.
Qed.

Lemma spells_ref_path X :
  ref_path_shape X ->
  spells (Group 2 (Seq (Chr (NotIn [Space; One 35]))
                       (Star true (Chr (NotIn [Space; One 35]))))) X.
Proof.
  intros (H1 & H2 & H3). apply spells_Group.
  apply (spells_plus_class true (NotIn [Space; One 35]) X H1).
  apply (forallb_imp (fun x => negb (is_space x) && negb (x =? 35))).
  - intros x Hx. apply andb_true_iff in Hx as [E1 E2].
    apply negb_true_iff in E1, E2.
    unfold accepts, existsb, item_mem. rewrite E1, E2. reflexivity.
  - apply forallb_both; assumption.
Qed.

Lemma spells_ref_anchor o :
  ref_anchor_ok o ->
  spells (Opt (Group 3 (Seq (Chr (Char 35))
                            (Plus true (Chr (NotIn [Space]))))))
    (anchor_text o).
Proof.
  destruct o as [sec|]; intros Ho.
  - destruct Ho as (H1 & H2). apply spells_AltL, spells_Group.
    change (anchor_text (Some sec)) with ([35] ++ sec).
    apply spells_Seq; [apply spells_Chr; reflexivity|].
    apply spells_plus_class; [exact H1|].
    revert H2. apply forallb_imp. intros x Hx.
    unfold accepts, existsb, item_mem. rewrite orb_false_r. exact Hx.
  - apply spells_AltR, spells_Eps.
Qed.

Lemma spells_title t :
  title_ok t -> spells (Opt title_re) (title_text t).
Proof.
  destruct t as [[gap q1 txt q2]|]; intros Ht.
  - cbn [title_ok t_gap t_open t_text t_close] in Ht.
    destruct Ht as (G1 & G2 & Q1 & Q2 & T1 & T2).
    apply spells_AltL. cbn [title_text t_gap t_open t_text t_close].
    change (gap ++ q1 :: txt ++ [q2]) with (gap ++ [q1] ++ txt ++ [q2]).
    apply spells_Seq; [apply spells_plus_class; [exact G1 | exact G2]|].
    apply spells_Seq; [apply spells_Chr, quote_accepts, Q1|].
    apply spells_Seq; [|apply spells_Chr, quote_accepts, Q2].
    apply spells_plus_class; [exact T1 | exact T2].
  - apply spells_AltR, spells_Eps.
Qed.

(** The reference pattern, after its anchor at the start of a line, reads
    every definition with a relative prefix that ends a line. *)
Lemma spells_ref W0 L W1 segs W2 X o t W3 :
  blank W0 -> label_ok L -> blank W1 -> segs <> [] -> blank W2 ->
  ref_path_shape X -> ref_anchor_ok o -> title_ok t -> blank W3 ->
  spells_if at_line_end (Seq ws_star ref_bracket)
    (ref_span W0 L W1 segs W2 X o t W3).
Proof.
  intros HW0 HL HW1 Hs HW2 HX Ho Ht HW3.
  unfold ref_bracket, ref_after_label, ref_tail, ref_end.
  unfold ref_span. unlit.
  change (W0 ++ [91] ++ L ++ [93; 58] ++ W1 ++ rel_path segs ++ W2 ++ X
          ++ anchor_text o ++ title_text t ++ W3)
    with (W0 ++ [91] ++ L ++ [93] ++ [58] ++ W1 ++ rel_path segs ++ W2 ++ X
          ++ anchor_text o ++ title_text t ++ W3).
  apply spells_Seq; [apply spells_ws, HW0|].
  apply spells_Seq; [apply spells_Chr; reflexivity|].
  apply spells_Seq; [apply spells_label, HL|].
  apply spells_Seq; [apply spells_Chr; reflexivity|].
  apply spells_Seq; [apply spells_Chr; reflexivity|].
  apply spells_Seq; [apply spells_ws, HW1|].
  apply spells_Seq; [apply spells_rel_prefix, Hs|].
  apply spells_Seq; [apply spells_ws, HW2|].
  apply spells_Seq; [apply spells_ref_path; exact HX|].
  apply spells_Seq; [apply spells_ref_anchor, Ho|].
  apply spells_Seq; [apply spells_title, Ht|].
  rewrite <- (app_nil_r W3).
  apply spells_Seq; [apply spells_ws, HW3 | apply spells_Eol].
Qed.

Lemma ref_matches_span p W0 L W1 segs W2 X o t W3 R :
  (p = None \/ p = Some 10) -> at_line_end R ->
  blank W0 -> label_ok L -> blank W1 -> segs <> [] -> blank W2 ->
  ref_path_shape X -> ref_anchor_ok o -> title_ok t -> blank W3 ->
  match_at REF_LINK_RE p (ref_span W0 L W1 segs W2 X o t W3 ++ R) <> None.
Proof.
  intros Hp HR HW0 HL HW1 Hs HW2 HX Ho Ht HW3.
  destruct (spells_ref W0 L W1 segs W2 X o t W3 HW0 HL HW1 Hs HW2 HX Ho Ht
              HW3 (MState p (ref_span W0 L W1 segs W2 X o t W3 ++ R) []) R
              eq_refl HR) as (st' & D & _).
  assert (Hb : at_bol (MState p (ref_span W0 L W1 segs W2 X o t W3 ++ R) [])
               = true).
  { unfold at_bol. cbn [prev]. destruct Hp as [-> | ->]; reflexivity. }
  unfold match_at. rewrite REF_LINK_RE_split.
  apply (rmatch_complete _ _ st'); [|discriminate].
  apply (D_Seq _ _ _ _ _ (D_Bol _ Hb) D).
Qed.

End Spelling.

(** ** The texts the two rules leave alone *)

Section FixedPoints.

Lemma inline_zero_iff s :
  snd (inline_rule s) = O <-> ~ has_relative_link s.
Proof.
  unfold inline_rule. rewrite (subn_zero_iff _ _ inline_takes). split.
  - intros H (A & L & W1 & segs & W2 & X & o & W3 & R & E & HL & HW1 & Hs
              & HW2 & HX & Ho & HW3).
    apply (inline_matches_span (prev_after None A) L W1 segs W2 X o W3 R);
      try assumption.
    apply (H A _ E).
  - intros H a b E.
    destruct (match_at LINK_INLINE_RE (prev_after None a) b) as [m|] eqn:Em;
      [|reflexivity].
    exfalso. apply H.
    destruct (inline_anatomy _ _ _ Em)
      as (L & W1 & segs & W2 & X & o & W3 & HL & HW1 & Hs & HW2 & HX & Ho
          & HW3 & Eb & _).
    exists a, L, W1, segs, W2, X, o, W3, (rest m).
    split; [rewrite E, Eb; reflexivity|].
    repeat (split; [assumption|]). assumption.
Qed.

Lemma ref_zero_iff s :
  snd (ref_rule s) = O <-> ~ has_relative_definition s.
Proof.
  unfold ref_rule. rewrite (subn_zero_iff _ _ ref_takes). split.
  - intros H (A & W0 & L & W1 & segs & W2 & X & o & t & W3 & R & E & HA & HR
              & HW0 & HL & HW1 & Hs & HW2 & HX & Ho & Ht & HW3).
    apply (ref_matches_span (prev_after None A) W0 L W1 segs W2 X o t W3 R);
      try assumption.
    apply (H A _ E).
  - intros H a b E.
    destruct (match_at REF_LINK_RE (prev_after None a) b) as [m|] eqn:Em;
      [|reflexivity].
    exfalso. apply H.
    destruct (ref_anatomy _ _ _ Em)
      as (W0 & L & W1 & segs & W2 & X & o & t & W3 & HW0 & HL & HW1 & Hs & HW2
          & HX & Ho & Ht & HW3 & Hb & He & Eb & _).
    exists a, W0, L, W1, segs, W2, X, o, t, W3, (rest m).
    split; [rewrite E, Eb; reflexivity|].
    split.
    { unfold at_line_start. unfold at_bol in Hb. cbn [prev] in Hb.
      destruct (prev_after None a) as [c|]; [|left; reflexivity].
      apply N.eqb_eq in Hb. subst c. right. reflexivity. }
    split.
    { unfold at_line_end. unfold at_eol in He.
      destruct (rest m) as [|c R]; [exact I|]. apply N.eqb_eq, He. }
    repeat (split; [assumption|]). assumption.
Qed.

Lemma rewrite_zero_iff s :
  snd (rewrite_content s) = O <->
  ~ has_relative_link s /\ ~ has_relative_definition s.
Proof.
  rewrite rewrite_content_parts. cbn [snd]. split.
  - intros H.
    assert (H1 : snd (inline_rule s) = O) by lia.
    assert (H2 : snd (ref_rule (fst (inline_rule s))) = O) by lia.
    pose proof (subn_zero_same _ _ inline_takes s H1) as E.
    unfold inline_rule in H2 at 1. unfold inline_rule in E. rewrite E in H2.
    split; [apply inline_zero_iff, H1 | apply ref_zero_iff, H2].
  - intros [H1 H2]. apply inline_zero_iff in H1.
    pose proof (subn_zero_same _ _ inline_takes s H1) as E.
    apply ref_zero_iff in H2.
    unfold inline_rule at 2. unfold inline_rule in E. rewrite E, H1, H2.
    reflexivity.
Qed.

End FixedPoints.

(** * Encodings *)

(** Turn the tests of the hypotheses into inequalities. *)
Ltac tests :=
  unfold in_range, is_cont, is_scalar in *;
  repeat match goal with
  | H : _ && _ = true |- _ => apply andb_true_iff in H as [? ?]
  | H : (_ <=? _) = true |- _ => apply N.leb_le in H
  | H : (_ <? _) = true |- _ => apply N.ltb_lt in H
  | H : (_ <? _) = false |- _ => apply N.ltb_ge in H
  | H : (_ =? _) = true |- _ => apply N.eqb_eq in H
  | H : (_ =? _) = false |- _ => apply N.eqb_neq in H
  end.

(** Decide a test of the goal from the inequalities at hand. *)
Ltac test_true :=
  unfold in_range, is_cont, is_scalar;
  repeat (apply andb_true_intro; split);
  first [reflexivity
        | first [apply N.leb_le | apply N.ltb_lt | apply N.eqb_eq];
          zify; Z.to_euclidean_division_equations; lia].

Ltac divmod := zify; Z.to_euclidean_division_equations; lia.

Ltac scalar_true :=
  unfold is_scalar; apply orb_true_iff;
  first [left; apply N.ltb_lt; lia
        | right; apply andb_true_intro; split; apply N.ltb_lt; lia].

Section Codec.

Lemma decode1 b0 r :
  b0 < 128 -> utf8_decode (b0 :: r) = option_map (cons b0) (utf8_decode r).
Proof.
  intros H. cbn [utf8_decode].
  replace (b0 <? 128) with true by (symmetry; apply N.ltb_lt; lia).
  reflexivity.
Qed.

Lemma decode2 b0 b1 r :
  194 <= b0 <= 223 -> 128 <= b1 <= 191 ->
  utf8_decode (b0 :: b1 :: r) =
  option_map (cons ((b0 - 192) * 64 + (b1 - 128))) (utf8_decode r).
Proof.
  intros H0 H1. cbn [utf8_decode].
  replace (b0 <? 128) with false by (symmetry; apply N.ltb_ge; lia).
  replace (in_range 194 223 b0) with true by (symmetry; test_true).
  replace (is_cont b1) with true by (symmetry; test_true).
  reflexivity.
Qed.

Lemma decode3 b0 b1 b2 r :
  224 <= b0 <= 239 -> 128 <= b1 <= 191 ->
  (b0 = 224 -> 160 <= b1) -> (b0 = 237 -> b1 <= 159) ->
  128 <= b2 <= 191 ->
  utf8_decode (b0 :: b1 :: b2 :: r) =
  option_map (cons ((b0 - 224) * 4096 + (b1 - 128) * 64 + (b2 - 128)))
    (utf8_decode r).
Proof.
  intros H0 H1 Hlo Hhi H2. cbn [utf8_decode].
  replace (b0 <? 128) with false by (symmetry; apply N.ltb_ge; lia).
  replace (in_range 194 223 b0) with false
    by (symmetry; unfold in_range; apply andb_false_iff; right;
        apply N.leb_gt; lia).
  replace (in_range 224 239 b0) with true by (symmetry; test_true).
  replace (is_cont b2) with true by (symmetry; test_true).
  replace (in_range (if b0 =? 224 then 160 else 128)
                    (if b0 =? 237 then 159 else 191) b1) with true.
  - reflexivity.
  - symmetry. destruct (N.eqb_spec b0 224) as [E1 | E1];
      destruct (N.eqb_spec b0 237) as [E2 | E2];
      try specialize (Hlo E1); try specialize (Hhi E2); test_true.
Qed.

Lemma decode4 b0 b1 b2 b3 r :
  240 <= b0 <= 244 -> 128 <= b1 <= 191 ->
  (b0 = 240 -> 144 <= b1) -> (b0 = 244 -> b1 <= 143) ->
  128 <= b2 <= 191 -> 128 <= b3 <= 191 ->
  utf8_decode (b0 :: b1 :: b2 :: b3 :: r) =
  option_map (cons ((b0 - 240) * 262144 + (b1 - 128) * 4096
                    + (b2 - 128) * 64 + (b3 - 128)))
    (utf8_decode r).
Proof.
  intros H0 H1 Hlo Hhi H2 H3. cbn [utf8_decode].
  replace (b0 <? 128) with false by (symmetry; apply N.ltb_ge; lia).
  replace (in_range 194 223 b0) with false
    by (symmetry; unfold in_range; apply andb_false_iff; right;
        apply N.leb_gt; lia).
  replace (in_range 224 239 b0) with false
    by (symmetry; unfold in_range; apply andb_false_iff; right;
        apply N.leb_gt; lia).
  replace (in_range 240 244 b0) with true by (symmetry; test_true).
  replace (is_cont b2) with true by (symmetry; test_true).
  replace (is_cont b3) with true by (symmetry; test_true).
  replace (in_range (if b0 =? 240 then 144 else 128)
                    (if b0 =? 244 then 143 else 191) b1) with true.
  - reflexivity.
  - symmetry. destruct (N.eqb_spec b0 240) as [E1 | E1];
      destruct (N.eqb_spec b0 244) as [E2 | E2];
      try specialize (Hlo E1); try specialize (Hhi E2); test_true.
Qed.

(** What the encoder writes for one scalar value. *)
Lemma utf8_encode_cons c s :
  is_scalar c = true ->
  utf8_encode (c :: s) =
  option_map
    (app (if c <? 128 then [c]
          else if c <? 2048 then [192 + c / 64; 128 + c mod 64]
          else if c <? 65536 then
            [224 + c / 4096; 128 + (c / 64) mod 64; 128 + c mod 64]
          else [240 + c / 262144; 128 + (c / 4096) mod 64;
                128 + (c / 64) mod 64; 128 + c mod 64]))
    (utf8_encode s).
Proof.
  intros H. cbn [utf8_encode].
  destruct (N.ltb_spec c 128); [destruct (utf8_encode s); reflexivity|].
  destruct (N.ltb_spec c 2048); [destruct (utf8_encode s); reflexivity|].
  destruct (in_range 55296 57343 c) eqn:Es.
  { tests. apply orb_true_iff in H as [H | H]; tests; lia. }
  destruct (N.ltb_spec c 65536); [destruct (utf8_encode s); reflexivity|].
  destruct (N.ltb_spec c 1114112); [destruct (utf8_encode s); reflexivity|].
  apply orb_true_iff in H as [H | H]; tests; lia.
Qed.

(** The encoder is defined on scalar values. *)
Lemma utf8_encode_total s :
  forallb is_scalar s = true -> exists bs, utf8_encode s = Some bs.
Proof.
  induction s as [|c s IH]; intros H; [exists []; reflexivity|].
  cbn [forallb] in H. apply andb_true_iff in H as [Hc Hs].
  destruct (IH Hs) as (r & Er). rewrite (utf8_encode_cons c s Hc), Er.
  eexists. reflexivity.
Qed.

(** Only scalar values are encoded. *)
Lemma utf8_encode_scalar s : forall bs,
  utf8_encode s = Some bs -> forallb is_scalar s = true.
Proof.
  induction s as [|c s IH]; intros bs H; [reflexivity|].
  cbn [utf8_encode] in H. cbn [forallb].
  destruct (utf8_encode s) as [r|] eqn:Er.
  2:{ repeat match type of H with
             | context [if ?b then _ else _] => destruct b
             end; discriminate. }
  rewrite (IH r eq_refl), andb_true_r.
  unfold is_scalar.
  destruct (N.ltb_spec c 128).
  { apply orb_true_iff. left. apply N.ltb_lt. lia. }
  destruct (N.ltb_spec c 2048).
  { apply orb_true_iff. left. apply N.ltb_lt. lia. }
  destruct (in_range 55296 57343 c) eqn:Es; [discriminate|].
  destruct (N.ltb_spec c 65536).
  { unfold in_range in Es. apply andb_false_iff in Es as [Es | Es].
    - apply N.leb_gt in Es. apply orb_true_iff. left. apply N.ltb_lt. lia.
    - apply N.leb_gt in Es. apply orb_true_iff. right. test_true. }
  destruct (N.ltb_spec c 1114112); [|discriminate].
  apply orb_true_iff. right. test_true.
Qed.

(** Decoding what the encoder wrote gives the text back, and the encoder
    writes bytes. *)
Lemma utf8_decode_encode s : forall bs,
  utf8_encode s = Some bs ->
  utf8_decode bs = Some s /\ Forall (fun b => b < 256) bs.
Proof.
  induction s as [|c s IH]; intros bs H.
  - injection H as <-. split; [reflexivity | constructor].
  - pose proof (utf8_encode_scalar _ _ H) as Hs.
    cbn [forallb] in Hs. apply andb_true_iff in Hs as [Hc _].
    rewrite (utf8_encode_cons c s Hc) in H.
    destruct (utf8_encode s) as [r|]; [|discriminate].
    destruct (IH r eq_refl) as [Hd Hb]. cbn [option_map] in H.
    injection H as <-.
    destruct (N.ltb_spec c 128).
    { cbn [app]. rewrite decode1, Hd by assumption.
      split; [reflexivity|]. constructor; [lia | exact Hb]. }
    destruct (N.ltb_spec c 2048).
    { cbn [app]. rewrite decode2, Hd by divmod. cbn [option_map].
      split; [do 2 f_equal; divmod|].
      repeat (constructor; [divmod|]). exact Hb. }
    destruct (N.ltb_spec c 65536).
    { assert (Hns : c < 55296 \/ 57343 < c).
      { unfold is_scalar in Hc. apply orb_true_iff in Hc as [Hc | Hc];
          tests; lia. }
      cbn [app]. rewrite decode3, Hd; try divmod. cbn [option_map].
      split; [do 2 f_equal; divmod|].
      repeat (constructor; [divmod|]). exact Hb. }
    assert (Hmax : c < 1114112).
    { unfold is_scalar in Hc. apply orb_true_iff in Hc as [Hc | Hc];
        tests; lia. }
    cbn [app]. rewrite decode4, Hd; try divmod. cbn [option_map].
    split; [do 2 f_equal; divmod|].
    repeat (constructor; [divmod|]). exact Hb.
Qed.

End Codec.

Section Texts.

Lemma to_N_byte_of n : n < 256 -> Byte.to_N (byte_of n) = n.
Proof.
  intros H. unfold byte_of. rewrite N.mod_small by exact H.
  destruct (Byte.of_N n) as [b|] eqn:E.
  - apply Byte.to_of_N, E.
  - apply Byte.of_N_None_iff in E. lia.
Qed.

Lemma map_to_N_byte_of bs :
  Forall (fun b => b < 256) bs ->
  List.map Byte.to_N (List.map byte_of bs) = bs.
Proof.
  induction 1 as [|b bs Hb _ IH]; [reflexivity|].
  cbn [List.map]. rewrite IH, to_N_byte_of by exact Hb. reflexivity.
Qed.

(** The bytes the program writes decode to the text it wrote. *)
Lemma decode_written s bs :
  utf8_encode s = Some bs -> decode Utf8 (List.map byte_of bs) = Some s.
Proof.
  intros H. destruct (utf8_decode_encode s bs H) as [Hd Hb].
  unfold decode. rewrite (map_to_N_byte_of bs Hb). exact Hd.
Qed.

Lemma option_map_cons_some {A} (c : A) o s :
  option_map (cons c) o = Some s -> exists s', o = Some s' /\ s = c :: s'.
Proof.
  destruct o as [s'|]; [|discriminate]. intros H. injection H as <-.
  exists s'. split; reflexivity.
Qed.

(** The decoder yields scalar values only. *)
Lemma utf8_decode_scalar : forall bs s,
  utf8_decode bs = Some s -> forallb is_scalar s = true.
Proof.
  intros bs. remember (length bs) as k eqn:Ek.
  assert (Hk : (length bs <= k)%nat) by lia. clear Ek. revert bs Hk.
  induction k as [|k IH]; intros bs Hk s H.
  - destruct bs; [|simpl in Hk; lia]. injection H as <-. reflexivity.
  - destruct bs as [|b0 r0]; [injection H as <-; reflexivity|].
    cbn [utf8_decode] in H. cbn [length] in Hk.
    destruct (N.ltb_spec b0 128) as [L0 | L0].
    { apply option_map_cons_some in H as (s' & Hs & ->).
      cbn [forallb]. rewrite (IH r0 ltac:(lia) s' Hs), andb_true_r.
      scalar_true. }
    destruct (in_range 194 223 b0) eqn:R2.
    { destruct r0 as [|b1 r1]; [discriminate|].
      destruct (is_cont b1) eqn:C1; [|discriminate].
      apply option_map_cons_some in H as (s' & Hs & ->).
      cbn [forallb]. cbn [length] in Hk.
      rewrite (IH r1 ltac:(lia) s' Hs), andb_true_r.
      tests. apply orb_true_iff. left. apply N.ltb_lt. lia. }
    destruct (in_range 224 239 b0) eqn:R3.
    { destruct r0 as [|b1 [|b2 r2]]; try discriminate.
      destruct (in_range _ _ b1 && is_cont b2) eqn:C; [|discriminate].
      apply option_map_cons_some in H as (s' & Hs & ->).
      cbn [forallb]. cbn [length] in Hk.
      rewrite (IH r2 ltac:(lia) s' Hs), andb_true_r.
      apply andb_true_iff in C as [C1 C2]. revert C1.
      destruct (N.eqb_spec b0 224); destruct (N.eqb_spec b0 237);
        intros C1; tests; destruct (N.le_gt_cases b0 236);
        apply orb_true_iff;
        first [left; apply N.ltb_lt; lia
              | right; apply andb_true_intro; split; apply N.ltb_lt; lia]. }
    destruct (in_range 240 244 b0) eqn:R4; [|discriminate].
    destruct r0 as [|b1 [|b2 [|b3 r3]]]; try discriminate.
    destruct (in_range _ _ b1 && is_cont b2 && is_cont b3) eqn:C;
      [|discriminate].
    apply option_map_cons_some in H as (s' & Hs & ->).
    cbn [forallb]. cbn [length] in Hk.
    rewrite (IH r3 ltac:(lia) s' Hs), andb_true_r.
    apply andb_true_iff in C as [C C3]. apply andb_true_iff in C as [C1 C2].
    revert C1.
    destruct (N.eqb_spec b0 240); destruct (N.eqb_spec b0 244);
      intros C1; tests;
      apply orb_true_iff; right; apply andb_true_intro; split;
      apply N.ltb_lt; lia.
Qed.

Lemma latin1_scalar (b : list byte) :
  forallb is_scalar (latin1_decode (List.map Byte.to_N b)) = true.
Proof.
  unfold latin1_decode. induction b as [|x b IH]; [reflexivity|].
  cbn [List.map forallb]. rewrite IH, andb_true_r.
  pose proof (Byte.to_N_bounded x). scalar_true.
Qed.

(** Universal newlines: what is read has no carriage return, and its
    characters are those of the file, or a line feed. *)
Lemma universal_newlines_spec : forall s,
  no_char 13 (universal_newlines s) = true
  /\ forall c, In c (universal_newlines s) -> In c s \/ c = 10.
Proof.
  intros s. remember (length s) as k eqn:Ek.
  assert (Hk : (length s <= k)%nat) by lia. clear Ek. revert s Hk.
  induction k as [|k IH]; intros s Hk.
  - destruct s; [|simpl in Hk; lia]. split; [reflexivity | intros c []].
  - destruct s as [|c s]; [split; [reflexivity | intros c []]|].
    cbn [length] in Hk. cbn [universal_newlines].
    destruct (N.eqb_spec c 13) as [-> | Hc].
    + destruct s as [|d s].
      * split; [reflexivity|]. intros x [<- | []]. right. reflexivity.
      * cbn [length] in Hk. destruct (N.eqb_spec d 10) as [-> | Hd].
        -- destruct (IH s ltac:(lia)) as [H1 H2]. split.
           ++ cbn [no_char forallb]. exact H1.
           ++ intros x [<- | Hx]; [right; reflexivity|].
              destruct (H2 x Hx) as [H | H]; [left | right; exact H].
              right. right. exact H.
        -- destruct (IH (d :: s) ltac:(cbn [length]; lia)) as [H1 H2]. split.
           ++ cbn [no_char forallb]. exact H1.
           ++ intros x [<- | Hx]; [right; reflexivity|].
              destruct (H2 x Hx) as [H | H]; [left | right; exact H].
              right. exact H.
    + destruct (IH s ltac:(lia)) as [H1 H2]. split.
      * cbn [no_char forallb]. apply N.eqb_neq in Hc. rewrite Hc. exact H1.
      * intros x [<- | Hx]; [left; left; reflexivity|].
        destruct (H2 x Hx) as [H | H]; [left | right; exact H].
        right. exact H.
Qed.

(** A text without a carriage return is read as it is. *)
Lemma universal_newlines_fixed s :
  no_char 13 s = true -> universal_newlines s = s.
Proof.
  induction s as [|c s IH]; [reflexivity|].
  cbn [no_char forallb universal_newlines]. intros H.
  apply andb_true_iff in H as [Hc Hs]. apply negb_true_iff in Hc.
  rewrite Hc, (IH Hs). reflexivity.
Qed.

Lemma forallb_in {A} (f : A -> bool) l :
  forallb f l = true <-> forall x, In x l -> f x = true.
Proof. apply forallb_forall. Qed.

Lemma universal_newlines_scalar s :
  forallb is_scalar s = true ->
  forallb is_scalar (universal_newlines s) = true.
Proof.
  rewrite !forallb_in. intros H c Hc.
  destruct (universal_newlines_spec s) as [_ Hin].
  destruct (Hin c Hc) as [Hs | ->]; [apply H, Hs | reflexivity].
Qed.

Lemma read_pure_scalar b : forallb is_scalar (read_pure b) = true.
Proof.
  unfold read_pure, decode.
  destruct (utf8_decode (List.map Byte.to_N b)) as [s|] eqn:E.
  - apply universal_newlines_scalar, (utf8_decode_scalar _ _ E).
  - apply universal_newlines_scalar, latin1_scalar.
Qed.

Lemma read_pure_no_cr b : no_char 13 (read_pure b) = true.
Proof.
  unfold read_pure. destruct (decode Utf8 b);
    apply universal_newlines_spec.
Qed.

(** The rewrite keeps a text encodable, and free of carriage returns. *)
Lemma rewrite_content_scalar s :
  forallb is_scalar s = true ->
  forallb is_scalar (fst (rewrite_content s)) = true.
Proof.
  rewrite !forallb_in. intros H c Hc.
  destruct (rewrite_content_chars s c Hc) as [Hs | ->];
    [apply H, Hs | reflexivity].
Qed.

Lemma rewrite_content_no_cr s :
  no_char 13 s = true -> no_char 13 (fst (rewrite_content s)) = true.
Proof.
  unfold no_char. rewrite !forallb_in. intros H c Hc.
  destruct (rewrite_content_chars s c Hc) as [Hs | ->];
    [apply H, Hs | reflexivity].
Qed.

Lemma rewrite_encodes b :
  exists bs, utf8_encode (fst (rewrite_content (read_pure b))) = Some bs.
Proof.
  apply utf8_encode_total, rewrite_content_scalar, read_pure_scalar.
Qed.

(** Reading back what was written. *)
Lemma read_pure_written t bs :
  utf8_encode t = Some bs -> no_char 13 t = true ->
  read_pure (List.map byte_of bs) = t.
Proof.
  intros He Hc. unfold read_pure. rewrite (decode_written t bs He).
  apply universal_newlines_fixed, Hc.
Qed.

End Texts.

(** * The scan in any system, and in a system without faults *)

Section LogAdds.

Context {good : event -> Prop}.

Lemma log_adds_ret {A} (a : A) : log_adds good (ret a).
Proof. intros w e H. left. exact H. Qed.

Lemma log_adds_raise {A} e0 : log_adds good (@raise A e0).
Proof. intros w e H. left. exact H. Qed.

Lemma log_adds_bind {A B} (Q : A -> Prop) (m : M A) (f : A -> M B) :
  log_adds good m ->
  (forall w a, fst (m w) = inr a -> Q a) ->
  (forall a, Q a -> log_adds good (f a)) ->
  log_adds good (bind m f).
Proof.
  intros Hm HQ Hf w e. unfold bind.
  pose proof (Hm w e) as Hm'. pose proof (HQ w) as HQ'.
  destruct (m w) as [[x|a] w1]; cbn [fst snd] in *; [exact Hm'|].
  intros H. destruct (Hf a (HQ' a eq_refl) w1 e H) as [H1 | H1];
    [apply Hm', H1 | right; exact H1].
Qed.

Lemma log_adds_seq {A B} (m : M A) (f : A -> M B) :
  log_adds good m -> (forall a, log_adds good (f a)) ->
  log_adds good (bind m f).
Proof.
  intros Hm Hf. apply (log_adds_bind (fun _ => True)); auto.
Qed.

Lemma log_adds_try {A} (m h : M A) :
  log_adds good m -> log_adds good h -> log_adds good (try_except m h).
Proof.
  intros Hm Hh w e. unfold try_except. pose proof (Hm w e) as Hm'.
  destruct (m w) as [[x|a] w1]; cbn [snd] in *; [|exact Hm'].
  destruct (is_Exception x); cbn [snd]; [|exact Hm'].
  intros H. destruct (Hh w1 e H) as [H1 | H1];
    [apply Hm', H1 | right; exact H1].
Qed.

Lemma log_adds_emit e0 : good e0 -> log_adds good (emit e0).
Proof.
  intros H w e [<- | He]; [right; exact H | left; exact He].
Qed.

Lemma log_adds_next_fault : log_adds good next_fault.
Proof.
  intros w e. unfold next_fault.
  destruct (faults w) as [|[x|] fs]; cbn [snd log]; auto.
Qed.

Lemma log_adds_print text : good (EPrint text) -> log_adds good (print text).
Proof.
  intros H. unfold print.
  apply log_adds_seq; [apply log_adds_next_fault | intros _].
  apply log_adds_emit, H.
Qed.

Lemma log_adds_lookup p : log_adds good (lookup_file p).
Proof.
  intros w e. unfold lookup_file. destruct (files w !! p); cbn [snd]; auto.
Qed.

Lemma log_adds_store p b : log_adds good (store_file p b).
Proof. intros w e H. left. exact H. Qed.

End LogAdds.

Section ScanAny.

Variable lower : str -> str.
Variable verbose : bool.

(** Whatever is read has no carriage return. *)
Lemma read_text_no_cr p enc w c :
  fst (read_text p enc w) = inr c -> no_char 13 c = true.
Proof.
  unfold read_text, bind, emit, next_fault, lookup_file.
  cbn [faults files log].
  destruct (faults w) as [|[x|] fs]; cbn [faults files log fst];
    try discriminate;
    (destruct (files w !! p) as [b|]; cbn [fst]; [|discriminate];
     destruct (decode enc b) as [s|]; cbn [fst]; [|discriminate];
     intros H; injection H as <-; apply universal_newlines_spec).
Qed.

Lemma read_content_no_cr p w c :
  fst (read_content p w) = inr c -> no_char 13 c = true.
Proof.
  unfold read_content, try_except.
  pose proof (read_text_no_cr p Utf8 w) as H1.
  destruct (read_text p Utf8 w) as [[x|s] w1]; cbn [fst] in *;
    [|intros H; injection H as <-; apply H1; reflexivity].
  destruct (is_Exception x); cbn [fst]; [|discriminate].
  apply read_text_no_cr.
Qed.

Lemma log_adds_read_text p enc :
  log_adds utf8_lf_write (read_text p enc).
Proof.
  unfold read_text.
  apply log_adds_seq; [apply log_adds_emit; exact I | intros _].
  apply log_adds_seq; [apply log_adds_next_fault | intros _].
  apply log_adds_seq; [apply log_adds_lookup | intros b].
  destruct (decode enc b); [apply log_adds_ret | apply log_adds_raise].
Qed.

Lemma log_adds_write_text p t :
  no_char 13 t = true -> log_adds utf8_lf_write (write_text p t).
Proof.
  intros Ht. unfold write_text.
  apply log_adds_seq; [apply log_adds_emit; exact I | intros _].
  apply log_adds_seq; [apply log_adds_next_fault | intros _].
  apply log_adds_seq; [apply log_adds_store | intros _].
  destruct (utf8_encode t) as [bs|] eqn:E; [|apply log_adds_raise].
  apply log_adds_seq; [apply log_adds_store | intros _].
  apply log_adds_emit. exists t. split; [apply decode_written, E | exact Ht].
Qed.

Lemma log_adds_process_file p acc :
  log_adds utf8_lf_write (process_file verbose p acc).
Proof.
  unfold process_file.
  apply (log_adds_bind (fun c => no_char 13 c = true)).
  - unfold read_content. apply log_adds_try; apply log_adds_read_text.
  - apply read_content_no_cr.
  - intros content Hc. pose proof (rewrite_content_no_cr content Hc) as Hn.
    destruct (rewrite_content content) as [new_content n]. cbn [fst] in Hn.
    destruct (0 <? n)%nat; [|apply log_adds_ret].
    apply log_adds_seq; [apply log_adds_write_text, Hn | intros _].
    apply log_adds_seq; [apply log_adds_print; exact I | intros _].
    apply log_adds_seq; [|intros _; apply log_adds_ret].
    destruct verbose; [apply log_adds_print; exact I | apply log_adds_ret].
Qed.

Lemma log_adds_scan_paths ps : forall acc,
  log_adds utf8_lf_write (scan_paths verbose ps acc).
Proof.
  induction ps as [|p ps IH]; intros acc; cbn [scan_paths];
    [apply log_adds_ret|].
  apply log_adds_seq; [apply log_adds_process_file | exact IH].
Qed.

Lemma log_adds_ext {A} good (m m' : M A) :
  (forall w, m w = m' w) -> log_adds good m' -> log_adds good m.
Proof. intros E H w e. rewrite E. apply H. Qed.

Lemma log_adds_convert walk :
  log_adds utf8_lf_write
    (convert_gitlab_wiki_links_in_dir lower verbose walk).
Proof.
  unfold convert_gitlab_wiki_links_in_dir.
  apply log_adds_seq.
  - apply (log_adds_ext _ _ (scan_paths verbose (md_paths lower walk) (O, O))).
    + intros w. apply scan_walk_flat.
    + apply log_adds_scan_paths.
  - intros r. apply log_adds_seq; [apply log_adds_print; exact I | intros _].
    apply log_adds_ret.
Qed.

(** One file that exists, in a system without faults: the step completes,
    and what it wrote reads back as the rewritten text. *)
Lemma process_file_total p acc w b :
  faults w = [] -> files w !! p = Some b ->
  exists r w',
    process_file verbose p acc w = (inr r, w')
    /\ faults w' = []
    /\ (forall q, q <> p -> files w' !! q = files w !! q)
    /\ files w' !! p <> None
    /\ ((0 < count (files w) p)%nat ->
        fst (read_content p w') =
        inr (fst (rewrite_content (read_pure b)))).
Proof.
  intros Hf Hb. unfold process_file, bind.
  destruct (read_content_clean p w Hf) as (l & El & _).
  rewrite El, Hb. unfold count. rewrite Hb.
  destruct (rewrite_encodes b) as (bs & Ebs).
  pose proof (rewrite_content_no_cr _ (read_pure_no_cr b)) as Hcr.
  destruct (rewrite_content (read_pure b)) as [new_content n].
  cbn [fst snd] in *.
  destruct (Nat.ltb_spec 0 n) as [Hn | Hn].
  - rewrite write_text_clean by reflexivity. rewrite Ebs.
    destruct verbose; unfold print, bind, next_fault, emit, ret;
      cbn [files faults log];
      (eexists _, _; split; [reflexivity|]; cbn [faults files];
       split; [reflexivity|]; split; [|split];
       [ intros q Hq; apply lookup_insert_ne; congruence
       | rewrite lookup_insert_eq; discriminate
       | intros _;
         match goal with
         | |- context [read_content p ?w'] =>
             destruct (read_content_clean p w' eq_refl) as (l3 & E3 & _);
             rewrite E3
         end;
         cbn [fst files]; rewrite lookup_insert_eq;
         rewrite (read_pure_written new_content bs Ebs Hcr); reflexivity ]).
  - eexists _, _. split; [reflexivity|]. cbn [faults files].
    split; [reflexivity|]. split; [reflexivity|].
    split; [rewrite Hb; discriminate | lia].
Qed.

Lemma process_file_missing p acc w :
  faults w = [] -> files w !! p = None ->
  fst (process_file verbose p acc w) = inl FileNotFoundError.
Proof.
  intros Hf Hb. unfold process_file, bind.
  destruct (read_content_clean p w Hf) as (l & El & _).
  rewrite El, Hb. reflexivity.
Qed.

Lemma scan_paths_total ps : forall acc w,
  faults w = [] -> (forall q, In q ps -> files w !! q <> None) ->
  exists r w', scan_paths verbose ps acc w = (inr r, w') /\ faults w' = []
    /\ forall q, ~ In q ps -> files w' !! q = files w !! q.
Proof.
  induction ps as [|p ps IH]; intros acc w Hf Hex.
  - exists acc, w. split; [reflexivity|]. split; [exact Hf | reflexivity].
  - cbn [scan_paths]. unfold bind.
    destruct (files w !! p) as [b|] eqn:Eb;
      [|destruct (Hex p (or_introl eq_refl) Eb)].
    destruct (process_file_total p acc w b Hf Eb)
      as (r1 & w1 & E1 & Hf1 & Hfr & Hp & _).
    rewrite E1.
    destruct (IH r1 w1 Hf1) as (r & w' & E & Hf' & Hfr').
    { intros q Hq. destruct (decide (q = p)) as [-> | Hne];
        [exact Hp|].
      rewrite (Hfr q Hne). apply Hex. right. exact Hq. }
    exists r, w'. split; [exact E|]. split; [exact Hf'|].
    intros q Hq. rewrite Hfr' by (intros H; apply Hq; right; exact H).
    apply Hfr. intros ->. apply Hq. left. reflexivity.
Qed.

(** The opens of a read, in a system without faults. *)
Lemma read_content_trace p w b :
  faults w = [] -> files w !! p = Some b ->
  read_content p w =
  (inr (read_pure b),
   World (files w) []
     ((match decode Utf8 b with
       | Some _ => [EOpen p ModeR Utf8]
       | None => [EOpen p ModeR Latin1; EOpen p ModeR Utf8]
       end) ++ log w)).
Proof.
  intros Hf Hb. unfold read_content, try_except.
  rewrite (read_text_clean p Utf8 w Hf), Hb. unfold read_pure.
  destruct (decode Utf8 b) as [s|] eqn:Ed; [reflexivity|].
  cbn [is_Exception]. rewrite read_text_clean by reflexivity.
  cbn [files log]. rewrite Hb. reflexivity.
Qed.

End ScanAny.

(** * The mirror *)

Section HostSteps.

Lemma hbind_inr {A B} (m : HM A) (f : A -> HM B) h a h' :
  m h = (inr a, h') -> hbind m f h = f a h'.
Proof. intros E. unfold hbind. rewrite E. reflexivity. Qed.

Lemma hbind_inl {A B} (m : HM A) (f : A -> HM B) h e h' :
  m h = (inl e, h') -> hbind m f h = (inl e, h').
Proof. intros E. unfold hbind. rewrite E. reflexivity. Qed.

Lemma hprint_eq text h :
  hprint text h =
  (inr tt, Host (World (files (sys h)) (faults (sys h))
                   (EPrint text :: log (sys h)))
             (children h) (calls h)).
Proof. reflexivity. Qed.

(** The host after a child has run. *)
Lemma run_exits cmd cwd h code out eff cs :
  children h = Exits code out eff :: cs ->
  run cmd cwd true h =
  (if (code =? 0)%Z then inr tt else inl (CalledProcessError code cmd),
   Host (World (eff (files (sys h))) (faults (sys h))
           (EPrint ([9654; 65039] ++ lit " " ++ str_join (lit " ") cmd)
            :: log (sys h)))
     cs ((cmd, cwd) :: calls h)).
Proof.
  intros E. unfold run, hbind, hprint, lift, print, emit, subprocess_run, hret.
  cbn [sys children calls files faults log]. rewrite E.
  cbn [andb tl]. destruct (code =? 0)%Z; reflexivity.
Qed.

Lemma run_fails cmd cwd h e cs :
  children h = Fails e :: cs ->
  run cmd cwd true h =
  (inl (Raised e),
   Host (World (files (sys h)) (faults (sys h))
           (EPrint ([9654; 65039] ++ lit " " ++ str_join (lit " ") cmd)
            :: log (sys h)))
     cs ((cmd, cwd) :: calls h)).
Proof.
  intros E. unfold run, hbind, hprint, lift, print, emit, subprocess_run, hret.
  cbn [sys children calls files faults log]. rewrite E. reflexivity.
Qed.

Lemma run_no_child cmd cwd h :
  children h = [] ->
  run cmd cwd true h =
  (inr tt,
   Host (World (files (sys h)) (faults (sys h))
           (EPrint ([9654; 65039] ++ lit " " ++ str_join (lit " ") cmd)
            :: log (sys h)))
     [] ((cmd, cwd) :: calls h)).
Proof.
  intros E. unfold run, hbind, hprint, lift, print, emit, subprocess_run, hret.
  cbn [sys children calls files faults log]. rewrite E. reflexivity.
Qed.

End HostSteps.

Section HostOk.

Lemma tl_exits_zero cs : Forall exits_zero cs -> Forall exits_zero (tl cs).
Proof. intros H. destruct H; [constructor | assumption]. Qed.

(** A command whose child exits with status 0, or has no scripted
    outcome. *)
Lemma run_ok cmd cwd h :
  Forall exits_zero (children h) ->
  exists h',
    run cmd cwd true h = (inr tt, h')
    /\ Forall exits_zero (children h')
    /\ calls h' = (cmd, cwd) :: calls h
    /\ faults (sys h') = faults (sys h)
    /\ log (sys h') =
       EPrint ([9654; 65039] ++ lit " " ++ str_join (lit " ") cmd)
       :: log (sys h).
Proof.
  intros Hok. destruct (children h) as [|c cs] eqn:Ec.
  - rewrite (run_no_child cmd cwd h Ec). eexists. split; [reflexivity|].
    cbn [children calls sys faults log]. repeat split. constructor.
  - apply Forall_cons_iff in Hok as [Hc Hcs].
    destruct c as [code out eff | e]; [|destruct Hc].
    cbn [exits_zero] in Hc. subst code.
    rewrite (run_exits cmd cwd h 0 out eff cs Ec).
    eexists. split; [reflexivity|].
    cbn [children calls sys faults log]. repeat split. exact Hcs.
Qed.

Lemma commit_changes_ok tmpdir h :
  Forall exits_zero (children h) ->
  exists h' staged,
    commit_changes tmpdir h = (inr tt, h')
    /\ Forall exits_zero (children h')
    /\ calls h' =
       staged
       ++ ([lit "git"; lit "status"; lit "--porcelain"], Some tmpdir)
       :: calls h
    /\ (staged = [] \/
        staged =
        [([lit "git"; lit "commit"; lit "-m";
           lit "chore: rewrite GitLab-style relative wiki links for GitHub"],
          Some tmpdir);
         ([lit "git"; lit "add"; lit "-A"], Some tmpdir)])
    /\ faults (sys h') = faults (sys h).
Proof.
  intros Hok. unfold commit_changes.
  assert (Hs : exists st h1,
    subprocess_run [lit "git"; lit "status"; lit "--porcelain"]
      (Some tmpdir) false h = (inr st, h1)
    /\ Forall exits_zero (children h1)
    /\ calls h1 =
       ([lit "git"; lit "status"; lit "--porcelain"], Some tmpdir) :: calls h
    /\ faults (sys h1) = faults (sys h)).
  { unfold subprocess_run. destruct (children h) as [|c cs] eqn:Ec.
    - eexists _, _. split; [reflexivity|].
      cbn [children calls sys faults]. repeat split. constructor.
    - apply Forall_cons_iff in Hok as [Hc Hcs].
      destruct c as [code out eff | e]; [|destruct Hc].
      cbn [andb]. eexists _, _. split; [reflexivity|].
      cbn [children calls sys faults tl]. repeat split. exact Hcs. }
  destruct Hs as (st & h1 & E1 & Hok1 & Hc1 & Hf1).
  rewrite (hbind_inr _ _ _ _ _ E1). cbv zeta.
  destruct (truthy (strip (snd st))).
  - rewrite (hbind_inr _ _ _ _ _ (hprint_eq _ h1)).
    match goal with |- context [hbind _ _ ?h2] => set (h2' := h2) end.
    destruct (run_ok [lit "git"; lit "add"; lit "-A"] (Some tmpdir) h2' Hok1)
      as (h3 & E3 & Hok3 & Hc3 & Hf3 & _).
    unfold git at 1. rewrite (hbind_inr _ _ _ _ _ E3).
    destruct (run_ok [lit "git"; lit "commit"; lit "-m";
                lit "chore: rewrite GitLab-style relative wiki links for GitHub"]
                (Some tmpdir) h3 Hok3) as (h4 & E4 & Hok4 & Hc4 & Hf4 & _).
    unfold try_called, git. rewrite E4.
    exists h4, [([lit "git"; lit "commit"; lit "-m";
                  lit "chore: rewrite GitLab-style relative wiki links for GitHub"],
                 Some tmpdir);
                ([lit "git"; lit "add"; lit "-A"], Some tmpdir)].
    split; [reflexivity|]. split; [exact Hok4|].
    split; [rewrite Hc4, Hc3; subst h2'; cbn [calls]; rewrite Hc1;
            reflexivity|].
    split; [right; reflexivity|].
    rewrite Hf4, Hf3. subst h2'. cbn [sys faults]. exact Hf1.
  - rewrite hprint_eq. eexists. exists []. split; [reflexivity|].
    cbn [children calls sys faults app]. repeat split; auto.
Qed.

Lemma ensure_master_ok tmpdir h :
  Forall exits_zero (children h) ->
  exists h',
    ensure_master tmpdir h = (inr tt, h')
    /\ Forall exits_zero (children h')
    /\ calls h' =
       ([lit "git"; lit "checkout"; lit "master"], Some tmpdir) :: calls h
    /\ faults (sys h') = faults (sys h).
Proof.
  intros Hok. unfold ensure_master, try_called, git.
  destruct (run_ok [lit "git"; lit "checkout"; lit "master"] (Some tmpdir)
              h Hok) as (h1 & E1 & Hok1 & Hc1 & Hf1 & _).
  rewrite E1. exists h1. repeat split; assumption.
Qed.

Lemma push_wiki_ok tmpdir github_url h :
  Forall exits_zero (children h) ->
  exists h',
    push_wiki tmpdir github_url h = (inr tt, h')
    /\ calls h' =
       ([lit "git"; lit "push"; lit "origin"; lit "master"; lit "--force"],
        Some tmpdir) :: calls h
    /\ (opened (log (sys h')) -> opened (log (sys h))).
Proof.
  intros Hok. unfold push_wiki.
  rewrite (hbind_inr _ _ _ _ _ (hprint_eq _ h)).
  match goal with |- context [try_called _ _ ?h2] => set (h2' := h2) end.
  destruct (run_ok [lit "git"; lit "push"; lit "origin"; lit "master";
                    lit "--force"] (Some tmpdir) h2' Hok)
    as (h1 & E1 & _ & Hc1 & _ & Hl1).
  unfold try_called, git. rewrite E1. exists h1.
  split; [reflexivity|]. split; [exact Hc1|].
  rewrite Hl1. subst h2'. cbn [sys log].
  intros (p & mode & enc & [H | [H | H]]); try discriminate.
  exists p, mode, enc. exact H.
Qed.

End HostOk.

(** * Documents of paragraphs and definitions *)

Section QuietText.

Lemma no_rel_start_spec s R :
  no_rel_start s = true ->
  no_rel_head (s ++ R) = true /\ stops (Cat Space) (s ++ R).
Proof.
  unfold no_rel_start, no_rel_head. unlit.
  destruct s as [|c s]; [discriminate|]. intros H.
  apply andb_true_iff in H as [Hc H]. apply negb_true_iff in Hc.
  split; [|exact Hc]. cbn [app starts_with].
  destruct (c =? 46); [|reflexivity].
  destruct s as [|d s]; [discriminate|]. cbn [app starts_with].
  destruct (d =? 47); [discriminate|].
  destruct (d =? 46); [|reflexivity].
  destruct s as [|e s]; [discriminate|]. cbn [app starts_with].
  apply negb_true_iff in H. rewrite H. reflexivity.
Qed.

(** An open bracket of quiet text is closed in the text, and what
    follows is as [after_label] says. *)
Lemma quiet_open t :
  quiet_from true t = true ->
  exists l r, t = l ++ 93 :: r /\ no_char 93 l = true /\ after_label r = true.
Proof.
  induction t as [|c t IH]; [discriminate|]. cbn [quiet_from].
  destruct (c =? 91) eqn:E1.
  - intros H. destruct (IH H) as (l & r & -> & Hl & Hr).
    exists (c :: l), r. split; [reflexivity|]. split; [|exact Hr].
    cbn [no_char forallb]. apply N.eqb_eq in E1. subst c. exact Hl.
  - destruct (c =? 93) eqn:E2.
    + intros H. apply andb_true_iff in H as [H _].
      apply N.eqb_eq in E2. subst c. exists [], t. repeat split. exact H.
    + intros H. destruct (IH H) as (l & r & -> & Hl & Hr).
      exists (c :: l), r. split; [reflexivity|]. split; [|exact Hr].
      cbn [no_char forallb]. rewrite E2. exact Hl.
Qed.

Lemma quiet_brackets t : forall op a1 a2,
  quiet_from op t = true -> t = a1 ++ 91 :: a2 ->
  exists l r, a2 = l ++ 93 :: r /\ no_char 93 l = true /\ after_label r = true.
Proof.
  induction t as [|c t IH]; intros op a1 a2 H E.
  - destruct a1; discriminate.
  - destruct a1 as [|d a1]; cbn [app] in E; injection E as -> ->.
    + cbn [quiet_from] in H. rewrite N.eqb_refl in H.
      apply quiet_open, H.
    + cbn [quiet_from] in H.
      destruct (d =? 91); [exact (IH _ a1 a2 H eq_refl)|].
      destruct (d =? 93); [|exact (IH _ a1 a2 H eq_refl)].
      apply andb_true_iff in H as [_ H]. exact (IH _ a1 a2 H eq_refl).
Qed.


Lemma no_bracket_quiet t : no_char 91 t = true -> quiet t = true.
Proof.
  unfold quiet. induction t as [|c t IH]; [reflexivity|].
  intros H. pose proof (no_char_head _ _ _ H) as Hc.
  cbn [quiet_from]. rewrite Hc.
  destruct (c =? 93); apply IH, (no_char_tail _ _ _ H).
Qed.

(** The suffixes that begin in quiet text. *)
Lemma quiet_inner P t R :
  quiet t = true ->
  (forall y, no_bracket_head y -> P y) ->
  (forall l r, no_char 93 l = true -> after_label r = true ->
     P (91 :: l ++ 93 :: r ++ R)) ->
  inner_suffixes P t R.
Proof.
  intros Hq Hno Hlab a1 c a2 E. destruct (c =? 91) eqn:Ec.
  - apply N.eqb_eq in Ec. subst c.
    destruct (quiet_brackets t false a1 a2 Hq E) as (l & r & -> & Hl & Hr).
    rewrite <- app_assoc. cbn [app]. apply Hlab; assumption.
  - apply Hno. exact Ec.
Qed.

(** After the label of quiet text the inline pattern stops. *)
Lemma inline_after_quiet r R p g k :
  after_label r = true ->
  rmatch inline_after_label (MState p (r ++ R) g) k = None.
Proof.
  unfold after_label. destruct r as [|d b]; [discriminate|]. cbn [app].
  destruct (d =? 40) eqn:E1.
  - cbn [orb]. intros H. apply N.eqb_eq in E1. subst d.
    destruct (no_rel_start_spec _ R H) as [H1 H2].
    destruct (lstrip_split b) as (W & E & HW).
    unfold inline_after_label. rewrite rmatch_Seq. chr_eval.
    rewrite rmatch_Seq. rewrite E at 1. rewrite <- app_assoc.
    apply blank_then_no_prefix; assumption.
  - intros _. apply inline_after_other, E1.
Qed.

(** After the label of quiet text the reference pattern stops. *)
Lemma ref_after_quiet r R p g k :
  after_label r = true ->
  rmatch ref_after_label (MState p (r ++ R) g) k = None.
Proof.
  unfold after_label. destruct r as [|d b]; [discriminate|]. cbn [app].
  destruct (d =? 58) eqn:E1.
  - rewrite orb_true_r. intros H. apply N.eqb_eq in E1. subst d.
    destruct (no_rel_start_spec _ R H) as [H1 H2].
    destruct (lstrip_split b) as (W & E & HW).
    rewrite E at 1. rewrite <- app_assoc.
    apply ref_after_flat; assumption.
  - intros _. apply ref_after_other. exact E1.
Qed.

Lemma inline_inner_quiet t R :
  quiet t = true ->
  inner_suffixes (fun y => forall q, match_at LINK_INLINE_RE q y = None) t R.
Proof.
  intros Hq. apply quiet_inner; [exact Hq | |].
  - intros y Hy q. apply inline_no_bracket, Hy.
  - intros l r Hl Hr q. unfold match_at. rewrite LINK_INLINE_RE_split.
    apply label_fail; [exact Hl|].
    intros p g. apply inline_after_quiet, Hr.
Qed.

Lemma ref_inner_quiet t R :
  quiet t = true ->
  inner_suffixes (fun y => forall p g,
                    rmatch ref_bracket (MState p y g) Some = None) t R.
Proof.
  intros Hq. apply quiet_inner; [exact Hq | |].
  - intros y Hy p g. apply ref_no_bracket, Hy.
  - intros l r Hl Hr p g. unfold ref_bracket.
    apply label_fail; [exact Hl|].
    intros p' g'. apply ref_after_quiet, Hr.
Qed.

End QuietText.
Section Paragraphs.

Lemma inner_render P ps R :
  (forall x R', In x ps -> inner_suffixes P (piece_text x) R') ->
  inner_suffixes P (render ps) R.
Proof.
  revert R. induction ps as [|x ps IH]; intros R Hin.
  - intros a1 c a2 E. destruct a1; discriminate.
  - change (render (x :: ps)) with (piece_text x ++ render ps).
    apply inner_app.
    + apply Hin. left. reflexivity.
    + apply IH. intros y R' Hy. apply Hin. right. exact Hy.
Qed.

(** The suffixes that begin in [[L] S], when no bracket opens in [S]. *)
Lemma bracket_inner P L S R :
  no_char 93 L = true -> no_char 91 S = true ->
  (forall y, no_bracket_head y -> P y) ->
  (forall l, no_char 93 l = true -> P (91 :: l ++ 93 :: S ++ R)) ->
  inner_suffixes P ((91 :: L) ++ 93 :: S) R.
Proof.
  intros HL HS Hno Hlab. apply inner_app.
  - intros a1 c a2 E. destruct (c =? 91) eqn:Ec.
    + apply N.eqb_eq in Ec. subst c.
      change (a2 ++ (93 :: S) ++ R) with (a2 ++ 93 :: S ++ R).
      apply Hlab. destruct a1 as [|d a1]; simpl in E.
      * injection E as E. subst. exact HL.
      * injection E as _ E. apply (no_char_suffix 93 L a1 91 a2 HL E).
    + apply Hno. exact Ec.
  - apply inner_no_bracket; [|exact Hno].
    change (93 :: S) with ([93] ++ S). rewrite no_char_app, HS. reflexivity.
Qed.

Lemma item_flatten_ok x : item_ok x -> item_ok (flatten x).
Proof.
  destruct x as [t | L segs X o | L T]; cbn [flatten item_ok];
    try (intros H; exact H).
  intros H. apply (flatten_ok (Rel L segs X o)), H.
Qed.

Lemma items_flatten_ok ps :
  Forall item_ok ps -> Forall item_ok (List.map flatten ps).
Proof.
  induction 1 as [|x ps Hx _ IH]; [constructor|].
  constructor; [apply item_flatten_ok, Hx | exact IH].
Qed.

Lemma prev_after_flatten ps : forall p,
  prev_after p (render (List.map flatten ps)) = prev_after p (render ps).
Proof.
  induction ps as [|x ps IH]; intros p; [reflexivity|].
  change (render (List.map flatten (x :: ps)))
    with (piece_text (flatten x) ++ render (List.map flatten ps)).
  change (render (x :: ps)) with (piece_text x ++ render ps).
  rewrite !prev_after_app, IH. f_equal.
  destruct x as [t | L segs X o | L T]; cbn [flatten piece_text];
    try reflexivity.
  unfold inline_link. rewrite !app_assoc, !prev_after_app. reflexivity.
Qed.

(** The inline pattern fails at every position of a part that is no
    link with a relative prefix. *)
Lemma inline_inner_item x R :
  item_ok x -> is_rel x = false ->
  inner_suffixes (fun y => forall q, match_at LINK_INLINE_RE q y = None)
    (piece_text x) R.
Proof.
  destruct x as [t | L segs X o | L T]; cbn [item_ok is_rel piece_text];
    intros Hx Hr; [|discriminate|].
  - apply inline_inner_quiet, Hx.
  - apply inline_inner_flat, Hx.
Qed.

(** The reference pattern finds no label and colon with a relative
    target at any position of a part of a paragraph. *)
Lemma ref_inner_item x R :
  item_ok x ->
  inner_suffixes (fun y => forall p g,
                    rmatch ref_bracket (MState p y g) Some = None)
    (piece_text x) R.
Proof.
  assert (Hlink : forall L T, no_char 93 L = true -> no_char 91 T = true ->
            inner_suffixes
              (fun y => forall p g,
                 rmatch ref_bracket (MState p y g) Some = None)
              (inline_link L T) R).
  { intros L T HL HT. apply link_inner; try assumption.
    - intros y Hy p g. apply ref_no_bracket, Hy.
    - intros l Hl p g. unfold ref_bracket.
      apply label_fail; [exact Hl|].
      intros p' g'. apply ref_after_other. reflexivity. }
  destruct x as [t | L segs X o | L T]; cbn [item_ok piece_text]; intros Hx.
  - apply ref_inner_quiet, Hx.
  - destruct Hx as ([_ HL] & _ & _ & _ & Hbr).
    apply Hlink; [exact HL | apply rel_target_no_bracket, Hbr].
  - destruct Hx as (HL & HT & _). apply Hlink; assumption.
Qed.

Lemma ref_inner_para ps R :
  Forall item_ok ps ->
  inner_suffixes (fun y => forall p g,
                    rmatch ref_bracket (MState p y g) Some = None)
    (render ps) R.
Proof.
  intros Hps. apply inner_render. intros x R' Hx.
  apply ref_inner_item. rewrite List.Forall_forall in Hps. apply Hps, Hx.
Qed.

Lemma inline_inner_para ps R :
  Forall item_ok ps -> Forall (fun x => is_rel x = false) ps ->
  inner_suffixes (fun y => forall q, match_at LINK_INLINE_RE q y = None)
    (render ps) R.
Proof.
  intros Hps Hfl. apply inner_render. intros x R' Hx.
  rewrite List.Forall_forall in Hps, Hfl.
  apply inline_inner_item; [apply Hps, Hx | apply Hfl, Hx].
Qed.

Lemma flatten_not_rel ps :
  Forall (fun x => is_rel x = false) (List.map flatten ps).
Proof.
  induction ps as [|x ps IH]; constructor; [|exact IH].
  destruct x; reflexivity.
Qed.

(** The inline rule over a paragraph and what follows it. *)
Lemma inline_para ps :
  Forall item_ok ps -> forall R p,
  subn_from LINK_INLINE_RE _replace_inline_match p (render ps ++ R) O =
  (render (List.map flatten ps)
   ++ fst (subn_from LINK_INLINE_RE _replace_inline_match
             (prev_after p (render ps)) R O),
   (length (List.filter is_rel ps)
    + snd (subn_from LINK_INLINE_RE _replace_inline_match
             (prev_after p (render ps)) R O))%nat).
Proof.
  induction 1 as [|x ps Hx Hps IH]; intros R p.
  - cbn [render flat_map app List.map List.filter length prev_after fold_left].
    destruct (subn_from _ _ p R O); reflexivity.
  - change (render (x :: ps)) with (piece_text x ++ render ps).
    rewrite <- app_assoc, prev_after_app.
    destruct x as [t | L segs X o | L T]; cbn [piece_text item_ok] in *.
    + rewrite subn_from_pass by (apply inline_inner_quiet, Hx).
      rewrite IH. cbn [fst snd List.map flatten List.filter is_rel].
      change (render (Text t :: List.map flatten ps))
        with (t ++ render (List.map flatten ps)).
      rewrite <- app_assoc. reflexivity.
    + destruct Hx as (HL & Hsegs & HX & Ho & Hbr).
      rewrite (subn_from_hit _ _ _ _ _
                 (MState (Some 41) (render ps ++ R) (inline_caps L X o))).
      * rewrite IH, inline_repl_link by apply HX.
        cbn [fst snd List.map flatten List.filter is_rel length].
        change (render (Flat L (X ++ anchor_text o) :: List.map flatten ps))
          with (inline_link L (X ++ anchor_text o)
                ++ render (List.map flatten ps)).
        rewrite <- app_assoc. reflexivity.
      * unfold inline_link. unlit. discriminate.
      * apply inline_match_link; assumption.
      * reflexivity.
    + rewrite subn_from_pass by (apply inline_inner_flat, Hx).
      rewrite IH. cbn [fst snd List.map flatten List.filter is_rel].
      change (render (Flat L T :: List.map flatten ps))
        with (inline_link L T ++ render (List.map flatten ps)).
      rewrite <- app_assoc. reflexivity.
Qed.

End Paragraphs.
Section DefinitionsInline.

Lemma def_text_eq d :
  def_text d =
  d_lead d ++ (91 :: d_label d)
  ++ 93 :: 58 :: d_gap d ++ rel_path (d_segs d) ++ d_path d
       ++ anchor_text (d_anchor d) ++ title_text (d_title d) ++ d_trail d.
Proof. unfold def_text, ref_line. unlit. reflexivity. Qed.

Lemma def_flat_eq d :
  def_flat d =
  (91 :: d_label d) ++ 93 :: 58 :: 32 :: d_path d ++ anchor_text (d_anchor d).
Proof. unfold def_flat. unlit. reflexivity. Qed.

Lemma def_text_cons d : exists c s, def_text d = c :: s.
Proof.
  rewrite def_text_eq. destruct (d_lead d) as [|c s]; eexists _, _; reflexivity.
Qed.

Lemma def_after_colon d :
  def_ok d ->
  no_char 91 (58 :: d_gap d ++ rel_path (d_segs d) ++ d_path d
              ++ anchor_text (d_anchor d) ++ title_text (d_title d)
              ++ d_trail d) = true.
Proof.
  intros (_ & _ & Hg & _ & _ & _ & _ & Ht & Hbr).
  change (58 :: ?s) with ([58] ++ s).
  rewrite !app_assoc in Hbr.
  rewrite !no_char_app in *.
  apply andb_true_iff in Hbr as [Hbr H3].
  apply andb_true_iff in Hbr as [H1 H2].
  rewrite (blank_no_bracket _ Hg), rel_path_no_bracket, H1, H2, H3,
    (blank_no_bracket _ Ht).
  reflexivity.
Qed.

(** The inline pattern matches nowhere in a definition, whatever
    follows it. *)
Lemma inline_inner_def d R :
  def_ok d ->
  inner_suffixes (fun y => forall q, match_at LINK_INLINE_RE q y = None)
    (def_text d) R.
Proof.
  intros Hd. pose proof (def_after_colon d Hd) as Hc.
  destruct Hd as (Hl & [_ HL] & _).
  rewrite def_text_eq. apply inner_app.
  - apply inner_no_bracket; [apply blank_no_bracket, Hl|].
    intros y Hy q. apply inline_no_bracket, Hy.
  - apply bracket_inner; [exact HL | exact Hc | |].
    + intros y Hy q. apply inline_no_bracket, Hy.
    + intros l Hl' q. unfold match_at. rewrite LINK_INLINE_RE_split.
      apply label_fail; [exact Hl'|].
      intros p g. apply inline_after_other. reflexivity.
Qed.

Lemma inline_inner_sep o R :
  match o with Some B => blank B | None => True end ->
  inner_suffixes (fun y => forall q, match_at LINK_INLINE_RE q y = None)
    (sep_text o) R.
Proof.
  intros Ho. apply inner_no_bracket.
  - destruct o as [B|]; [|reflexivity]. cbn [sep_text].
    rewrite no_char_app, (blank_no_bracket _ Ho). reflexivity.
  - intros y Hy q. apply inline_no_bracket, Hy.
Qed.

Lemma sep_ok_blank p para o :
  sep_ok p para o -> match o with Some B => blank B | None => True end.
Proof. destruct o; [intros [H _]; exact H | trivial]. Qed.

Lemma doc_text_cons b bs last :
  doc_text (b :: bs) last =
  render (b_para b) ++ sep_text (b_sep b) ++ def_text (b_def b)
  ++ doc_text bs last.
Proof.
  unfold doc_text, block_text. cbn [flat_map].
  rewrite <- !app_assoc. reflexivity.
Qed.

(** The inline rule over a document: the links with a relative prefix
    of its paragraphs are replaced by their flat form; the definitions
    are copied. *)
Lemma inline_doc_blocks bs : forall last p,
  doc_ok p bs last -> forall q,
  subn_from LINK_INLINE_RE _replace_inline_match q (doc_text bs last) O =
  (doc_text (List.map flat_block bs) (List.map flatten last),
   (list_sum (List.map (fun b => length (List.filter is_rel (b_para b))) bs)
    + length (List.filter is_rel last))%nat).
Proof.
  induction bs as [|b bs IH]; intros last p Hok q.
  - cbn [doc_ok] in Hok. unfold doc_text. cbn [flat_map List.map list_sum app].
    rewrite <- (app_nil_r (render last)), (inline_para last Hok [] q).
    cbn [subn_from]. rewrite inline_nil. cbn [fst snd].
    rewrite !app_nil_r. f_equal. unfold list_sum. cbn [fold_right]. lia.
  - cbn [doc_ok] in Hok. destruct Hok as (Hp & Hs & Hd & _ & Hrest).
    cbn [List.map]. rewrite !doc_text_cons.
    rewrite (inline_para _ Hp).
    rewrite subn_from_pass
      by (apply inline_inner_sep, (sep_ok_blank _ _ _ Hs)).
    rewrite subn_from_pass by (apply inline_inner_def, Hd).
    rewrite (IH last _ Hrest). cbn [fst snd flat_block b_para b_sep b_def].
    cbn [List.map]. unfold list_sum. cbn [fold_right]. f_equal. lia.
Qed.

End DefinitionsInline.
Section DefinitionInPlace.

Lemma first_mark_split s :
  first_mark s = true ->
  exists B c more,
    s = B ++ c :: more /\ blank B /\ no_char 10 B = true /\
    is_space c = false /\ is_quote c = false.
Proof.
  induction s as [|c s IH]; [discriminate|]. cbn [first_mark].
  destruct (c =? 10) eqn:E1; [discriminate|].
  destruct (is_space c) eqn:E2.
  - intros H. destruct (IH H) as (B & d & more & -> & HB & Hn & Hd & Hq).
    exists (c :: B), d, more. split; [reflexivity|].
    split; [unfold blank in *; cbn [forallb]; rewrite E2; exact HB|].
    split; [cbn [no_char forallb]; rewrite E1; exact Hn|].
    split; assumption.
  - intros H. apply negb_true_iff in H.
    exists [], c, s. repeat split; assumption.
Qed.

(** What follows a definition begins with a line feed, if with
    anything. *)
Lemma line_tail_head Tl :
  line_tail Tl = true ->
  match Tl with [] => True | c :: _ => is_space c = true end.
Proof.
  destruct Tl as [|c Tl]; [trivial|]. cbn [line_tail]. intros H.
  apply andb_true_iff in H as [H _]. apply N.eqb_eq in H. subst c.
  reflexivity.
Qed.

Lemma line_tail_split Tl :
  line_tail Tl = true ->
  Tl = [] \/
  exists B c more,
    Tl = 10 :: B ++ c :: more /\ blank B /\ no_char 10 B = true /\
    is_space c = false /\ is_quote c = false.
Proof.
  destruct Tl as [|c Tl]; [left; reflexivity|]. cbn [line_tail]. intros H.
  apply andb_true_iff in H as [H1 H2]. apply N.eqb_eq in H1. subst c.
  right. destruct (first_mark_split _ H2) as (B & c & more & -> & H).
  exists B, c, more. split; [reflexivity | exact H].
Qed.

Lemma blank_app a b : blank a -> blank b -> blank (a ++ b).
Proof.
  unfold blank. intros Ha Hb. rewrite forallb_app, Ha, Hb. reflexivity.
Qed.

(** Trailing blanks and the end of the line: the blanks are read up to
    the end of the text, or up to the last line feed before the next
    line that is not blank. *)
Lemma ws_eol_take W Tl p g :
  blank W -> line_tail Tl = true ->
  rmatch (Seq ws_star Eol) (MState p (W ++ Tl) g) Some =
  Some (MState (prev_after p W) Tl g).
Proof.
  intros HW HT. rewrite rmatch_Seq.
  destruct (line_tail_split Tl HT)
    as [-> | (B & c & more & -> & HB & Hn & Hc & _)].
  - apply blank_take; [exact HW | exact I | reflexivity].
  - unfold ws_star. apply star_greedy_back.
    + exact HW.
    + reflexivity.
    + apply star_greedy_none; [exact HB | exact Hc | |].
      * intros a1 d a2 p' E. rewrite rmatch_Eol. unfold at_eol. cbn [rest].
        rewrite (no_char_neq 10 d B a1 a2 Hn E). reflexivity.
      * intros p'. rewrite rmatch_Eol. unfold at_eol. cbn [rest].
        destruct (N.eqb_spec c 10) as [-> | _]; [discriminate | reflexivity].
    + rewrite rmatch_Eol. reflexivity.
Qed.

(** The longest run of characters other than a line feed, in trailing
    blanks and what follows a definition, is made of blanks and stops
    before a blank or at the end. *)
Lemma dot_run_blank W Tl :
  blank W -> line_tail Tl = true ->
  exists a b, W ++ Tl = a ++ b /\ forallb (accepts Dot) a = true /\
    blank a /\ match b with [] => True | c :: _ => c = 10 end.
Proof.
  intros HW HT. induction W as [|c W IH].
  - exists [], Tl. repeat split.
    destruct Tl as [|c Tl]; [exact I|]. cbn [line_tail] in HT.
    apply andb_true_iff in HT as [H _]. apply N.eqb_eq in H. exact H.
  - unfold blank in HW. cbn [forallb] in HW.
    apply andb_true_iff in HW as [Hc HW].
    destruct (c =? 10) eqn:E.
    + apply N.eqb_eq in E. subst c.
      exists [], (10 :: W ++ Tl). repeat split.
    + destruct (IH HW) as (a & b & Eab & Ha & Hbl & Hb).
      exists (c :: a), b. cbn [app]. rewrite Eab. split; [reflexivity|].
      split; [cbn [forallb accepts]; rewrite E; exact Ha|].
      split; [unfold blank in *; cbn [forallb]; rewrite Hc; exact Hbl|].
      exact Hb.
Qed.

(** No closing quote is found after the title. *)
Lemma quote_in_tail_none W Tl p g k :
  blank W -> line_tail Tl = true ->
  rmatch (Star true (Chr Dot)) (MState p (W ++ Tl) g)
    (fun st => rmatch (Chr (OneOf [One 34; One 39])) st k) = None.
Proof.
  intros HW HT.
  destruct (dot_run_blank W Tl HW HT) as (a & b & -> & Ha & Hbl & Hb).
  apply star_greedy_none; [exact Ha | | |].
  - destruct b as [|c b]; [exact I|]. subst c. reflexivity.
  - intros a1 c a2 p' E. rewrite rmatch_Chr_cons.
    unfold blank in Hbl. rewrite E in Hbl.
    apply forallb_mid in Hbl as [Hc _].
    rewrite (space_not_quote c Hc). reflexivity.
  - intros p'. destruct b as [|c b]; [reflexivity|]. subst c.
    rewrite rmatch_Chr_cons. reflexivity.
Qed.

(** No title starts in the trailing blanks or on the next line. *)
Lemma title_in_tail_none W Tl p g k :
  blank W -> line_tail Tl = true ->
  rmatch title_re (MState p (W ++ Tl) g) k = None.
Proof.
  intros HW HT.
  destruct (line_tail_split Tl HT)
    as [-> | (B & c & more & -> & HB & _ & Hc & Hq)].
  - rewrite app_nil_r. apply title_in_blank_none, HW.
  - assert (Hrun : blank (W ++ 10 :: B)).
    { apply blank_app; [exact HW|]. unfold blank in *. cbn [forallb].
      exact HB. }
    replace (W ++ 10 :: B ++ c :: more) with ((W ++ 10 :: B) ++ c :: more)
      by (rewrite <- app_assoc; reflexivity).
    unfold title_re, Plus. rewrite !rmatch_Seq.
    destruct (W ++ 10 :: B) as [|r0 run] eqn:Er;
      [destruct W; discriminate|].
    unfold blank in Hrun. cbn [forallb] in Hrun.
    apply andb_true_iff in Hrun as [Hr0 Hrun].
    cbn [app]. rewrite rmatch_Chr_cons. cbn [accepts item_mem]. rewrite Hr0.
    apply star_greedy_none; [exact Hrun | exact Hc | |].
    + intros a1 d a2 p' E. rewrite rmatch_Seq, rmatch_Chr_cons.
      rewrite E in Hrun. apply forallb_mid in Hrun as [Hd _].
      rewrite (space_not_quote d Hd). reflexivity.
    + intros p'. rewrite rmatch_Seq, rmatch_Chr_cons.
      unfold is_quote in Hq. unlit. cbn [accepts existsb item_mem].
      rewrite orb_false_r. rewrite Hq. reflexivity.
Qed.

(** The end of a definition in its place: an optional title, trailing
    blanks, and the end of the line. *)
Lemma ref_end_place t W Tl p g :
  title_ok t -> blank W -> line_tail Tl = true ->
  rmatch ref_end (MState p (title_text t ++ W ++ Tl) g) Some =
  Some (MState (prev_after p (title_text t ++ W)) Tl g).
Proof.
  intros Ht HW HT. unfold ref_end, Opt. rewrite rmatch_Seq, rmatch_Alt.
  destruct t as [[gap q1 T q2]|]; unfold title_ok, title_text in *;
    cbn [t_gap t_open t_text t_close] in *.
  - destruct Ht as (Hg1 & Hg2 & Hq1 & Hq2 & HT1 & HT2).
    destruct gap as [|w gap]; [congruence|].
    destruct T as [|t0 T]; [congruence|].
    unfold blank in Hg2. simpl in Hg2. apply andb_true_iff in Hg2 as [Hw Hg2].
    pose proof (no_char_head _ _ _ HT2) as Ht0.
    pose proof (no_char_tail _ _ _ HT2) as HT'.
    assert (E : rmatch title_re
      (MState p (((w :: gap) ++ q1 :: (t0 :: T) ++ [q2]) ++ W ++ Tl) g)
      (fun st' => rmatch (Seq ws_star Eol) st' Some) =
      Some (MState (prev_after (Some q2) W) Tl g)).
    { unfold title_re, Plus. rewrite <- app_assoc. cbn [app].
      rewrite !rmatch_Seq, rmatch_Chr_cons. cbn [accepts item_mem].
      rewrite Hw.
      apply star_greedy_take; [exact Hg2 | |].
      { cbn [stops accepts item_mem]. apply quote_not_space, Hq1. }
      rewrite rmatch_Seq, rmatch_Chr_cons, (quote_accepts q1 Hq1).
      rewrite !rmatch_Seq, rmatch_Chr_cons. cbn [accepts]. rewrite Ht0.
      cbn [negb]. rewrite <- app_assoc. cbn [app].
      apply star_greedy_back.
      - revert HT'. apply forallb_imp. intros x Hx. exact Hx.
      - apply quote_not_nl, Hq2.
      - apply quote_in_tail_none; assumption.
      - rewrite rmatch_Chr_cons, (quote_accepts q2 Hq2).
        apply ws_eol_take; assumption. }
    rewrite E. cbn [orelse]. f_equal. f_equal.
    replace (((w :: gap) ++ q1 :: (t0 :: T) ++ [q2]) ++ W)
      with (((w :: gap) ++ q1 :: t0 :: T) ++ q2 :: W)
      by (rewrite <- !app_assoc; cbn [app]; rewrite <- app_assoc; reflexivity).
    rewrite prev_after_app. reflexivity.
  - cbn [app]. rewrite (title_in_tail_none W Tl p g _ HW HT). cbn [orelse].
    rewrite rmatch_Eps. apply ws_eol_take; assumption.
Qed.

(** What follows the path and the anchor begins with a blank, if with
    anything. *)
Lemma end_head_place t W Tl :
  title_ok t -> blank W -> line_tail Tl = true ->
  match title_text t ++ W ++ Tl with
  | [] => True
  | c :: _ => is_space c = true
  end.
Proof.
  intros Ht HW HT. destruct t as [[gap q1 T q2]|]; simpl in *.
  - destruct Ht as (Hg1 & Hg2 & _). destruct gap as [|w gap]; [congruence|].
    unfold blank in Hg2. simpl in *. apply andb_true_iff in Hg2 as [H _]. exact H.
  - destruct W as [|c W]; [apply line_tail_head, HT|]. unfold blank in HW.
    simpl in HW. apply andb_true_iff in HW as [H _]. exact H.
Qed.

Lemma ref_tail_place o t W Tl p g :
  ref_anchor_ok o -> title_ok t -> blank W -> line_tail Tl = true ->
  rmatch ref_tail (MState p (anchor_text o ++ title_text t ++ W ++ Tl) g) Some =
  Some (MState (prev_after p (anchor_text o ++ title_text t ++ W)) Tl
          (match o with Some _ => (3%nat, anchor_text o) :: g | None => g end)).
Proof.
  intros Ho Ht HW HT. pose proof (end_head_place t W Tl Ht HW HT) as Hhead.
  unfold ref_tail, Opt. rewrite rmatch_Seq, rmatch_Alt.
  destruct o as [sec|]; unfold ref_anchor_ok, anchor_text in *; unlit.
  - destruct Ho as [Hne Hs]. destruct sec as [|c sec]; [congruence|].
    pose proof (accepts_not_space _ Hs) as Hall.
    cbn [forallb] in Hall. apply andb_true_iff in Hall as [Hc Hall].
    match goal with |- orelse ?x _ = Some ?r =>
      assert (E : x = Some r); [|rewrite E; reflexivity] end.
    rewrite rmatch_Group, rmatch_Seq. cbn [app]. chr_eval.
    unfold Plus. rewrite rmatch_Seq, rmatch_Chr_cons, Hc.
    apply star_greedy_take; [exact Hall | |].
    { destruct (title_text t ++ W ++ Tl) as [|d R]; [exact I|].
      cbn [stops accepts existsb item_mem]. rewrite Hhead. reflexivity. }
    change (35 :: c :: sec ++ title_text t ++ W ++ Tl)
      with ((35 :: c :: sec) ++ title_text t ++ W ++ Tl).
    rewrite close_group_app, ref_end_place by assumption.
    change (35 :: c :: sec ++ title_text t ++ W)
      with ((35 :: c :: sec) ++ title_text t ++ W).
    rewrite (prev_after_app p (35 :: c :: sec)). reflexivity.
  - cbn [app]. rewrite rmatch_Group, rmatch_Seq.
    assert (E : forall k, rmatch (Chr (Char 35))
                (MState p (title_text t ++ W ++ Tl) g) k = None).
    { intros k. destruct (title_text t ++ W ++ Tl) as [|d R]; [reflexivity|].
      rewrite rmatch_Chr_cons. cbn [accepts].
      rewrite (space_neq d 35 Hhead eq_refl). reflexivity. }
    rewrite E. cbn [orelse]. rewrite rmatch_Eps.
    apply ref_end_place; assumption.
Qed.

Lemma ref_after_head_place o t W Tl :
  ref_anchor_ok o -> title_ok t -> blank W -> line_tail Tl = true ->
  match anchor_text o ++ title_text t ++ W ++ Tl with
  | [] => True
  | c :: _ => (c =? 46) = false /\ (c =? 47) = false
  end /\ stops (NotIn [Space; One 35]) (anchor_text o ++ title_text t ++ W ++ Tl).
Proof.
  intros Ho Ht HW HT. pose proof (end_head_place t W Tl Ht HW HT) as Hhead.
  destruct o as [sec|].
  - split; [split|]; reflexivity.
  - cbn [anchor_text app]. split; [apply space_head_ok, Hhead|].
    destruct (title_text t ++ W ++ Tl) as [|d R]; [exact I|].
    cbn [stops accepts existsb item_mem]. rewrite Hhead. reflexivity.
Qed.

(** The reference pattern matches a definition at the start of a line,
    up to the end of its trailing blanks. *)
Lemma ref_match_place d Tl p :
  def_ok d -> line_tail Tl = true -> line_start p = true ->
  exists pf,
    match_at REF_LINK_RE p (def_text d ++ Tl) =
    Some (MState pf Tl (inline_caps (d_label d) (d_path d) (d_anchor d))).
Proof.
  destruct d as [W1 L W2 segs X o t W3].
  cbn [d_lead d_label d_gap d_segs d_path d_anchor d_title d_trail].
  intros (HW1 & [HL1 HL2] & HW2 & Hsegs & (HX1 & HX2 & HX3 & HX4) & Ho & Ht
          & HW3 & _) HT Hp.
  cbn [d_lead d_label d_gap d_segs d_path d_anchor d_title d_trail] in *.
  destruct (ref_after_head_place o t W3 Tl Ho Ht HW3 HT) as [Hhead Hstop].
  exists (prev_after (prev_after (Some 47) X)
            (anchor_text o ++ title_text t ++ W3)).
  rewrite def_text_eq.
  cbn [d_lead d_label d_gap d_segs d_path d_anchor d_title d_trail].
  unfold match_at, REF_LINK_RE. unlit.
  rewrite <- !app_assoc. cbn [app]. rewrite <- !app_assoc.
  rewrite rmatch_Seq, rmatch_Bol. unfold at_bol. cbn [prev].
  unfold line_start in Hp. rewrite Hp.
  rewrite rmatch_Seq. apply blank_take; [exact HW1 | reflexivity |].
  rewrite rmatch_Seq. chr_eval. rewrite rmatch_Seq.
  apply group_plus_take; [exact HL1 | | reflexivity |].
  { revert HL2. apply forallb_imp. intros x Hx.
    apply negb_true_iff in Hx. unfold accepts, existsb, item_mem.
    rewrite Hx. reflexivity. }
  rewrite rmatch_Seq. chr_eval. rewrite rmatch_Seq. chr_eval.
  rewrite rmatch_Seq. apply blank_take; [exact HW2 | |].
  { destruct (rel_path_head segs
               (X ++ anchor_text o ++ title_text t ++ W3 ++ Tl) Hsegs)
      as [u Eu].
    rewrite Eu. reflexivity. }
  rewrite rmatch_Seq.
  apply rel_prefix_take; [exact Hsegs | |].
  { apply no_rel_head_app; assumption. }
  rewrite rmatch_Seq. unfold ws_star at 1.
  destruct X as [|c X]; [congruence|].
  pose proof HX2 as HX2'. unfold no_space in HX2. cbn [forallb] in HX2.
  apply andb_true_iff in HX2 as [Hc HX2]. apply negb_true_iff in Hc.
  cbn [app]. rewrite star_stop by exact Hc.
  rewrite rmatch_Seq, rmatch_Group, rmatch_Seq, rmatch_Chr_cons.
  pose proof (no_char_head _ _ _ HX3) as Hc2.
  unfold accepts at 1, existsb, item_mem. rewrite Hc, Hc2. cbn [orb negb].
  apply star_greedy_take; [ | exact Hstop | ].
  { apply (forallb_imp (fun x => negb (is_space x) && negb (x =? 35))).
    - intros x Hx. apply andb_true_iff in Hx as [E1 E2].
      apply negb_true_iff in E1, E2.
      unfold accepts, existsb, item_mem. rewrite E1, E2. reflexivity.
    - apply forallb_both; [exact HX2 | apply (no_char_tail _ _ _ HX3)]. }
  change (c :: X ++ anchor_text o ++ title_text t ++ W3 ++ Tl)
    with ((c :: X) ++ anchor_text o ++ title_text t ++ W3 ++ Tl).
  rewrite close_group_app.
  etransitivity; [apply ref_tail_place; assumption|].
  destruct o; reflexivity.
Qed.

End DefinitionInPlace.
Section DefinitionsRef.

Lemma same_head_app x s s' : same_head s s' -> same_head (x ++ s) (x ++ s').
Proof.
  intros [-> | (a & r & r' & -> & ->)]; [left; reflexivity|].
  right. exists (x ++ a), r, r'. rewrite <- !app_assoc. split; reflexivity.
Qed.

Lemma same_head_para ps : forall R R',
  same_head R R' ->
  same_head (render ps ++ R) (render (List.map flatten ps) ++ R').
Proof.
  induction ps as [|x ps IH]; intros R R' H; [exact H|].
  change (render (x :: ps)) with (piece_text x ++ render ps).
  change (render (List.map flatten (x :: ps)))
    with (piece_text (flatten x) ++ render (List.map flatten ps)).
  rewrite <- !app_assoc.
  destruct x as [t | L segs X o | L T]; cbn [flatten piece_text];
    try (apply same_head_app, IH, H).
  right. unfold inline_link. unlit. rewrite <- !app_assoc. cbn [app].
  exists []. eexists _, _. split; reflexivity.
Qed.

Lemma same_head_doc bs last :
  same_head (doc_text bs last)
    (doc_text (List.map flat_block bs) (List.map flatten last)).
Proof.
  induction bs as [|b bs IH].
  - unfold doc_text. cbn [flat_map List.map app].
    rewrite <- (app_nil_r (render last)),
      <- (app_nil_r (render (List.map flatten last))).
    apply same_head_para. left. reflexivity.
  - cbn [List.map]. rewrite !doc_text_cons.
    cbn [flat_block b_para b_sep b_def].
    apply same_head_para, same_head_app, same_head_app, IH.
Qed.

Lemma first_mark_bracket a r r' :
  first_mark (a ++ 91 :: r) = first_mark (a ++ 91 :: r').
Proof.
  induction a as [|c a IH]; [reflexivity|]. cbn [app first_mark].
  rewrite IH. reflexivity.
Qed.

Lemma line_tail_same s s' : same_head s s' -> line_tail s = line_tail s'.
Proof.
  intros [-> | (a & r & r' & -> & ->)]; [reflexivity|].
  destruct a as [|c a]; [reflexivity|]. cbn [app line_tail].
  rewrite (first_mark_bracket a r r'). reflexivity.
Qed.

Lemma line_tail_flat bs last :
  line_tail (doc_text (List.map flat_block bs) (List.map flatten last)) =
  line_tail (doc_text bs last).
Proof. symmetry. apply line_tail_same, same_head_doc. Qed.

(** A part of the text in which no attempt succeeds where it stands is
    copied. *)
Lemma subn_from_pass_at re repl a : forall R p,
  (forall a1 c a2, a = a1 ++ c :: a2 ->
     match_at re (prev_after p a1) (c :: a2 ++ R) = None) ->
  subn_from re repl p (a ++ R) O =
  (a ++ fst (subn_from re repl (prev_after p a) R O),
   snd (subn_from re repl (prev_after p a) R O)).
Proof.
  induction a as [|c a IH]; intros R p H.
  - cbn [app prev_after fold_left].
    destruct (subn_from re repl p R O); reflexivity.
  - cbn [app subn_from]. pose proof (H [] c a eq_refl) as H0.
    cbn [prev_after fold_left] in H0. rewrite H0.
    rewrite IH.
    + reflexivity.
    + intros a1 d a2 E. apply (H (c :: a1) d a2). rewrite E. reflexivity.
Qed.

(** The reference pattern matches only at the start of a line. *)
Lemma ref_not_bol p s :
  line_start p = false -> match_at REF_LINK_RE p s = None.
Proof.
  intros H. unfold match_at. rewrite REF_LINK_RE_split, rmatch_Seq, rmatch_Bol.
  unfold at_bol. cbn [prev]. unfold line_start in H. rewrite H. reflexivity.
Qed.

(** It fails where, after the blanks, no label with a colon and a
    relative target stands. *)
Lemma ref_attempt_none w y p :
  blank w -> stops (Cat Space) y ->
  (forall q g, rmatch ref_bracket (MState q y g) Some = None) ->
  match_at REF_LINK_RE p (w ++ y) = None.
Proof.
  intros Hw Hy H. unfold match_at.
  rewrite REF_LINK_RE_split, rmatch_Seq, rmatch_Bol.
  destruct (at_bol _); [|reflexivity]. rewrite rmatch_Seq.
  apply star_greedy_none; [exact Hw | exact Hy | |].
  - intros a1 c a2 p' E. apply ref_no_bracket. cbn [no_bracket_head].
    unfold blank in Hw. rewrite E in Hw. apply forallb_mid in Hw as [Hc _].
    apply (space_neq c 91 Hc eq_refl).
  - intros p'. apply H.
Qed.

Lemma prev_after_snoc p a x : prev_after p (a ++ [x]) = Some x.
Proof. rewrite prev_after_app. reflexivity. Qed.

Lemma prev_after_blank p a c s d :
  blank (c :: s) -> prev_after p (a ++ c :: s) = Some d -> is_space d = true.
Proof.
  intros Hb E.
  destruct (exists_last (l := c :: s)) as (l & x & El); [discriminate|].
  rewrite El, app_assoc, prev_after_snoc in E. injection E as <-.
  unfold blank in Hb. rewrite El, forallb_app in Hb.
  apply andb_true_iff in Hb as [_ Hb]. cbn [forallb] in Hb.
  apply andb_true_iff in Hb as [Hb _]. exact Hb.
Qed.

(** No attempt of the reference pattern succeeds in a paragraph and the
    end of its last line, before a definition. *)
Lemma ref_para_pass ps o R p :
  Forall item_ok ps -> sep_ok p ps o ->
  forall a1 c a2, render ps ++ sep_text o = a1 ++ c :: a2 ->
    match_at REF_LINK_RE (prev_after p a1) (c :: a2 ++ R) = None.
Proof.
  intros Hps Hs a1 c a2 E.
  apply app_eq_app in E as [l [[E1 E2] | [E1 E2]]].
  - (* the position is in the paragraph *)
    destruct l as [|d l].
    + (* at its end: the first character of the separator *)
      rewrite app_nil_r in E1. subst a1. cbn [app] in E2.
      destruct o as [B|]; [|discriminate]. cbn [sep_text sep_ok] in *.
      destruct Hs as (HB & Hn & Hq). apply ref_not_bol.
      destruct (prev_after p (render ps)) as [x|]; [|contradiction].
      cbn [line_start]. destruct ps; [exact Hq|].
      destruct (N.eqb_spec x 10) as [-> | _]; [discriminate | reflexivity].
    + cbn [app] in E2. injection E2 as Ec Ea. subst d a2.
      destruct (span_exists (Cat Space) (c :: l)) as (w & y & Ewy & Hw & Hy).
      destruct y as [|y0 y].
      * (* the paragraph ends with blanks *)
        rewrite app_nil_r in Ewy. subst w.
        destruct o as [B|].
        -- cbn [sep_ok] in Hs. destruct Hs as (_ & _ & Hq).
           rewrite E1 in Hq.
           destruct (prev_after p (a1 ++ c :: l)) as [x|] eqn:Ex;
             [|contradiction].
           pose proof (prev_after_blank _ _ _ _ _ Hw Ex) as Hx.
           destruct ps; [destruct a1; discriminate|]. congruence.
        -- cbn [sep_ok] in Hs. destruct Hs as [-> _].
           destruct a1; discriminate.
      * assert (Eq : c :: (l ++ sep_text o) ++ R =
                     w ++ (y0 :: y ++ sep_text o ++ R)).
        { rewrite <- app_assoc.
          change (c :: l ++ sep_text o ++ R)
            with ((c :: l) ++ sep_text o ++ R).
          rewrite Ewy, <- app_assoc. reflexivity. }
        rewrite Eq.
        apply ref_attempt_none; [exact Hw | exact Hy |].
        intros q g.
        apply (ref_inner_para ps (sep_text o ++ R) Hps (a1 ++ w) y0 y).
        rewrite E1, Ewy, <- app_assoc. reflexivity.
  - (* the position is in the separator *)
    destruct o as [B|]; [|destruct l; discriminate].
    cbn [sep_text sep_ok] in *. destruct Hs as (HB & Hn & Hq).
    apply ref_not_bol. subst a1. rewrite prev_after_app.
    destruct l as [|d l]; [|destruct (exists_last (l := d :: l))
                               as (l' & x & El); [discriminate|]].
    + cbn [prev_after fold_left].
      destruct (prev_after p (render ps)) as [x|]; [|contradiction].
      cbn [line_start]. destruct ps; [exact Hq|].
      destruct (N.eqb_spec x 10) as [-> | _]; [discriminate | reflexivity].
    + rewrite El, prev_after_snoc. cbn [line_start].
      assert (HinB : exists B2, B = l' ++ x :: B2).
      { rewrite El in E2. rewrite <- app_assoc in E2. cbn [app] in E2.
        destruct (exists_last (l := c :: a2)) as (a3 & z & Ea);
          [discriminate|].
        rewrite Ea in E2.
        replace (l' ++ x :: a3 ++ [z]) with ((l' ++ x :: a3) ++ [z]) in E2
          by (rewrite <- app_assoc; reflexivity).
        apply app_inj_tail in E2 as [E2 _]. exists a3. exact E2. }
      destruct HinB as (B2 & ->).
      apply (no_char_neq 10 x _ l' B2 Hn eq_refl).
Qed.

(** What the callback writes for the match of a definition. *)
Lemma ref_repl_def d pf Tl :
  def_ok d ->
  _replace_ref_match
    (MState pf Tl (inline_caps (d_label d) (d_path d) (d_anchor d))) =
  def_flat d.
Proof.
  intros (_ & _ & _ & _ & (_ & HX & _) & _). apply no_space_strip in HX.
  unfold _replace_ref_match, group, def_flat.
  destruct (d_anchor d);
    cbn [caps inline_caps group_in Nat.eqb option_map fmt or_empty];
    rewrite HX; reflexivity.
Qed.

Lemma prev_after_nonempty p q a : a <> [] -> prev_after p a = prev_after q a.
Proof. destruct a as [|c a]; [congruence | reflexivity]. Qed.

Lemma line_start_sep p ps o :
  sep_ok p ps o -> line_start (prev_after p (render ps ++ sep_text o)) = true.
Proof.
  destruct o as [B|]; cbn [sep_ok sep_text].
  - intros _. rewrite app_assoc, prev_after_snoc. reflexivity.
  - intros [-> H]. exact H.
Qed.

Lemma sep_ok_flat p ps o :
  sep_ok p ps o -> sep_ok p (List.map flatten ps) o.
Proof.
  destruct o as [B|]; cbn [sep_ok].
  - rewrite prev_after_flatten. destruct ps; [trivial|]. cbn [List.map].
    trivial.
  - intros [-> H]. split; [reflexivity | exact H].
Qed.

Lemma block_text_prev p b :
  prev_after p (block_text (flat_block b)) = prev_after p (block_text b).
Proof.
  unfold block_text. cbn [flat_block b_para b_sep b_def].
  rewrite !app_assoc, !prev_after_app.
  destruct (def_text_cons (b_def b)) as (c & s & ->). reflexivity.
Qed.

(** The reference rule over a document whose inline links are flat:
    each definition is replaced by its flat form, from the start of its
    line to the end of its trailing blanks; the paragraphs are copied. *)
Lemma ref_doc_blocks bs : forall last p,
  doc_ok p bs last ->
  subn_from REF_LINK_RE _replace_ref_match p
    (doc_text (List.map flat_block bs) (List.map flatten last)) O =
  (doc_flat bs last, length bs).
Proof.
  induction bs as [|b bs IH]; intros last p Hok.
  - cbn [doc_ok] in Hok. unfold doc_text, doc_flat. cbn [flat_map List.map app length].
    apply never_subn_from. apply ref_never_of.
    intros x y E. destruct y as [|c y].
    + intros q g. apply ref_no_bracket. exact I.
    + rewrite <- (app_nil_r y).
      apply (ref_inner_para (List.map flatten last) []
               (items_flatten_ok _ Hok) x c y).
      exact E.
  - cbn [doc_ok] in Hok. destruct Hok as (Hp & Hs & Hd & Ht & Hrest).
    cbn [List.map]. rewrite doc_text_cons.
    cbn [flat_block b_para b_sep b_def].
    rewrite app_assoc.
    rewrite subn_from_pass_at
      by (apply ref_para_pass;
          [apply items_flatten_ok, Hp | apply sep_ok_flat, Hs]).
    rewrite <- line_tail_flat in Ht.
    destruct (ref_match_place (b_def b) _ _ Hd Ht
                (line_start_sep _ _ _ (sep_ok_flat _ _ _ Hs))) as (pf & Hm).
    destruct (def_text_cons (b_def b)) as (c0 & s0 & Ec).
    assert (Hne : def_text (b_def b) <> []) by (rewrite Ec; discriminate).
    rewrite (subn_from_hit _ _ _ _ _ _ Hne Hm eq_refl).
    rewrite (ref_repl_def _ _ _ Hd).
    rewrite (prev_after_nonempty _
               (prev_after p (render (b_para b) ++ sep_text (b_sep b)))
               _ Hne).
    rewrite <- prev_after_app.
    replace ((render (b_para b) ++ sep_text (b_sep b)) ++ def_text (b_def b))
      with (block_text b)
      by (unfold block_text; rewrite <- app_assoc; reflexivity).
    rewrite (IH last _ Hrest). cbn [fst snd length].
    unfold doc_flat. cbn [flat_map]. unfold block_flat.
    rewrite <- !app_assoc. reflexivity.
Qed.

End DefinitionsRef.
Section SecondPass.

Lemma head_kept_para ps : forall R R',
  head_kept R R' ->
  head_kept (render ps ++ R) (render (List.map flatten ps) ++ R').
Proof.
  induction ps as [|x ps IH]; intros R R' H; [exact H|].
  change (render (x :: ps)) with (piece_text x ++ render ps).
  change (render (List.map flatten (x :: ps)))
    with (piece_text (flatten x) ++ render (List.map flatten ps)).
  rewrite <- !app_assoc.
  destruct x as [t | L segs X o | L T]; cbn [flatten piece_text].
  - destruct t as [|c t]; [apply IH, H|].
    right. eexists. reflexivity.
  - left. reflexivity.
  - left. reflexivity.
Qed.

Lemma doc_flat_cons b bs last :
  doc_flat (b :: bs) last =
  render (List.map flatten (b_para b)) ++ sep_text (b_sep b)
  ++ def_flat (b_def b) ++ doc_flat bs last.
Proof.
  unfold doc_flat, block_flat. cbn [flat_map].
  rewrite <- !app_assoc. reflexivity.
Qed.

Lemma head_kept_doc bs last :
  head_kept (doc_text bs last) (doc_flat bs last).
Proof.
  destruct bs as [|b bs].
  - unfold doc_text, doc_flat. cbn [flat_map app].
    rewrite <- (app_nil_r (render last)),
      <- (app_nil_r (render (List.map flatten last))).
    apply head_kept_para. exact I.
  - rewrite doc_text_cons, doc_flat_cons. apply head_kept_para.
    destruct (b_sep b) as [B|]; cbn [sep_text app].
    + destruct B as [|c B]; right; eexists; reflexivity.
    + rewrite def_flat_eq. left. reflexivity.
Qed.

(** What follows a flattened definition does not complete a segment. *)
Lemma flat_tail_head bs last :
  line_tail (doc_text bs last) = true ->
  match doc_flat bs last with
  | [] => True
  | c :: _ => (c =? 46) = false /\ (c =? 47) = false
  end.
Proof.
  intros H. pose proof (head_kept_doc bs last) as K.
  destruct (doc_flat bs last) as [|c s]; [exact I|].
  destruct K as [-> | [r E]]; [split; reflexivity|].
  rewrite E in H. cbn [line_tail] in H.
  apply andb_true_iff in H as [H _]. apply N.eqb_eq in H. subst c.
  split; reflexivity.
Qed.

Lemma all_suffixes_nil (P : str -> Prop) : P [] -> all_suffixes P [].
Proof.
  intros H x y E. symmetry in E. apply app_eq_nil in E as [_ ->]. exact H.
Qed.

Lemma def_flat_no_bracket d :
  def_ok d ->
  no_char 91 (58 :: 32 :: d_path d ++ anchor_text (d_anchor d)) = true.
Proof.
  intros (_ & _ & _ & _ & _ & _ & _ & _ & Hbr).
  rewrite app_assoc, no_char_app in Hbr.
  apply andb_true_iff in Hbr as [Hbr _].
  change (58 :: 32 :: ?s) with ([58; 32] ++ s).
  rewrite no_char_app, Hbr. reflexivity.
Qed.

(** The inline pattern matches nowhere in a flattened definition. *)
Lemma inline_inner_def_flat d R :
  def_ok d ->
  inner_suffixes (fun y => forall q, match_at LINK_INLINE_RE q y = None)
    (def_flat d) R.
Proof.
  intros Hd. pose proof (def_flat_no_bracket d Hd) as Hc.
  destruct Hd as (_ & [_ HL] & _).
  rewrite def_flat_eq. apply bracket_inner; [exact HL | exact Hc | |].
  - intros y Hy q. apply inline_no_bracket, Hy.
  - intros l Hl' q. unfold match_at. rewrite LINK_INLINE_RE_split.
    apply label_fail; [exact Hl'|].
    intros p g. apply inline_after_other. reflexivity.
Qed.

(** Nor does the reference pattern find a relative target in it. *)
Lemma ref_inner_def_flat d R :
  def_ok d ->
  match R with
  | [] => True
  | c :: _ => (c =? 46) = false /\ (c =? 47) = false
  end ->
  inner_suffixes (fun y => forall p g,
                    rmatch ref_bracket (MState p y g) Some = None)
    (def_flat d) R.
Proof.
  intros Hd HR. pose proof (def_flat_no_bracket d Hd) as Hc.
  destruct Hd as (_ & [_ HL] & _ & _ & (HX1 & HX2 & _ & HX4) & _).
  rewrite def_flat_eq. apply bracket_inner; [exact HL | exact Hc | |].
  - intros y Hy p g. apply ref_no_bracket, Hy.
  - intros l Hl' p g. unfold ref_bracket.
    apply label_fail; [exact Hl'|].
    intros p' g'. cbn [app].
    change (58 :: 32 :: (d_path d ++ anchor_text (d_anchor d)) ++ R)
      with (58 :: [32] ++ (d_path d ++ anchor_text (d_anchor d)) ++ R).
    rewrite <- app_assoc.
    apply ref_after_flat; [reflexivity | |].
    + destruct (d_path d) as [|c X]; [congruence|].
      unfold no_space in HX2. simpl in HX2.
      apply andb_true_iff in HX2 as [H _]. apply negb_true_iff in H.
      exact H.
    + apply no_rel_head_app; [exact HX1 | exact HX4 |].
      destruct (d_anchor d); [split; reflexivity | exact HR].
Qed.

Lemma ref_inner_sep o R :
  match o with Some B => blank B | None => True end ->
  inner_suffixes (fun y => forall p g,
                    rmatch ref_bracket (MState p y g) Some = None)
    (sep_text o) R.
Proof.
  intros Ho. apply inner_no_bracket.
  - destruct o as [B|]; [|reflexivity]. cbn [sep_text].
    rewrite no_char_app, (blank_no_bracket _ Ho). reflexivity.
  - intros y Hy p g. apply ref_no_bracket, Hy.
Qed.

(** The inline pattern matches nowhere in a flattened document. *)
Lemma inline_never_flat bs : forall last p,
  doc_ok p bs last -> never LINK_INLINE_RE (doc_flat bs last).
Proof.
  assert (H : forall last p, doc_ok p bs last ->
            all_suffixes (fun y => forall q, match_at LINK_INLINE_RE q y = None)
              (doc_flat bs last)).
  { induction bs as [|b bs IH]; intros last p Hok.
    - cbn [doc_ok] in Hok. unfold doc_flat. cbn [flat_map app].
      rewrite <- (app_nil_r (render _)). apply all_suffixes_app.
      + apply inline_inner_para;
          [apply items_flatten_ok, Hok | apply flatten_not_rel].
      + apply all_suffixes_nil. intros q. apply inline_nil.
    - cbn [doc_ok] in Hok. destruct Hok as (Hp & Hs & Hd & _ & Hrest).
      rewrite doc_flat_cons. apply all_suffixes_app.
      { apply inline_inner_para;
          [apply items_flatten_ok, Hp | apply flatten_not_rel]. }
      apply all_suffixes_app.
      { apply inline_inner_sep, (sep_ok_blank _ _ _ Hs). }
      apply all_suffixes_app.
      { apply inline_inner_def_flat, Hd. }
      apply (IH last _ Hrest). }
  intros last p Hok q a b E. apply (H last p Hok a b E).
Qed.

(** The reference pattern matches nowhere in a flattened document. *)
Lemma ref_never_flat_doc bs : forall last p,
  doc_ok p bs last -> never REF_LINK_RE (doc_flat bs last).
Proof.
  assert (H : forall last p, doc_ok p bs last ->
            all_suffixes (fun y => forall q g,
                            rmatch ref_bracket (MState q y g) Some = None)
              (doc_flat bs last)).
  { induction bs as [|b bs IH]; intros last p Hok.
    - cbn [doc_ok] in Hok. unfold doc_flat. cbn [flat_map app].
      rewrite <- (app_nil_r (render _)). apply all_suffixes_app.
      + apply ref_inner_para, items_flatten_ok, Hok.
      + apply all_suffixes_nil. intros q g. apply ref_no_bracket. exact I.
    - cbn [doc_ok] in Hok. destruct Hok as (Hp & Hs & Hd & Ht & Hrest).
      rewrite doc_flat_cons. apply all_suffixes_app.
      { apply ref_inner_para, items_flatten_ok, Hp. }
      apply all_suffixes_app.
      { apply ref_inner_sep, (sep_ok_blank _ _ _ Hs). }
      apply all_suffixes_app.
      { apply ref_inner_def_flat; [exact Hd | apply flat_tail_head, Ht]. }
      apply (IH last _ Hrest). }
  intros last p Hok. apply ref_never_of, (H last p Hok).
Qed.

(** The rewrite of a document, and the rewrite of the result. *)
Lemma rewrite_doc_blocks bs last :
  doc_ok None bs last ->
  rewrite_content (doc_text bs last) = (doc_flat bs last, doc_links bs last)
  /\ rewrite_content (doc_flat bs last) = (doc_flat bs last, O).
Proof.
  intros Hok. split.
  - unfold doc_links.
    apply (rewrite_content_eq (doc_text bs last)
             (doc_text (List.map flat_block bs) (List.map flatten last))).
    + apply (inline_doc_blocks bs last None Hok None).
    + apply (ref_doc_blocks bs last None Hok).
  - apply (rewrite_content_eq (doc_flat bs last) (doc_flat bs last) O _ O).
    + apply never_subn, (inline_never_flat bs last None Hok).
    + apply never_subn, (ref_never_flat_doc bs last None Hok).
Qed.

End SecondPass.

(** * Idempotence *)

(** C2, amended.  The rewrite is idempotent where its first pass leaves
    no link of the shape the patterns take, and only there: a second pass
    on the output of a first one replaces nothing and returns the text as
    it is exactly when that output has no inline link and no reference
    definition of the shape.  This is so on every document [doc_ok]
    describes, made of paragraphs and of reference definitions with a
    relative prefix.  A paragraph holds running text - every bracket it
    opens is closed, and the closing bracket is followed by a character
    other than [(] and [:], or by one of the two and a target without
    relative prefix -, inline links whose relative prefix is followed at
    once by the path, and inline links without a prefix.  A definition
    has its prefix followed at once by the path, may have an anchor, a
    quoted title and blanks around it, and no bracket after its colon; it
    begins at the start of the text, after a definition that ends with a
    line feed, or after a line that ends with a character other than a
    blank, blanks and one line feed; and it is followed by the end of the
    text or by a line that is not blank and does not begin with a quote.
    On such a document the first pass replaces each link with a prefix
    and each definition by its flat form, and the second pass replaces
    nothing. *)
Theorem rewrite_idempotent_on_links :
  (forall doc : str,
     let out := fst (rewrite_content doc) in
     rewrite_content out = (out, O) <->
     ~ has_relative_link out /\ ~ has_relative_definition out)
  /\ (forall (bs : list block) (last : list piece),
        doc_ok None bs last ->
        rewrite_content (doc_text bs last) =
          (doc_flat bs last, doc_links bs last)
        /\ rewrite_content (fst (rewrite_content (doc_text bs last))) =
           (fst (rewrite_content (doc_text bs last)), O)).
Proof.
  split.
  - intros doc out. rewrite <- rewrite_zero_iff. split.
    + intros H. rewrite H. reflexivity.
    + intros H. pose proof (rewrite_content_zero _ H) as E.
      destruct (rewrite_content out) as [t n]. cbn [fst snd] in *.
      subst. reflexivity.
  - intros bs last Hok.
    destruct (rewrite_doc_blocks bs last Hok) as [H1 H2].
    split; [exact H1|]. rewrite H1. exact H2.
Qed.

Lemma rewrite_idempotent_on_links_witness :
  let doc := lit "See [home][r] and [A](../A)." ++ [10; 10]
             ++ lit "[r]: ./Home" ++ [10]
             ++ lit "[s]: ../Other#top 'T'" ++ [10] in
  let out := lit "See [home][r] and [A](A)." ++ [10]
             ++ lit "[r]: Home" ++ [10] ++ lit "[s]: Other#top" in
  rewrite_content doc = (out, 3%nat)
  /\ rewrite_content (fst (rewrite_content doc)) =
     (fst (rewrite_content doc), O)
  /\ ~ has_relative_link out /\ ~ has_relative_definition out.
Proof.
  cbv zeta.
  pose (bs :=
    [Block [Text (lit "See [home][r] and ");
            Rel (lit "A") [Up] (lit "A") None;
            Text (lit ".")]
       (Some [])
       (RefDef [10] (lit "r") (lit " ") [Here] (lit "Home") None None []);
     Block [] (Some [])
       (RefDef [] (lit "s") (lit " ") [Up] (lit "Other") (Some (lit "top"))
          (Some (Title (lit " ") 39 (lit "T") 39)) [10])]).
  assert (Hok : doc_ok None bs []).
  { cbn [doc_ok bs b_para b_sep b_def]. unfold def_ok, sep_ok.
    cbn [d_lead d_label d_gap d_segs d_path d_anchor d_title d_trail].
    repeat split; try (vm_compute; reflexivity); try discriminate;
      repeat constructor; try (vm_compute; reflexivity); try discriminate. }
  destruct rewrite_idempotent_on_links as [Hiff Hdoc].
  destruct (Hdoc bs [] Hok) as [H1 H2].
  assert (E1 : doc_text bs [] =
               lit "See [home][r] and [A](../A)." ++ [10; 10]
               ++ lit "[r]: ./Home" ++ [10]
               ++ lit "[s]: ../Other#top 'T'" ++ [10])
    by (vm_compute; reflexivity).
  assert (E2 : doc_flat bs [] =
               lit "See [home][r] and [A](A)." ++ [10]
               ++ lit "[r]: Home" ++ [10] ++ lit "[s]: Other#top")
    by (vm_compute; reflexivity).
  assert (E3 : doc_links bs [] = 3%nat) by reflexivity.
  rewrite E1, E2, E3 in H1. rewrite E1 in H2.
  split; [exact H1|]. split; [exact H2|].
  apply (Hiff (lit "See [home][r] and [A](../A)." ++ [10; 10]
               ++ lit "[r]: ./Home" ++ [10]
               ++ lit "[s]: ../Other#top 'T'" ++ [10])).
  cbv zeta. rewrite H1 in H2 |- *. cbn [fst] in *. exact H2.
Defined.

(** Two definitions with a blank line between them are joined by the
    reference rule, whose leading [\s*] reads the line feeds; the result
    is left as it is by a second pass. *)
Example definitions_joined :
  rewrite_content (lit "[a]: ./x" ++ [10; 10] ++ lit "[b]: ./y") =
  (lit "[a]: x[b]: y", 2%nat)
  /\ rewrite_content (lit "[a]: x[b]: y") = (lit "[a]: x[b]: y", O).
Proof. split; vm_compute; reflexivity. Qed.

(** * Further properties of the rewrite *)

Section RewriteAny.

(** X1. Only relative links are taken.  Wherever the inline pattern
    matches, in any text and at any position, the matched text is an
    inline link [[L](W1 prefix W2 X anchor W3)]: a label without []],
    a target that begins, after optional blanks, with one segment [./] or
    [../] or more, a path [X] without [)] and [#] that begins with no
    blank, an optional anchor, optional blanks.  The callback writes
    [[L](X' anchor)], where [X'] is [X] without the blanks at its ends. *)
Theorem inline_match_is_relative_link (p : option N) (s : str) (m : mstate) :
  match_at LINK_INLINE_RE p s = Some m ->
  exists L W1 segs W2 X o W3,
    s = inline_span L W1 segs W2 X o W3 ++ rest m /\
    label_ok L /\ blank W1 /\ segs <> [] /\ blank W2 /\
    inline_path_shape X /\ inline_anchor_ok o /\ blank W3 /\
    _replace_inline_match m = inline_link L (strip X ++ anchor_text o).
Proof.
  intros H. destruct (inline_anatomy p s m H)
    as (L & W1 & segs & W2 & X & o & W3 & HL & HW1 & Hs & HW2 & HX & Ho
        & HW3 & E & C).
  exists L, W1, segs, W2, X, o, W3.
  repeat (split; [assumption|]).
  destruct m as [q R g]. cbn [caps] in C. subst g. apply inline_repl_caps.
Qed.

Lemma inline_match_is_relative_link_witness :
  exists L W1 segs W2 X o W3,
    lit "[A]( ./../B c#d )z" = inline_span L W1 segs W2 X o W3 ++ lit "z" /\
    label_ok L /\ blank W1 /\ segs <> [] /\ blank W2 /\
    inline_path_shape X /\ inline_anchor_ok o /\ blank W3 /\
    _replace_inline_match
      (MState (Some 41) (lit "z")
         (inline_caps (lit "A") (lit "B c") (Some (lit "d")))) =
    inline_link L (strip X ++ anchor_text o).
Proof.
  apply (inline_match_is_relative_link None (lit "[A]( ./../B c#d )z")
           (MState (Some 41) (lit "z")
              (inline_caps (lit "A") (lit "B c") (Some (lit "d"))))).
  vm_compute. reflexivity.
Defined.

(** X2. Only relative reference definitions are taken.  Wherever the
    reference pattern matches, the match begins at the start of the text
    or after a line feed and ends at the end of the text or before a line
    feed, and the matched text is [W0 [L]: W1 prefix W2 X anchor title W3]
    with one segment [./] or [../] or more before a path [X] without
    blanks and [#].  The callback writes [[L]: X anchor]. *)
Theorem ref_match_is_relative_definition (p : option N) (s : str)
  (m : mstate) :
  match_at REF_LINK_RE p s = Some m ->
  exists W0 L W1 segs W2 X o t W3,
    s = ref_span W0 L W1 segs W2 X o t W3 ++ rest m /\
    (p = None \/ p = Some 10) /\
    (rest m = [] \/ exists R, rest m = 10 :: R) /\
    blank W0 /\ label_ok L /\ blank W1 /\ segs <> [] /\ blank W2 /\
    ref_path_shape X /\ ref_anchor_ok o /\ title_ok t /\ blank W3 /\
    _replace_ref_match m = lit "[" ++ L ++ lit "]: " ++ X ++ anchor_text o.
Proof.
  intros H. destruct (ref_anatomy p s m H)
    as (W0 & L & W1 & segs & W2 & X & o & t & W3 & HW0 & HL & HW1 & Hs & HW2
        & HX & Ho & Ht & HW3 & Hb & He & E & C).
  exists W0, L, W1, segs, W2, X, o, t, W3.
  split; [exact E|]. split.
  { unfold at_bol in Hb. cbn [prev] in Hb. destruct p as [c|]; [|left; easy].
    apply N.eqb_eq in Hb. subst c. right. reflexivity. }
  split.
  { unfold at_eol in He. destruct (rest m) as [|c R]; [left; reflexivity|].
    apply N.eqb_eq in He. subst c. right. exists R. reflexivity. }
  repeat (split; [assumption|]).
  destruct m as [q R g]. cbn [caps] in C. subst g.
  apply ref_repl_caps. apply HX.
Qed.

Lemma ref_match_is_relative_definition_witness :
  exists W0 L W1 segs W2 X o t W3,
    lit " [r]: .././Home#top 'T' " ++ [10] ++ lit "next" =
      ref_span W0 L W1 segs W2 X o t W3 ++ [10] ++ lit "next" /\
    (@None N = None \/ @None N = Some 10) /\
    ([10] ++ lit "next" = [] \/ exists R, [10] ++ lit "next" = 10 :: R) /\
    blank W0 /\ label_ok L /\ blank W1 /\ segs <> [] /\ blank W2 /\
    ref_path_shape X /\ ref_anchor_ok o /\ title_ok t /\ blank W3 /\
    _replace_ref_match
      (MState (Some 32) ([10] ++ lit "next")
         (inline_caps (lit "r") (lit "Home") (Some (lit "top")))) =
    lit "[" ++ L ++ lit "]: " ++ X ++ anchor_text o.
Proof.
  apply (ref_match_is_relative_definition None
           (lit " [r]: .././Home#top 'T' " ++ [10] ++ lit "next")
           (MState (Some 32) ([10] ++ lit "next")
              (inline_caps (lit "r") (lit "Home") (Some (lit "top"))))).
  vm_compute. reflexivity.
Defined.

(** X3. The rewrite shortens.  Each replacement of the inline rule takes
    two characters or more away, each replacement of the reference rule
    one or more: the length of the result and the replacement count
    together do not exceed the length of the text. *)
Theorem rewrite_shrinks (s : str) :
  (length (fst (inline_rule s)) + 2 * snd (inline_rule s) <= length s)%nat
  /\ (length (fst (ref_rule s)) + snd (ref_rule s) <= length s)%nat
  /\ (length (fst (rewrite_content s)) + snd (rewrite_content s)
      <= length s)%nat.
Proof.
  split; [apply inline_rule_length|].
  split; [apply ref_rule_length | apply rewrite_content_length].
Qed.

(** X4. The count tells whether the text changed: the two rules report
    no replacement exactly when the text they return is the text they
    were given.  So the scan, which writes a file when the count is
    positive, writes it exactly when its text changes. *)
Theorem count_zero_iff_unchanged (s : str) :
  snd (rewrite_content s) = O <-> fst (rewrite_content s) = s.
Proof.
  split; [apply rewrite_content_zero | apply rewrite_content_same].
Qed.

(** X5. Repeated passes settle.  After as many passes of the two rules as
    the text has characters, and after any further pass, a pass changes
    nothing and counts no replacement. *)
Theorem passes_reach_fixed_point (s : str) (k : nat) :
  rewrite_content (passes (length s + k) s) =
  (passes (length s + k) s, O).
Proof.
  pose proof (passes_settle (length s + k) s ltac:(lia)) as H.
  pose proof (rewrite_content_zero _ H) as E.
  destruct (rewrite_content (passes (length s + k) s)) as [t n].
  cbn [fst snd] in *. subst. reflexivity.
Qed.

(** X6. Nothing is invented: every character of the rewritten text is a
    character of the text, or the space that the reference callback puts
    after the colon. *)
Theorem only_space_is_new (s : str) :
  Forall (fun c => In c s \/ c = 32) (fst (rewrite_content s)).
Proof.
  apply List.Forall_forall. intros c Hc. apply rewrite_content_chars, Hc.
Qed.

(** X7. A text in which [./] does not occur is returned as it is, with
    the count zero: neither rule touches a document without a relative
    segment. *)
Theorem no_segment_no_change (s : str) :
  contains (lit "./") s = false -> rewrite_content s = (s, O).
Proof. apply no_segment_same. Qed.

Lemma no_segment_no_change_witness :
  rewrite_content (lit "[A](https://x.org/y) and [b]: /abs 'T'") =
  (lit "[A](https://x.org/y) and [b]: /abs 'T'", O).
Proof.
  apply (no_segment_no_change (lit "[A](https://x.org/y) and [b]: /abs 'T'")).
  vm_compute. reflexivity.
Defined.

(** X8. The texts the rewrite leaves alone.  The two rules return a
    text as it is, with the count zero, exactly when it has no inline link
    with a relative prefix anywhere, and no reference definition with a
    relative prefix that begins at the start of a line and ends at the end
    of a line. *)
Theorem unchanged_iff_no_relative_link (s : str) :
  rewrite_content s = (s, O) <->
  ~ has_relative_link s /\ ~ has_relative_definition s.
Proof.
  rewrite <- rewrite_zero_iff. split.
  - intros E. rewrite E. reflexivity.
  - intros H. pose proof (rewrite_content_zero s H) as E.
    destruct (rewrite_content s) as [t n]. cbn [fst snd] in *.
    subst. reflexivity.
Qed.

(** X9. Repeated passes remove every relative link of the shape the
    patterns take, and only those.  After as many passes of the two rules
    as the text has characters, and after any further pass, the text has
    no inline link [[label](prefix path)] and no reference definition
    [[label]: prefix path] on lines of its own whose label has no []] and
    whose relative prefix is followed by a page path.  A link outside the
    shape is not removed by any number of passes: [[up](../)], whose
    prefix is followed by no path, and [[![logo](logo.png)](../Home)],
    whose label holds a []], stay as they are. *)
Theorem passes_remove_relative_links (s : str) (k : nat) :
  (~ has_relative_link (passes (length s + k) s)
   /\ ~ has_relative_definition (passes (length s + k) s))
  /\ passes k (lit "[up](../)") = lit "[up](../)"
  /\ passes k (lit "[![logo](logo.png)](../Home)") =
     lit "[![logo](logo.png)](../Home)".
Proof.
  split; [|split].
  - apply rewrite_zero_iff. apply passes_settle. lia.
  - apply passes_fixed. vm_compute. reflexivity.
  - apply passes_fixed. vm_compute. reflexivity.
Qed.

End RewriteAny.

(** * Further properties of the scan *)

Section ScanAnySystem.

(** X10. The scan completes.  In a system without faults - no call of
    [open] and no call of [print] raises, so that the standard output
    takes every text, the dash U+2014 of the closing message among them -,
    when every markdown file of the walk exists,
    [convert_gitlab_wiki_links_in_dir] returns its report: no read fails,
    and no text it writes fails to encode. *)
Theorem scan_completes (lower : str -> str) (verbose : bool)
  (walk : list (str * list str)) (w : world) :
  faults w = [] ->
  (forall p, In p (md_paths lower walk) -> files w !! p <> None) ->
  exists r,
    fst (convert_gitlab_wiki_links_in_dir lower verbose walk w) = inr r.
Proof.
  intros Hf Hex. unfold convert_gitlab_wiki_links_in_dir, bind.
  rewrite scan_walk_flat.
  destruct (scan_paths_total verbose (md_paths lower walk) (O, O) w Hf Hex)
    as (r & w' & E & Hf' & _).
  rewrite E. exists r. unfold print, bind, next_fault, emit, ret.
  rewrite Hf'. reflexivity.
Qed.

Lemma scan_completes_witness :
  exists r,
    fst (convert_gitlab_wiki_links_in_dir ascii_lower true demo_walk
           (World demo_files [] [])) = inr r.
Proof.
  apply (scan_completes ascii_lower true demo_walk (World demo_files [] [])).
  - reflexivity.
  - intros p Hp. vm_compute in Hp.
    destruct Hp as [<- | [<- | [<- | []]]]; vm_compute; discriminate.
Defined.

(** X11. A missing file stops the scan.  In a system without faults, when
    a markdown name of the walk has no file (a dangling link) and the
    files before it exist, the scan raises [FileNotFoundError] from the
    second [open]; the files after it are not opened, read or written. *)
Theorem missing_file_aborts (lower : str -> str) (verbose : bool)
  (walk : list (str * list str)) (w : world) (ps1 ps2 : list str) (p : str) :
  faults w = [] ->
  md_paths lower walk = ps1 ++ p :: ps2 ->
  (forall q, In q ps1 -> files w !! q <> None) ->
  files w !! p = None ->
  let run := convert_gitlab_wiki_links_in_dir lower verbose walk w in
  fst run = inl FileNotFoundError
  /\ forall q, ~ In q ps1 -> q <> p ->
       files (snd run) !! q = files w !! q
       /\ forall e, In e (log (snd run)) -> event_path e = Some q ->
            In e (log w).
Proof.
  intros Hf Hmd Hex Hp. cbv zeta.
  unfold convert_gitlab_wiki_links_in_dir, bind.
  rewrite scan_walk_flat, Hmd, scan_paths_app. unfold bind.
  pose proof (frame_scan_paths verbose ps1 (O, O) w) as F1.
  destruct (scan_paths_total verbose ps1 (O, O) w Hf Hex)
    as (r1 & w1 & E1 & Hf1 & Hfr1).
  rewrite E1 in F1 |- *. cbn [snd] in F1. cbn [scan_paths]. unfold bind.
  assert (Hp1 : files w1 !! p = None).
  { destruct (List.in_dec (fun x y : str => decide (x = y)) p ps1)
      as [Hin | Hnin].
    - destruct (Hex p Hin Hp).
    - rewrite (Hfr1 p Hnin). exact Hp. }
  pose proof (process_file_missing verbose p r1 w1 Hf1 Hp1) as Em.
  pose proof (frame_process_file verbose p r1 w1) as F2.
  destruct (process_file verbose p r1 w1) as [[e|r2] w2]; cbn [fst] in Em;
    [|discriminate].
  injection Em as ->. cbn [fst snd] in *. split; [reflexivity|].
  intros q Hq1 Hqp. destruct F1 as (A1 & B1 & _), F2 as (A2 & B2 & _).
  split.
  - rewrite A2 by congruence. apply A1, Hq1.
  - intros e He Ee. destruct (B2 e He) as [H | H].
    + destruct (B1 e H) as [H' | H']; [exact H'|].
      rewrite Ee in H'. contradiction.
    + rewrite Ee in H. congruence.
Qed.

Lemma missing_file_aborts_witness :
  let run :=
    convert_gitlab_wiki_links_in_dir ascii_lower true
      [(lit "wiki", [lit "a.md"; lit "gone.md"; lit "c.md"])]
      (World demo_files [] []) in
  fst run = inl FileNotFoundError
  /\ files (snd run) !! lit "wiki/c.md" = demo_files !! lit "wiki/c.md".
Proof.
  destruct (missing_file_aborts ascii_lower true
              [(lit "wiki", [lit "a.md"; lit "gone.md"; lit "c.md"])]
              (World demo_files [] [])
              [lit "wiki/a.md"] [lit "wiki/c.md"] (lit "wiki/gone.md")
              eq_refl eq_refl) as [H1 H2].
  - intros q [<- | []]. vm_compute. discriminate.
  - vm_compute. reflexivity.
  - split; [exact H1|].
    apply (H2 (lit "wiki/c.md")).
    + intros [H | []]. vm_compute in H. discriminate.
    + vm_compute. discriminate.
Defined.

(** X12. What is written reads back.  In a system without faults, after
    the scan has rewritten a file, reading it again as the scan reads
    gives the rewritten text: the file is [utf-8] whatever it was before,
    and has no carriage return for the text mode to translate. *)
Theorem rewritten_file_reads_back (verbose : bool) (p : str)
  (acc : nat * nat) (w : world) (b : list byte) :
  faults w = [] -> files w !! p = Some b -> (0 < count (files w) p)%nat ->
  fst (read_content p (snd (process_file verbose p acc w))) =
  inr (fst (rewrite_content (read_pure b))).
Proof.
  intros Hf Hb Hn.
  destruct (process_file_total verbose p acc w b Hf Hb)
    as (r & w' & E & _ & _ & _ & H).
  rewrite E. apply H, Hn.
Qed.

Lemma rewritten_file_reads_back_witness :
  fst (read_content (lit "wiki/a.md")
         (snd (process_file true (lit "wiki/a.md") (O, O)
                 (World demo_files [] [])))) =
  inr (fst (rewrite_content
              (read_pure (bytes_of "see [A](../A) and [B](./sub/B#x)")))).
Proof.
  apply (rewritten_file_reads_back true (lit "wiki/a.md") (O, O)
           (World demo_files [] [])
           (bytes_of "see [A](../A) and [B](./sub/B#x)")).
  - reflexivity.
  - vm_compute. reflexivity.
  - vm_compute. lia.
Defined.

(** X13. What is written is [utf-8] with line feeds.  In any system,
    every write the scan adds to the log carries bytes that decode as
    [utf-8] to a text without a carriage return: a file read through the
    [latin1] fallback is stored in [utf-8], and [\r\n] line ends of a
    rewritten file become [\n]. *)
Theorem written_is_utf8_lf (lower : str -> str) (verbose : bool)
  (walk : list (str * list str)) (w : world) :
  Forall (fun e => In e (log w) \/ utf8_lf_write e)
    (log (snd (convert_gitlab_wiki_links_in_dir lower verbose walk w))).
Proof.
  apply List.Forall_forall. intros e He.
  apply (log_adds_convert lower verbose walk w e He).
Qed.

(** X14. The order of the effects on a rewritten file.  In a system
    without faults, for a file with a positive count the scan adds to the
    log, in this order: the open for reading (twice when the bytes are not
    [utf-8]), the open for writing, the write of the rewritten text in
    [utf-8], the print of the whole rewritten text - whatever [verbose] is
    - and, with [verbose], the line [n link(s) fixed in: path]. *)
Theorem rewritten_file_trace (verbose : bool) (p : str) (acc : nat * nat)
  (w : world) (b : list byte) :
  faults w = [] -> files w !! p = Some b -> (0 < count (files w) p)%nat ->
  exists bs,
    utf8_encode (fst (rewrite_content (read_pure b))) = Some bs
    /\ log (snd (process_file verbose p acc w)) =
       (if verbose
        then [EPrint (str_of_nat (count (files w) p)
                      ++ lit " link(s) fixed in: " ++ p)]
        else [])
       ++ [EPrint (fst (rewrite_content (read_pure b)));
           EWrite p (List.map byte_of bs);
           EOpen p ModeW Utf8]
       ++ (match decode Utf8 b with
           | Some _ => [EOpen p ModeR Utf8]
           | None => [EOpen p ModeR Latin1; EOpen p ModeR Utf8]
           end)
       ++ log w.
Proof.
  intros Hf Hb Hn. unfold count in *. rewrite Hb in *.
  destruct (rewrite_encodes b) as (bs & Ebs). exists bs.
  split; [exact Ebs|].
  unfold process_file, bind. rewrite (read_content_trace p w b Hf Hb).
  destruct (rewrite_content (read_pure b)) as [new_content n].
  cbn [fst snd] in *. apply Nat.ltb_lt in Hn. rewrite Hn.
  rewrite write_text_clean by reflexivity. rewrite Ebs.
  destruct verbose; reflexivity.
Qed.

Lemma rewritten_file_trace_witness :
  In (EPrint (lit "[r]: Home"))
    (log (snd (process_file false (lit "wiki/b.MD") (O, O)
                 (World demo_files [] [])))).
Proof.
  destruct (rewritten_file_trace false (lit "wiki/b.MD") (O, O)
              (World demo_files [] []) (bytes_of "[r]: ./Home 'T'"))
    as (bs & _ & E).
  - reflexivity.
  - vm_compute. reflexivity.
  - vm_compute. lia.
  - rewrite E. left. vm_compute. reflexivity.
Defined.

(** X15. A fault of the open for writing is not handled.  When the file
    is read as [utf-8], has a positive count, and the open for writing
    raises, the exception leaves the scan of the file; the file keeps its
    bytes and no write is logged. *)
Theorem write_fault_leaves_file (verbose : bool) (p : str) (acc : nat * nat)
  (w : world) (b : list byte) (s : str) (e : exn) (fl : list (option exn)) :
  files w !! p = Some b -> decode Utf8 b = Some s ->
  (0 < count (files w) p)%nat ->
  faults w = None :: Some e :: fl ->
  let r := process_file verbose p acc w in
  fst r = inl e
  /\ files (snd r) = files w
  /\ (written (log (snd r)) p -> written (log w) p).
Proof.
  intros Hb Hd Hn Hf. cbv zeta. unfold count in Hn. rewrite Hb in Hn.
  unfold read_pure in Hn. rewrite Hd in Hn.
  destruct w as [fs fl0 lg]. cbn [files faults log] in *. subst fl0.
  unfold process_file, read_content, try_except, read_text, bind, emit,
    next_fault, lookup_file, ret.
  cbn [files faults log]. rewrite Hb, Hd.
  destruct (rewrite_content (universal_newlines s)) as [new_content n].
  cbn [snd] in Hn. apply Nat.ltb_lt in Hn. rewrite Hn.
  unfold write_text, bind, emit, next_fault. cbn [files faults log fst snd].
  split; [reflexivity|]. split; [reflexivity|].
  intros (d & [H | [H | H]]); try discriminate. exists d. exact H.
Qed.

Lemma write_fault_leaves_file_witness :
  let r := process_file true (lit "wiki/a.md") (O, O)
             (World demo_files [None; Some PermissionError] []) in
  fst r = inl PermissionError /\ files (snd r) = demo_files.
Proof.
  destruct (write_fault_leaves_file true (lit "wiki/a.md") (O, O)
              (World demo_files [None; Some PermissionError] [])
              (bytes_of "see [A](../A) and [B](./sub/B#x)")
              (lit "see [A](../A) and [B](./sub/B#x)") PermissionError [])
    as (H1 & H2 & _).
  - vm_compute. reflexivity.
  - vm_compute. reflexivity.
  - vm_compute. lia.
  - reflexivity.
  - split; [exact H1 | exact H2].
Defined.

(** X29. A print that fails leaves the rewritten file behind.  When the
    file is read as [utf-8], has a positive count, the two opens succeed
    and the print of the rewritten text raises - [UnicodeEncodeError],
    when the standard output has no code for one of its characters -,
    the exception leaves the scan of the file after the file has been
    rewritten: the file holds the new content in [utf-8], the write is in
    the log, and nothing has been printed. *)
Theorem print_fault_after_write (verbose : bool) (p : str) (acc : nat * nat)
  (w : world) (b : list byte) (s : str) (e : exn) (fl : list (option exn)) :
  files w !! p = Some b -> decode Utf8 b = Some s ->
  (0 < count (files w) p)%nat ->
  faults w = None :: None :: Some e :: fl ->
  let r := process_file verbose p acc w in
  fst r = inl e
  /\ (exists d, new_bytes (files w) p = Some d
               /\ files (snd r) !! p = Some d
               /\ In (EWrite p d) (log (snd r)))
  /\ (forall t, In (EPrint t) (log (snd r)) -> In (EPrint t) (log w)).
Proof.
  intros Hb Hd Hn Hf. cbv zeta. unfold count in Hn. rewrite Hb in Hn.
  unfold new_bytes. rewrite Hb.
  destruct (rewrite_encodes b) as (bs & Ebs). rewrite Ebs.
  unfold read_pure in Hn, Ebs. rewrite Hd in Hn, Ebs.
  destruct w as [fs fl0 lg]. cbn [files faults log] in *. subst fl0.
  unfold process_file, read_content, try_except, read_text, bind, emit,
    next_fault, lookup_file, ret.
  cbn [files faults log]. rewrite Hb, Hd.
  destruct (rewrite_content (universal_newlines s)) as [new_content n].
  cbn [fst snd] in Hn, Ebs. apply Nat.ltb_lt in Hn. rewrite Hn.
  unfold write_text, print, bind, emit, next_fault, store_file.
  cbn [files faults log fst snd]. rewrite Ebs.
  cbn [files faults log fst snd option_map].
  split; [reflexivity|]. split.
  - exists (List.map byte_of bs). split; [reflexivity|].
    split; [apply lookup_insert_eq | left; reflexivity].
  - intros t [H | [H | [H | H]]]; try discriminate. exact H.
Qed.

Lemma print_fault_after_write_witness :
  let r := process_file true (lit "wiki/a.md") (O, O)
             (World demo_files [None; None; Some UnicodeEncodeError] []) in
  fst r = inl UnicodeEncodeError
  /\ files (snd r) !! lit "wiki/a.md" =
     Some (bytes_of "see [A](A) and [B](sub/B#x)")
  /\ log (snd r) =
     [EWrite (lit "wiki/a.md") (bytes_of "see [A](A) and [B](sub/B#x)");
      EOpen (lit "wiki/a.md") ModeW Utf8;
      EOpen (lit "wiki/a.md") ModeR Utf8].
Proof.
  destruct (print_fault_after_write true (lit "wiki/a.md") (O, O)
              (World demo_files [None; None; Some UnicodeEncodeError] [])
              (bytes_of "see [A](../A) and [B](./sub/B#x)")
              (lit "see [A](../A) and [B](./sub/B#x)") UnicodeEncodeError [])
    as (H1 & _ & _).
  - vm_compute. reflexivity.
  - vm_compute. reflexivity.
  - vm_compute. lia.
  - reflexivity.
  - split; [exact H1|]. split; vm_compute; reflexivity.
Defined.

End ScanAnySystem.

(** * Properties of the mirror *)

(** X16. A clone that fails ends the run quietly.  When [git clone] exits
    with a status other than 0 - and the standard output takes the
    messages, as for every message of the mirror -, [copy_github_wiki]
    prints that the source wiki was not found and returns without an
    exception: what it has printed is the announcement of the clone, the
    command line of the clone, and [Source wiki not found - exiting.]
    with the dash U+2014, in this order and nothing else; the clone is
    the only command it has run, and it has opened no file. *)
Theorem clone_failure_returns (lower : str -> str)
  (walk_of : gmap str (list byte) -> list (str * list str)) (tmpdir : str)
  (src_repo dst_repo : str) (token : option str)
  (h : host) (code : Z) (out : str)
  (eff : gmap str (list byte) -> gmap str (list byte)) (cs : list child) :
  children h = Exits code out eff :: cs -> code <> 0%Z ->
  let r := copy_github_wiki lower walk_of tmpdir src_repo dst_repo token h in
  fst r = inr tt
  /\ log (sys (snd r)) =
     [EPrint (lit "Source wiki not found " ++ [8212] ++ lit " exiting.");
      EPrint ([9654; 65039] ++ lit " git clone " ++ src_repo
              ++ lit " " ++ tmpdir);
      EPrint (lit "Cloning wiki from GitLab: " ++ src_repo)]
     ++ log (sys h)
  /\ calls (snd r) =
     ([lit "git"; lit "clone"; src_repo; tmpdir], None) :: calls h
  /\ children (snd r) = cs
  /\ (opened (log (sys (snd r))) -> opened (log (sys h))).
Proof.
  intros Hc Hcode. cbv zeta.
  destruct h as [w ch cl]. cbn [children] in Hc. subst ch.
  apply Z.eqb_neq in Hcode.
  unfold copy_github_wiki, with_tempdir, try_called, run, hbind, hprint,
    lift, print, emit, subprocess_run, hret.
  cbn [sys children calls files faults log andb negb tl fst snd].
  rewrite Hcode.
  cbn [sys children calls files faults log andb negb tl fst snd].
  split; [reflexivity|].
  split.
  { cbn [str_join app]. unlit. cbn [app]. rewrite <- ?app_assoc.
    reflexivity. }
  repeat split.
  intros (p & mode & enc & [H | [H | [H | H]]]); try discriminate.
  exists p, mode, enc. exact H.
Qed.

Lemma clone_failure_returns_witness :
  let r := copy_github_wiki ascii_lower (fun _ => demo_walk) (lit "/tmp/w")
             (lit "src") (lit "dst") None
             (Host (World demo_files [] []) [Exits 128 [] id] []) in
  fst r = inr tt
  /\ log (sys (snd r)) =
     [EPrint (lit "Source wiki not found " ++ [8212] ++ lit " exiting.");
      EPrint ([9654; 65039] ++ lit " git clone src /tmp/w");
      EPrint (lit "Cloning wiki from GitLab: src")]
  /\ calls (snd r) =
     [([lit "git"; lit "clone"; lit "src"; lit "/tmp/w"], None)].
Proof.
  destruct (clone_failure_returns ascii_lower
              (fun _ => demo_walk) (lit "/tmp/w")
              (lit "src") (lit "dst") None
              (Host (World demo_files [] []) [Exits 128 [] id] [])
              128 [] id [] eq_refl ltac:(discriminate)) as (H1 & H2 & H3 & _).
  split; [exact H1 | split; [|exact H3]].
  etransitivity; [exact H2|]. vm_compute. reflexivity.
Defined.

(** X17. The token plays no part: [auth_prefix] is computed from it and
    never used, so [copy_github_wiki] does the same with any token and
    with none.  The commands carry the two addresses as they were given. *)
Theorem token_is_not_used (lower : str -> str)
  (walk_of : gmap str (list byte) -> list (str * list str)) (tmpdir : str)
  (src_repo dst_repo : str) (t1 t2 : option str)
  (h : host) :
  copy_github_wiki lower walk_of tmpdir src_repo dst_repo t1 h =
  copy_github_wiki lower walk_of tmpdir src_repo dst_repo t2 h.
Proof. reflexivity. Qed.

(** X18. When [git] cannot be started, the handler of the clone does not
    apply: it catches [CalledProcessError] only, and the [OSError] leaves
    [copy_github_wiki], the clone being the only command tried. *)
Theorem missing_git_is_not_caught (lower : str -> str)
  (walk_of : gmap str (list byte) -> list (str * list str)) (tmpdir : str)
  (src_repo dst_repo : str)
  (token : option str) (h : host) (e : exn) (cs : list child) :
  children h = Fails e :: cs ->
  let r := copy_github_wiki lower walk_of tmpdir src_repo dst_repo token h in
  fst r = inl (Raised e)
  /\ calls (snd r) =
     ([lit "git"; lit "clone"; src_repo; tmpdir], None) :: calls h.
Proof.
  intros Hc. cbv zeta.
  destruct h as [w ch cl]. cbn [children] in Hc. subst ch.
  unfold copy_github_wiki, with_tempdir, try_called, run, hbind, hprint,
    lift, print, emit, subprocess_run, hret.
  cbn [sys children calls files faults log andb negb tl fst snd].
  split; reflexivity.
Qed.

Lemma missing_git_is_not_caught_witness :
  fst (copy_github_wiki ascii_lower (fun _ => demo_walk) (lit "/tmp/w")
         (lit "src") (lit "dst") None
         (Host (World demo_files [] []) [Fails FileNotFoundError] []))
  = inl (Raised FileNotFoundError).
Proof.
  apply (missing_git_is_not_caught ascii_lower
              (fun _ => demo_walk) (lit "/tmp/w")
              (lit "src") (lit "dst") None
           (Host (World demo_files [] []) [Fails FileNotFoundError] [])
           FileNotFoundError [] eq_refl).
Defined.

(** X19. A failure of [git remote set-url] is not caught: after a clone
    that succeeded, a status other than 0 leaves [copy_github_wiki] as
    [CalledProcessError]; no file has been opened for the rewrite and
    nothing has been pushed. *)
Theorem remote_failure_propagates (lower : str -> str)
  (walk_of : gmap str (list byte) -> list (str * list str)) (tmpdir : str)
  (src_repo dst_repo : str)
  (token : option str) (h : host) (o1 o2 : str)
  (e1 e2 : gmap str (list byte) -> gmap str (list byte)) (code : Z)
  (cs : list child) :
  children h = Exits 0 o1 e1 :: Exits code o2 e2 :: cs -> code <> 0%Z ->
  let r := copy_github_wiki lower walk_of tmpdir src_repo dst_repo token h in
  fst r = inl (CalledProcessError code
                 [lit "git"; lit "remote"; lit "set-url"; lit "origin";
                  dst_repo])
  /\ calls (snd r) =
     [([lit "git"; lit "remote"; lit "set-url"; lit "origin"; dst_repo],
       Some tmpdir);
      ([lit "git"; lit "clone"; src_repo; tmpdir], None)] ++ calls h
  /\ (opened (log (sys (snd r))) -> opened (log (sys h))).
Proof.
  intros Hc Hcode. cbv zeta.
  destruct h as [w ch cl]. cbn [children] in Hc. subst ch.
  apply Z.eqb_neq in Hcode.
  unfold copy_github_wiki, mirror_clone, git, with_tempdir, try_called, run,
    hbind, hprint, lift, print, emit, subprocess_run, hret.
  cbn [sys children calls files faults log andb negb tl fst snd Z.eqb].
  rewrite Hcode.
  cbn [sys children calls files faults log andb negb tl fst snd].
  repeat split.
  intros (p & mode & enc & H). cbn [In] in H.
  repeat (destruct H as [H | H]; try discriminate).
  exists p, mode, enc. exact H.
Qed.

Lemma remote_failure_propagates_witness :
  fst (copy_github_wiki ascii_lower (fun _ => demo_walk) (lit "/tmp/w")
         (lit "src") (lit "dst") None
         (Host (World demo_files [] []) [Exits 0 [] id; Exits 2 [] id] []))
  = inl (CalledProcessError 2
           [lit "git"; lit "remote"; lit "set-url"; lit "origin"; lit "dst"]).
Proof.
  apply (remote_failure_propagates ascii_lower
              (fun _ => demo_walk) (lit "/tmp/w")
              (lit "src") (lit "dst") None
           (Host (World demo_files [] []) [Exits 0 [] id; Exits 2 [] id] [])
           [] [] id id 2 [] eq_refl).
  discriminate.
Defined.

(** X20. When the rewrite of the links raises, nothing is committed and
    nothing is pushed: the exception leaves the mirror, and no command
    has been run after it. *)
Theorem rewrite_failure_stops_the_mirror (lower : str -> str)
  (walk_of : gmap str (list byte) -> list (str * list str)) (tmpdir : str)
  (github_url : str) (h : host)
  (e : exn) :
  fst (convert_gitlab_wiki_links_in_dir lower true
         (walk_of (files (sys h))) (sys h)) = inl e ->
  let r := publish lower walk_of tmpdir github_url h in
  fst r = inl (Raised e)
  /\ calls (snd r) = calls h
  /\ children (snd r) = children h.
Proof.
  intros He. cbv zeta. unfold publish, rewrite_links, hbind, lift.
  destruct (convert_gitlab_wiki_links_in_dir lower true
              (walk_of (files (sys h))) (sys h)) as [[x|r] w'];
    cbn [fst] in He; [|discriminate].
  injection He as ->. repeat split.
Qed.

Lemma rewrite_failure_stops_the_mirror_witness :
  let h := Host (World demo_files [] []) [] [] in
  let r := publish ascii_lower
             (fun _ => [(lit "wiki", [lit "gone.md"])]) (lit "/tmp/w")
             (lit "dst") h in
  fst r = inl (Raised FileNotFoundError) /\ calls (snd r) = [].
Proof.
  destruct (rewrite_failure_stops_the_mirror ascii_lower
              (fun _ => [(lit "wiki", [lit "gone.md"])]) (lit "/tmp/w")
              (lit "dst")
              (Host (World demo_files [] []) [] []) FileNotFoundError)
    as (H1 & H2 & _).
  - vm_compute. reflexivity.
  - split; [exact H1 | exact H2].
Defined.

(** X21. The output of [git status] decides, not its exit status: when
    the standard output is blank, nothing is staged and nothing is
    committed, whatever the status of the child. *)
Theorem blank_status_skips_commit (tmpdir : str) (h : host) (code : Z) (out : str)
  (eff : gmap str (list byte) -> gmap str (list byte)) (cs : list child) :
  children h = Exits code out eff :: cs -> strip out = [] ->
  let r := commit_changes tmpdir h in
  fst r = inr tt
  /\ calls (snd r) =
     ([lit "git"; lit "status"; lit "--porcelain"], Some tmpdir) :: calls h
  /\ children (snd r) = cs.
Proof.
  intros Hc Hout. cbv zeta.
  destruct h as [w ch cl]. cbn [children] in Hc. subst ch.
  unfold commit_changes, git, try_called, run, hbind, hprint, lift, print,
    emit, subprocess_run, hret.
  cbn [sys children calls files faults log andb negb tl fst snd].
  rewrite Hout.
  cbn [truthy sys children calls files faults log fst snd].
  repeat split.
Qed.

Lemma blank_status_skips_commit_witness :
  let r := commit_changes (lit "/tmp/w")
             (Host (World demo_files [] []) [Exits 1 (lit "  ") id] []) in
  fst r = inr tt
  /\ calls (snd r) =
     [([lit "git"; lit "status"; lit "--porcelain"], Some (lit "/tmp/w"))].
Proof.
  destruct (blank_status_skips_commit (lit "/tmp/w")
              (Host (World demo_files [] []) [Exits 1 (lit "  ") id] [])
              1 (lit "  ") id [] eq_refl eq_refl) as (H1 & H2 & _).
  split; [exact H1 | exact H2].
Defined.

(** X22. A commit that fails is passed over.  When [git status] reports
    changes and [git add -A] succeeds, the stage returns normally whatever
    the exit status of [git commit]; the three commands have run in this
    order. *)
Theorem commit_failure_is_swallowed (tmpdir : str) (h : host) (c0 code : Z)
  (out o1 o2 : str)
  (e0 e1 e2 : gmap str (list byte) -> gmap str (list byte))
  (cs : list child) :
  children h = Exits c0 out e0 :: Exits 0 o1 e1 :: Exits code o2 e2 :: cs ->
  strip out <> [] ->
  let r := commit_changes tmpdir h in
  fst r = inr tt
  /\ calls (snd r) =
     [([lit "git"; lit "commit"; lit "-m";
        lit "chore: rewrite GitLab-style relative wiki links for GitHub"],
       Some tmpdir);
      ([lit "git"; lit "add"; lit "-A"], Some tmpdir);
      ([lit "git"; lit "status"; lit "--porcelain"], Some tmpdir)]
     ++ calls h
  /\ children (snd r) = cs.
Proof.
  intros Hc Hout. cbv zeta.
  destruct h as [w ch cl]. cbn [children] in Hc. subst ch.
  unfold commit_changes, git, try_called, run, hbind, hprint, lift, print,
    emit, subprocess_run, hret.
  cbn [sys children calls files faults log andb negb tl fst snd].
  destruct (strip out) as [|c t]; [congruence|].
  cbn [truthy sys children calls files faults log andb negb tl fst snd Z.eqb].
  destruct (code =? 0)%Z;
    cbn [sys children calls files faults log andb negb tl fst snd];
    repeat split.
Qed.

Lemma commit_failure_is_swallowed_witness :
  fst (commit_changes (lit "/tmp/w")
         (Host (World demo_files [] [])
            [Exits 0 (lit " M a.md") id; Exits 0 [] id; Exits 1 [] id] []))
  = inr tt.
Proof.
  apply (commit_failure_is_swallowed (lit "/tmp/w")
              (Host (World demo_files [] [])
              [Exits 0 (lit " M a.md") id; Exits 0 [] id; Exits 1 [] id] [])
           0 1 (lit " M a.md") [] [] id id id [] eq_refl).
  vm_compute. discriminate.
Defined.

(** X23. A failure of [git add -A] is not passed over: it leaves the
    stage as [CalledProcessError], and no commit is tried. *)
Theorem staging_failure_propagates (tmpdir : str) (h : host) (c0 code : Z) (out o1 : str)
  (e0 e1 : gmap str (list byte) -> gmap str (list byte)) (cs : list child) :
  children h = Exits c0 out e0 :: Exits code o1 e1 :: cs ->
  strip out <> [] -> code <> 0%Z ->
  let r := commit_changes tmpdir h in
  fst r = inl (CalledProcessError code [lit "git"; lit "add"; lit "-A"])
  /\ calls (snd r) =
     [([lit "git"; lit "add"; lit "-A"], Some tmpdir);
      ([lit "git"; lit "status"; lit "--porcelain"], Some tmpdir)]
     ++ calls h.
Proof.
  intros Hc Hout Hcode. cbv zeta.
  destruct h as [w ch cl]. cbn [children] in Hc. subst ch.
  apply Z.eqb_neq in Hcode.
  unfold commit_changes, git, try_called, run, hbind, hprint, lift, print,
    emit, subprocess_run, hret.
  cbn [sys children calls files faults log andb negb tl fst snd].
  destruct (strip out) as [|c t]; [congruence|].
  cbn [truthy sys children calls files faults log andb negb tl fst snd].
  rewrite Hcode.
  cbn [sys children calls files faults log andb negb tl fst snd].
  repeat split.
Qed.

Lemma staging_failure_propagates_witness :
  fst (commit_changes (lit "/tmp/w")
         (Host (World demo_files [] [])
            [Exits 0 (lit " M a.md") id; Exits 3 [] id] []))
  = inl (CalledProcessError 3 [lit "git"; lit "add"; lit "-A"]).
Proof.
  apply (staging_failure_propagates (lit "/tmp/w")
              (Host (World demo_files [] [])
              [Exits 0 (lit " M a.md") id; Exits 3 [] id] [])
           0 3 (lit " M a.md") [] id id [] eq_refl).
  - vm_compute. discriminate.
  - discriminate.
Defined.

(** X24. When [git checkout master] fails, the branch is renamed: [git
    branch -M master] runs next, and its outcome is the outcome of the
    stage - a failure of the renaming is not caught. *)
Theorem checkout_failure_renames_branch (tmpdir : str) (h : host) (code c2 : Z)
  (o1 o2 : str) (e1 e2 : gmap str (list byte) -> gmap str (list byte))
  (cs : list child) :
  children h = Exits code o1 e1 :: Exits c2 o2 e2 :: cs -> code <> 0%Z ->
  let r := ensure_master tmpdir h in
  calls (snd r) =
    [([lit "git"; lit "branch"; lit "-M"; lit "master"], Some tmpdir);
     ([lit "git"; lit "checkout"; lit "master"], Some tmpdir)] ++ calls h
  /\ children (snd r) = cs
  /\ fst r =
     if (c2 =? 0)%Z then inr tt
     else inl (CalledProcessError c2
                 [lit "git"; lit "branch"; lit "-M"; lit "master"]).
Proof.
  intros Hc Hcode. cbv zeta.
  destruct h as [w ch cl]. cbn [children] in Hc. subst ch.
  apply Z.eqb_neq in Hcode.
  unfold ensure_master, git, try_called, run, hbind, hprint, lift, print,
    emit, subprocess_run, hret.
  cbn [sys children calls files faults log andb negb tl fst snd].
  rewrite Hcode.
  cbn [sys children calls files faults log andb negb tl fst snd].
  destruct (c2 =? 0)%Z;
    cbn [sys children calls files faults log andb negb tl fst snd];
    repeat split.
Qed.

Lemma checkout_failure_renames_branch_witness :
  let r := ensure_master (lit "/tmp/w")
             (Host (World demo_files [] []) [Exits 1 [] id; Exits 0 [] id]
                []) in
  fst r = inr tt /\ length (calls (snd r)) = 2%nat.
Proof.
  destruct (checkout_failure_renames_branch (lit "/tmp/w")
              (Host (World demo_files [] []) [Exits 1 [] id; Exits 0 [] id] [])
              1 0 [] [] id id [] eq_refl ltac:(discriminate))
    as (H1 & _ & H3).
  split; [exact H3 | rewrite H1; reflexivity].
Defined.


(** X25. A push that fails does not overwrite a home page.  When [git
    push] exits with a status other than 0 and [Home.md] exists in the
    clone, the program opens no file: it runs [git push -u] next, whose
    outcome is the outcome of the stage, and the files are as the two
    children left them. *)
Theorem push_failure_keeps_home (tmpdir github_url : str) (h : host)
  (code c2 : Z) (o1 o2 : str)
  (e1 e2 : gmap str (list byte) -> gmap str (list byte)) (cs : list child)
  (b : list byte) :
  children h = Exits code o1 e1 :: Exits c2 o2 e2 :: cs -> code <> 0%Z ->
  e1 (files (sys h)) !! path_join tmpdir (lit "Home.md") = Some b ->
  let r := push_wiki tmpdir github_url h in
  calls (snd r) =
    [([lit "git"; lit "push"; lit "-u"; lit "origin"; lit "master";
       lit "--force"], Some tmpdir);
     ([lit "git"; lit "push"; lit "origin"; lit "master"; lit "--force"],
      Some tmpdir)] ++ calls h
  /\ files (sys (snd r)) = e2 (e1 (files (sys h)))
  /\ (opened (log (sys (snd r))) -> opened (log (sys h)))
  /\ fst r =
     if (c2 =? 0)%Z then inr tt
     else inl (CalledProcessError c2
                 [lit "git"; lit "push"; lit "-u"; lit "origin";
                  lit "master"; lit "--force"]).
Proof.
  intros Hc Hcode Hb. cbv zeta.
  destruct h as [w ch cl]. cbn [children] in Hc. subst ch.
  apply Z.eqb_neq in Hcode. cbn [sys] in Hb.
  unfold push_wiki, initialize_wiki, git, try_called, run, path_exists,
    hbind, hprint, lift, print, emit, subprocess_run, hret.
  cbn [sys children calls files faults log andb negb tl fst snd].
  rewrite Hcode.
  cbn [sys children calls files faults log andb negb tl fst snd].
  rewrite Hb.
  cbn [sys children calls files faults log andb negb tl fst snd].
  destruct (c2 =? 0)%Z;
    cbn [sys children calls files faults log andb negb tl fst snd];
    (split; [reflexivity|]; split; [reflexivity|]; split; [|reflexivity];
     intros (p & mode & enc & H); cbn [In] in H;
     repeat (destruct H as [H | H]; try discriminate);
     exists p, mode, enc; exact H).
Qed.

Lemma push_failure_keeps_home_witness :
  let h := Host (World (<[lit "/tmp/w/Home.md" := bytes_of "# Home"]> ∅)
                   [] [])
             [Exits 1 [] id; Exits 0 [] id] [] in
  let r := push_wiki (lit "/tmp/w") (lit "dst") h in
  fst r = inr tt
  /\ files (sys (snd r)) = <[lit "/tmp/w/Home.md" := bytes_of "# Home"]> ∅.
Proof.
  destruct (push_failure_keeps_home (lit "/tmp/w") (lit "dst")
              (Host (World (<[lit "/tmp/w/Home.md" := bytes_of "# Home"]> ∅)
                       [] [])
                 [Exits 1 [] id; Exits 0 [] id] [])
              1 0 [] [] id id [] (bytes_of "# Home") eq_refl
              ltac:(discriminate)) as (_ & H2 & _ & H4).
  - vm_compute. reflexivity.
  - split; [exact H4 | exact H2].
Defined.

(** X26. A push that fails makes the home page when there is none.  In
    a system without faults, when [git push] exits with a status other
    than 0, [Home.md] is not in the clone, and the three commands that
    follow succeed, the program writes [# <address> Wiki], an empty line
    and [(Initialized from GitLab)] to [Home.md] before [git add Home.md],
    [git commit] and [git push -u] run, and returns normally. *)
Theorem push_failure_creates_home (tmpdir github_url : str) (h : host)
  (code : Z) (o1 o2 o3 o4 : str)
  (e1 e2 e3 e4 : gmap str (list byte) -> gmap str (list byte))
  (cs : list child) :
  children h =
    Exits code o1 e1 :: Exits 0 o2 e2 :: Exits 0 o3 e3 :: Exits 0 o4 e4 :: cs ->
  code <> 0%Z ->
  faults (sys h) = [] ->
  e1 (files (sys h)) !! path_join tmpdir (lit "Home.md") = None ->
  forallb is_scalar github_url = true ->
  let r := push_wiki tmpdir github_url h in
  fst r = inr tt
  /\ calls (snd r) =
     [([lit "git"; lit "push"; lit "-u"; lit "origin"; lit "master";
        lit "--force"], Some tmpdir);
      ([lit "git"; lit "commit"; lit "-m"; lit "Initialize wiki"],
       Some tmpdir);
      ([lit "git"; lit "add"; lit "Home.md"], Some tmpdir);
      ([lit "git"; lit "push"; lit "origin"; lit "master"; lit "--force"],
       Some tmpdir)] ++ calls h
  /\ exists bs,
       utf8_encode (lit "# " ++ github_url ++ lit " Wiki" ++ [10; 10]
                    ++ lit "(Initialized from GitLab)") = Some bs
       /\ files (sys (snd r)) =
          e4 (e3 (e2 (<[path_join tmpdir (lit "Home.md")
                        := List.map byte_of bs]> (e1 (files (sys h)))))).
Proof.
  intros Hc Hcode Hf Hb Hurl. cbv zeta.
  destruct h as [[fs fl lg] ch cl]. cbn [children sys faults files] in *.
  subst ch fl. apply Z.eqb_neq in Hcode.
  destruct (utf8_encode_total
              (lit "# " ++ github_url ++ lit " Wiki" ++ [10; 10]
               ++ lit "(Initialized from GitLab)")) as (bs & Ebs).
  { rewrite !forallb_app, Hurl. reflexivity. }
  unfold push_wiki, initialize_wiki, git, try_called, run, path_exists,
    hbind, hprint, lift, print, emit, subprocess_run, hret.
  cbn [sys children calls files faults log andb negb tl fst snd].
  rewrite Hcode.
  cbn [sys children calls files faults log andb negb tl fst snd].
  rewrite Hb. cbn [negb].
  rewrite write_text_clean by reflexivity. rewrite Ebs.
  cbn [sys children calls files faults log andb negb tl fst snd Z.eqb].
  split; [reflexivity|]. split; [reflexivity|].
  exists bs. split; reflexivity.
Qed.

Lemma push_failure_creates_home_witness :
  let h := Host (World ∅ [] [])
             [Exits 1 [] id; Exits 0 [] id; Exits 0 [] id; Exits 0 [] id]
             [] in
  fst (push_wiki (lit "/tmp/w") (lit "dst") h) = inr tt.
Proof.
  destruct (push_failure_creates_home (lit "/tmp/w") (lit "dst")
              (Host (World ∅ [] [])
                 [Exits 1 [] id; Exits 0 [] id; Exits 0 [] id; Exits 0 [] id]
                 [])
              1 [] [] [] [] id id id id [] eq_refl ltac:(discriminate)
              eq_refl) as (H1 & _).
  - vm_compute. reflexivity.
  - vm_compute. reflexivity.
  - exact H1.
Defined.

(** X27. The mirror succeeds when its parts do.  When the rewrite of the
    links completes and every child exits with status 0, [publish]
    returns normally: it has run [git status], then [git add -A] and [git
    commit] or neither, then [git checkout master] and [git push origin
    master --force], in this order, and nothing after the push. *)
Theorem publish_succeeds (lower : str -> str)
  (walk_of : gmap str (list byte) -> list (str * list str))
  (tmpdir github_url : str) (h : host) (r0 : nat * nat) :
  Forall exits_zero (children h) ->
  fst (convert_gitlab_wiki_links_in_dir lower true
         (walk_of (files (sys h))) (sys h)) = inr r0 ->
  let r := publish lower walk_of tmpdir github_url h in
  fst r = inr tt
  /\ exists staged,
       calls (snd r) =
         [([lit "git"; lit "push"; lit "origin"; lit "master";
            lit "--force"], Some tmpdir);
          ([lit "git"; lit "checkout"; lit "master"], Some tmpdir)]
         ++ staged
         ++ [([lit "git"; lit "status"; lit "--porcelain"], Some tmpdir)]
         ++ calls h
       /\ (staged = [] \/
           staged =
           [([lit "git"; lit "commit"; lit "-m";
              lit "chore: rewrite GitLab-style relative wiki links for GitHub"],
             Some tmpdir);
            ([lit "git"; lit "add"; lit "-A"], Some tmpdir)]).
Proof.
  intros Hok Hscan. cbv zeta. unfold publish.
  assert (E0 : exists w',
    rewrite_links lower walk_of h =
    (inr r0, Host w' (children h) (calls h))).
  { unfold rewrite_links, lift.
    destruct (convert_gitlab_wiki_links_in_dir lower true
                (walk_of (files (sys h))) (sys h)) as [[x|r1] w'];
      cbn [fst] in Hscan; [discriminate|].
    injection Hscan as ->. exists w'. reflexivity. }
  destruct E0 as (w' & E0). rewrite (hbind_inr _ _ _ _ _ E0).
  destruct (commit_changes_ok tmpdir (Host w' (children h) (calls h)) Hok)
    as (h1 & staged & E1 & Hok1 & Hc1 & Hst & _).
  rewrite (hbind_inr _ _ _ _ _ E1).
  destruct (ensure_master_ok tmpdir h1 Hok1) as (h2 & E2 & Hok2 & Hc2 & _).
  rewrite (hbind_inr _ _ _ _ _ E2).
  destruct (push_wiki_ok tmpdir github_url h2 Hok2) as (h3 & E3 & Hc3 & _).
  rewrite (hbind_inr _ _ _ _ _ E3). rewrite hprint_eq. cbn [fst snd calls].
  split; [reflexivity|]. exists staged. split; [|exact Hst].
  rewrite Hc3, Hc2, Hc1. reflexivity.
Qed.

Lemma publish_succeeds_witness :
  fst (publish ascii_lower (fun _ => demo_walk) (lit "/tmp/w") (lit "dst")
         (Host (World demo_files [] []) [] [])) = inr tt.
Proof.
  destruct (publish_succeeds ascii_lower (fun _ => demo_walk) (lit "/tmp/w")
              (lit "dst") (Host (World demo_files [] []) [] [])
              (2%nat, 3%nat)) as (H1 & _).
  - constructor.
  - vm_compute. reflexivity.
  - exact H1.
Defined.
